(** * SentenceLSP: the LSP client of [gg.js] ([class RealLSPClient])

    A shallow embedding of the WebSocket language-server client: its
    connection life cycle, request/response correlation with timeouts,
    capability-gated feature requests, notification dispatch and the
    bounded session log.  The client is single-threaded and event-driven,
    so it is modelled as a deterministic step function over an explicit
    world (the object's fields, the browser's sockets, timers and promise
    reactions, and a trace of the calls made to outside collaborators). *)

From Stdlib Require Import Ascii String.
From stdpp Require Import base gmap strings list pretty sorting.
From Equations Require Import Equations.

Local Open Scope string_scope.
Local Open Scope list_scope.
Local Open Scope Z_scope.
#[local] Set Warnings "-register-all".

(** ** JavaScript values

    Values that cross the wire are what JSON.parse produces.  Numbers are
    the integers (the only numbers the client computes with, and exact as
    JavaScript numbers below 2^53) plus [JNaN], which arithmetic on a
    non-number yields; objects are association lists read by their first
    matching key. *)

Inductive jsval : Type :=
| JUndefined
| JNull
| JBool (b : bool)
| JNum (n : Z)
| JNaN
| JStr (s : string)
| JArr (items : list jsval)
| JObj (fields : list (string * jsval)).

(** What the engine throws, or what [new Error(msg)] carries. *)
Inductive jserror : Type :=
| TypeError
| SyntaxError
| Error (msg : string).

(** [if (v)], [!v], [v || w]. *)
Definition truthy (v : jsval) : bool :=
  match v with
  | JUndefined | JNull | JNaN => false
  | JBool b => b
  | JNum n => negb (n =? 0)
  | JStr s => negb (String.eqb s "")
  | JArr _ | JObj _ => true
  end.

Definition js_or (v w : jsval) : jsval := if truthy v then v else w.

Fixpoint assoc (k : string) (fields : list (string * jsval)) : jsval :=
  match fields with
  | [] => JUndefined
  | (k', v) :: rest => if String.eqb k k' then v else assoc k rest
  end.

(** [v.k]: a TypeError on [undefined] and [null], the field of an object,
    [length] of an array or a string, [undefined] otherwise. *)
Definition prop (v : jsval) (k : string) : jserror + jsval :=
  match v with
  | JUndefined | JNull => inl TypeError
  | JObj fields => inr (assoc k fields)
  | JArr items =>
      inr (if String.eqb k "length" then JNum (Z.of_nat (length items)) else JUndefined)
  | JStr s =>
      inr (if String.eqb k "length" then JNum (Z.of_nat (String.length s)) else JUndefined)
  | _ => inr JUndefined
  end.

(** [v?.k] *)
Definition opt_prop (v : jsval) (k : string) : jsval :=
  match prop v k with
  | inl _ => JUndefined
  | inr x => x
  end.

Definition isArray (v : jsval) : bool :=
  match v with JArr _ => true | _ => false end.

Definition is_string (v : jsval) : bool :=
  match v with JStr _ => true | _ => false end.

(** [v === n] for a number literal [n]. *)
Definition strict_eq_num (v : jsval) (n : Z) : bool :=
  match v with JNum m => m =? n | _ => false end.

(** Sequencing for a computation that only throws or returns. *)
Definition ebind {A B} (r : jserror + A) (k : A -> jserror + B) : jserror + B :=
  match r with
  | inl e => inl e
  | inr a => k a
  end.

Fixpoint emapM {A B} (f : A -> jserror + B) (l : list A) : jserror + list B :=
  match l with
  | [] => inr []
  | x :: rest => ebind (f x) (fun y => ebind (emapM f rest) (fun ys => inr (y :: ys)))
  end.

(** [v.map(f)]: only arrays have a [map] to call. *)
Definition js_map {B} (f : jsval -> jserror + B) (v : jsval) : jserror + list B :=
  match v with
  | JArr items => emapM f items
  | _ => inl TypeError
  end.

(** Whether the object has an own property [k]. *)
Fixpoint has_key (k : string) (fields : list (string * jsval)) : bool :=
  match fields with
  | [] => false
  | (k', _) :: rest => String.eqb k k' || has_key k rest
  end.

(** ToString: what template literals, [new Error(v)], [join] and a
    computed property key apply.  On an object it calls the object's
    [toString]: a parsed object that has a key of that name has a value
    there that cannot be called, and the inherited [valueOf] returns the
    object itself, so the conversion throws a TypeError; without such a key
    it is [Object.prototype.toString].  An array prints its elements,
    [undefined] and [null] as nothing, and throws where one of them does. *)
Fixpoint to_string (v : jsval) : jserror + string :=
  match v with
  | JUndefined => inr "undefined"
  | JNull => inr "null"
  | JBool true => inr "true"
  | JBool false => inr "false"
  | JNum n => inr (pretty n)
  | JNaN => inr "NaN"
  | JStr s => inr s
  | JArr items =>
      ebind
        ((fix elements (l : list jsval) : jserror + list string :=
            match l with
            | [] => inr []
            | x :: rest =>
                ebind (match x with
                       | JUndefined | JNull => inr ""
                       | _ => to_string x
                       end)
                      (fun y => ebind (elements rest) (fun ys => inr (y :: ys)))
            end) items)
        (fun texts => inr (String.concat "," texts))
  | JObj fields => if has_key "toString" fields then inl TypeError else inr "[object Object]"
  end.

(** [items.join(sep)]: [undefined] and [null] elements print as nothing. *)
Definition join_elem (x : jsval) : jserror + string :=
  match x with
  | JUndefined | JNull => inr ""
  | _ => to_string x
  end.

Definition js_join (sep : string) (items : list jsval) : jserror + string :=
  ebind (emapM join_elem items) (fun texts => inr (String.concat sep texts)).

(** [v > n] for a number literal [n]. *)
Definition js_gt (v : jsval) (n : Z) : bool :=
  match v with JNum m => n <? m | _ => false end.

(** [v + 1]: an object or array is converted to a string first. *)
Definition js_add1 (v : jsval) : jserror + jsval :=
  match v with
  | JNum n => inr (JNum (n + 1))
  | JNull => inr (JNum 1)
  | JBool b => inr (JNum (if b then 2 else 1))
  | JUndefined | JNaN => inr JNaN
  | JStr _ | JArr _ | JObj _ => ebind (to_string v) (fun text => inr (JStr (text +:+ "1")))
  end.

(** The separator ['\n\n']. *)
Definition nl2 : string := String "010"%char (String "010"%char "").


(** ** Protocol data and the collaborators' types *)

(** An outgoing JSON-RPC envelope, [{jsonrpc:'2.0', id, method, params}];
    [msg_id = None] is a notification (no [id] field). *)
Record message : Type := {
  msg_id : option Z;
  msg_method : string;
  msg_params : jsval
}.

Record Position : Type := { line : Z; character : Z }.

Definition position_val (pos : Position) : jsval :=
  JObj [("line", JNum (line pos)); ("character", JNum (character pos))].

(** The constants of the editor library ([monaco.*]) the client names. *)
Module monaco.
Inductive MarkerSeverity : Type := Hint | Info | Warning | Error.

Inductive CompletionItemKind : Type :=
| KText | KMethod | KFunction | KConstructor | KField | KVariable | KClass
| KInterface | KModule | KProperty | KUnit | KValue | KEnum | KKeyword
| KSnippet | KColor | KFile | KReference.

Inductive InsertTextRule : Type := InsertAsSnippet | NoRule.
End monaco.

Record marker : Type := {
  startLineNumber : jsval;
  endLineNumber : jsval;
  startColumn : jsval;
  endColumn : jsval;
  marker_message : jsval;
  severity : monaco.MarkerSeverity
}.

(** What [mapCompletionKind] returns: a constant of the editor library
    or, for a key the mapping object inherits, the member of
    [Object.prototype] of that name. *)
Inductive kind_value : Type :=
| KindConstant (k : monaco.CompletionItemKind)
| KindInherited (key : string).

Record suggestion : Type := {
  label : jsval;
  kind : kind_value;
  documentation : jsval;
  insertText : jsval;
  insertTextRules : monaco.InsertTextRule;
  range : jsval
}.

(** What an async feature method hands back to its caller. *)
Inductive retval : Type :=
| RUndefined
| RNull
| RSuggestions (suggestions : list suggestion)
| RHover (hover_range : jsval) (markdown : string).

Definition promise := nat.
Definition socket_id := nat.

(** The async method suspended at an [await] on a pending request. *)
Inductive kont : Type :=
| KInitialize
| KCompletions (position : Position)
| KHover.

(** The closures handed to [setTimeout]. *)
Inductive callback : Type :=
| CbRequestTimeout (id : Z) (p : promise)
| CbReconnect (url : string).

Record timer : Type := { due : Z; timer_cb : callback }.

Record log_entry : Type := { className : string; textContent : string }.

(** What the object does that others can see, in the order it is done:
    a socket constructed, [sendMessage] entered with a message, a frame
    handed to [ws.send], a callback given to [setTimeout], a promise's
    [resolve] or [reject] called, the status badge written, a toast shown,
    markers set, the editor's providers registered, a value returned from
    an async method. *)
Inductive effect : Type :=
| TrNewWebSocket (sid : socket_id) (url : string)
| TrSendMessage (m : message)
| TrWsSend (sid : socket_id) (frame : message)
| TrSetTimeout (cb : callback) (delay : Z)
| TrResolve (p : promise) (v : jsval)
| TrReject (p : promise) (e : jserror)
| TrStatus (connected : bool) (text : string)
| TrShowNotification (text : jsval) (duration : option Z) (urgent : option bool)
| TrSetModelMarkers (markers : list marker)
| TrRegisterProviders (uri : string)
| TrUnhandledRejection (e : jserror)
| TrReturn (k : kont) (v : retval).

(** ** The object and its surroundings *)

(** [{ resolve, reject, timestamp }]: both continuations belong to the
    promise [entry_promise]. *)
Record pending_request : Type := {
  entry_promise : promise;
  timestamp : Z
}.

Record RealLSPClient : Type := {
  messageId : Z;
  pendingRequests : gmap Z pending_request;
  isConnected : bool;
  serverCapabilities : jsval;
  ws : option socket_id;
  reconnectAttempts : Z;
  maxReconnectAttempts : Z
}.

Definition CONNECTING : Z := 0.
Definition OPEN : Z := 1.
Definition CLOSING : Z := 2.
Definition CLOSED : Z := 3.

Record socket : Type := { socket_url : string; readyState : Z }.

Record editor_model : Type := { model_uri : string; model_value : string }.

(** Module-level variables of the page the class reads or writes. *)
Record globals : Type := {
  editor : option editor_model;
  editorLoaded : bool;
  errorDetectionEnabled : bool;
  lspReady : bool
}.

(** Behaviour of the platform that the source leaves open. *)
Record platform : Type := {
  websocket_ctor_ok : string -> bool;
  kind_truthy : monaco.CompletionItemKind -> bool;
  toLocaleTimeString : Z -> string;
  engine_message : jserror -> string
}.

Record browser : Type := {
  sockets : gmap socket_id socket;
  nextSocket : socket_id;
  now : Z;
  timers : list timer;
  nextPromise : promise;
  awaiting : gmap promise kont;
  microtasks : list (kont * (jserror + jsval));
  lspLogs : option (list log_entry)
}.

Record world : Type := {
  this : RealLSPClient;
  host : browser;
  page : globals;
  env : platform;
  trace : list effect
}.

(** [new RealLSPClient()] *)
Definition constructor : RealLSPClient :=
  {| messageId := 0;
     pendingRequests := ∅;
     isConnected := false;
     serverCapabilities := JNull;
     ws := None;
     reconnectAttempts := 0;
     maxReconnectAttempts := 5 |}.

(** *** Field updates *)

Definition with_this (f : RealLSPClient -> RealLSPClient) (w : world) : world :=
  {| this := f (this w); host := host w; page := page w; env := env w; trace := trace w |}.

Definition with_host (f : browser -> browser) (w : world) : world :=
  {| this := this w; host := f (host w); page := page w; env := env w; trace := trace w |}.

Definition with_page (f : globals -> globals) (w : world) : world :=
  {| this := this w; host := host w; page := f (page w); env := env w; trace := trace w |}.

Definition with_trace (f : list effect -> list effect) (w : world) : world :=
  {| this := this w; host := host w; page := page w; env := env w; trace := f (trace w) |}.

Definition set_messageId (n : Z) (c : RealLSPClient) : RealLSPClient :=
  {| messageId := n; pendingRequests := pendingRequests c; isConnected := isConnected c;
     serverCapabilities := serverCapabilities c; ws := ws c;
     reconnectAttempts := reconnectAttempts c;
     maxReconnectAttempts := maxReconnectAttempts c |}.

Definition set_pendingRequests (m : gmap Z pending_request) (c : RealLSPClient) : RealLSPClient :=
  {| messageId := messageId c; pendingRequests := m; isConnected := isConnected c;
     serverCapabilities := serverCapabilities c; ws := ws c;
     reconnectAttempts := reconnectAttempts c;
     maxReconnectAttempts := maxReconnectAttempts c |}.

Definition set_isConnected (b : bool) (c : RealLSPClient) : RealLSPClient :=
  {| messageId := messageId c; pendingRequests := pendingRequests c; isConnected := b;
     serverCapabilities := serverCapabilities c; ws := ws c;
     reconnectAttempts := reconnectAttempts c;
     maxReconnectAttempts := maxReconnectAttempts c |}.

Definition set_serverCapabilities (v : jsval) (c : RealLSPClient) : RealLSPClient :=
  {| messageId := messageId c; pendingRequests := pendingRequests c;
     isConnected := isConnected c; serverCapabilities := v; ws := ws c;
     reconnectAttempts := reconnectAttempts c;
     maxReconnectAttempts := maxReconnectAttempts c |}.

Definition set_ws (s : option socket_id) (c : RealLSPClient) : RealLSPClient :=
  {| messageId := messageId c; pendingRequests := pendingRequests c;
     isConnected := isConnected c; serverCapabilities := serverCapabilities c; ws := s;
     reconnectAttempts := reconnectAttempts c;
     maxReconnectAttempts := maxReconnectAttempts c |}.

Definition set_reconnectAttempts (n : Z) (c : RealLSPClient) : RealLSPClient :=
  {| messageId := messageId c; pendingRequests := pendingRequests c;
     isConnected := isConnected c; serverCapabilities := serverCapabilities c; ws := ws c;
     reconnectAttempts := n;
     maxReconnectAttempts := maxReconnectAttempts c |}.

Definition set_sockets (m : gmap socket_id socket) (b : browser) : browser :=
  {| sockets := m; nextSocket := nextSocket b; now := now b; timers := timers b;
     nextPromise := nextPromise b; awaiting := awaiting b; microtasks := microtasks b;
     lspLogs := lspLogs b |}.

Definition set_nextSocket (n : socket_id) (b : browser) : browser :=
  {| sockets := sockets b; nextSocket := n; now := now b; timers := timers b;
     nextPromise := nextPromise b; awaiting := awaiting b; microtasks := microtasks b;
     lspLogs := lspLogs b |}.

Definition set_now (t : Z) (b : browser) : browser :=
  {| sockets := sockets b; nextSocket := nextSocket b; now := t; timers := timers b;
     nextPromise := nextPromise b; awaiting := awaiting b; microtasks := microtasks b;
     lspLogs := lspLogs b |}.

Definition set_timers (l : list timer) (b : browser) : browser :=
  {| sockets := sockets b; nextSocket := nextSocket b; now := now b; timers := l;
     nextPromise := nextPromise b; awaiting := awaiting b; microtasks := microtasks b;
     lspLogs := lspLogs b |}.

Definition set_nextPromise (n : promise) (b : browser) : browser :=
  {| sockets := sockets b; nextSocket := nextSocket b; now := now b; timers := timers b;
     nextPromise := n; awaiting := awaiting b; microtasks := microtasks b;
     lspLogs := lspLogs b |}.

Definition set_awaiting (m : gmap promise kont) (b : browser) : browser :=
  {| sockets := sockets b; nextSocket := nextSocket b; now := now b; timers := timers b;
     nextPromise := nextPromise b; awaiting := m; microtasks := microtasks b;
     lspLogs := lspLogs b |}.

Definition set_microtasks (l : list (kont * (jserror + jsval))) (b : browser) : browser :=
  {| sockets := sockets b; nextSocket := nextSocket b; now := now b; timers := timers b;
     nextPromise := nextPromise b; awaiting := awaiting b; microtasks := l;
     lspLogs := lspLogs b |}.

Definition set_lspLogs (l : option (list log_entry)) (b : browser) : browser :=
  {| sockets := sockets b; nextSocket := nextSocket b; now := now b; timers := timers b;
     nextPromise := nextPromise b; awaiting := awaiting b; microtasks := microtasks b;
     lspLogs := l |}.

Definition set_lspReady (r : bool) (g : globals) : globals :=
  {| editor := editor g; editorLoaded := editorLoaded g;
     errorDetectionEnabled := errorDetectionEnabled g; lspReady := r |}.

(** ** A state-and-exception monad for method bodies

    A method runs on the world and either returns or throws; what it did
    before throwing stays done. *)

Definition M (A : Type) : Type := world -> world * (jserror + A).

Definition ret {A} (a : A) : M A := fun w => (w, inr a).

Definition throw {A} (e : jserror) : M A := fun w => (w, inl e).

Definition bind {A B} (m : M A) (k : A -> M B) : M B :=
  fun w => match m w with
           | (w', inr a) => k a w'
           | (w', inl e) => (w', inl e)
           end.

(** [try { m } catch (error) { h error }] *)
Definition try_catch {A} (m : M A) (h : jserror -> M A) : M A :=
  fun w => match m w with
           | (w', inr a) => (w', inr a)
           | (w', inl e) => h e w'
           end.

Definition get : M world := fun w => (w, inr w).

Definition modify (f : world -> world) : M unit := fun w => (f w, inr tt).

Definition lift {A} (r : jserror + A) : M A := fun w => (w, r).

Definition emit (e : effect) : M unit := modify (with_trace (fun t => t ++ [e])).

Declare Scope M_scope.
Delimit Scope M_scope with M.
Notation "x ← y ; z" := (bind y (fun x => z))
  (at level 20, y at level 100, z at level 200, only parsing) : M_scope.
Notation "x ;; z" := (bind x (fun _ => z))
  (at level 100, z at level 200, only parsing, right associativity) : M_scope.
Local Open Scope M_scope.

(** [error.message] *)
Definition error_message (e : jserror) : M string :=
  w ← get;
  ret (match e with
       | Error msg => msg
       | _ => engine_message (env w) e
       end).

(** ** The session log: [addLog] *)

(** [while (children.length > 50) removeChild(firstChild)] *)
Equations? trim_logs (children : list log_entry) : list log_entry
  by wf (length children) lt :=
  trim_logs children with decide (50 < length children)%nat => {
    | left _ := trim_logs (tail children);
    | right _ := children }.
Proof. destruct children; simpl in *; lia. Qed.

Definition addLog (message : string) (type : string) : M unit :=
  fun w =>
    match lspLogs (host w) with
    | None => (w, inr tt)
    | Some children =>
        let timestamp := toLocaleTimeString (env w) (now (host w)) in
        let logEntry :=
          {| className := "log-entry " +:+ type;
             textContent := "[" +:+ timestamp +:+ "] " +:+ message |} in
        (with_host (set_lspLogs (Some (trim_logs (children ++ [logEntry])))) w, inr tt)
    end.

(** ** Connection status *)

Definition updateConnectionStatus (connected : bool) (message : string) : M unit :=
  modify (with_this (set_isConnected connected));;
  emit (TrStatus connected
          (if String.eqb message ""
           then (if connected then "Connected" else "Disconnected")
           else message)).

(** ** Correlation: [sendMessage], promise settlement, the timeout *)

(** The promise [sendMessage] returns. *)
Inductive send_result : Type :=
| Rejected (e : jserror)
| Pending (p : promise)
| Resolved.

Definition ws_open (w : world) : bool :=
  match ws (this w) with
  | None => false
  | Some sid =>
      match sockets (host w) !! sid with
      | Some s => readyState s =? OPEN
      | None => false
      end
  end.

Definition setTimeout (cb : callback) (delay : Z) : M unit :=
  modify (fun w =>
    with_host (set_timers (timers (host w)
                             ++ [{| due := now (host w) + delay; timer_cb := cb |}])) w);;
  emit (TrSetTimeout cb delay).

Definition new_promise : M promise :=
  w ← get;
  modify (with_host (set_nextPromise (S (nextPromise (host w)))));;
  ret (nextPromise (host w)).

Definition sendMessage (message : message) : M send_result :=
  emit (TrSendMessage message);;
  w ← get;
  if negb (ws_open w) then
    addLog "Cannot send message: connection not ready" "error";;
    ret (Rejected (Error "Connection not ready"))
  else
    emit (TrWsSend (default 0%nat (ws (this w))) message);;
    match msg_id message with
    | Some id =>
        p ← new_promise;
        modify (fun w => with_this (set_pendingRequests
                  (<[id := {| entry_promise := p; timestamp := now (host w) |}]>
                     (pendingRequests (this w)))) w);;
        setTimeout (CbRequestTimeout id p) 30000;;
        ret (Pending p)
    | None => ret Resolved
    end.

(** The effect of calling a promise's [resolve] or [reject]. *)
Definition settle_effect (p : promise) (outcome : jserror + jsval) : effect :=
  match outcome with
  | inr v => TrResolve p v
  | inl e => TrReject p e
  end.

(** Invoking a promise's [resolve] or [reject]: the call is recorded, and
    the method awaiting the promise is queued as a microtask. *)
Definition settle (p : promise) (outcome : jserror + jsval) : M unit :=
  emit (settle_effect p outcome);;
  w ← get;
  match awaiting (host w) !! p with
  | Some k =>
      modify (with_host (set_awaiting (delete p (awaiting (host w)))));;
      modify (with_host (set_microtasks (microtasks (host w) ++ [(k, outcome)])))
  | None => ret tt
  end.

(** [this.pendingRequests.has(v)] and [.get(v)]: every key is a number. *)
Definition pending_get (v : jsval) (w : world) : option pending_request :=
  match v with
  | JNum n => pendingRequests (this w) !! n
  | _ => None
  end.

Definition pending_delete (id : Z) : M unit :=
  modify (fun w => with_this (set_pendingRequests (delete id (pendingRequests (this w)))) w).

(** The closure scheduled by [sendMessage]: "Timeout after 30 seconds". *)
Definition request_timeout (id : Z) (p : promise) : M unit :=
  w ← get;
  match pendingRequests (this w) !! id with
  | Some _ =>
      pending_delete id;;
      settle p (inl (Error "Request timeout"))
  | None => ret tt
  end.

(** ** Notifications from the server *)

Definition getLogLevel (type : jsval) : string :=
  if strict_eq_num type 1 then "error"
  else if strict_eq_num type 2 then "error"
  else if strict_eq_num type 3 then "info"
  else if strict_eq_num type 4 then "info"
  else "info".

Definition map_severity (sev : jsval) : monaco.MarkerSeverity :=
  if strict_eq_num sev 1 then monaco.Error
  else if strict_eq_num sev 2 then monaco.Warning
  else if strict_eq_num sev 3 then monaco.Info
  else monaco.Hint.

(** The arrow function of [params.diagnostics.map(diag => ...)]. *)
Definition diag_to_marker (diag : jsval) : jserror + marker :=
  ebind (prop diag "range") (fun range1 =>
  ebind (prop range1 "start") (fun start1 =>
  ebind (prop start1 "line") (fun startLine =>
  ebind (js_add1 startLine) (fun startLineNumber1 =>
  ebind (prop diag "range") (fun range2 =>
  ebind (prop range2 "end") (fun end2 =>
  ebind (prop end2 "line") (fun endLine =>
  ebind (js_add1 endLine) (fun endLineNumber1 =>
  ebind (prop diag "range") (fun range3 =>
  ebind (prop range3 "start") (fun start3 =>
  ebind (prop start3 "character") (fun startCharacter =>
  ebind (js_add1 startCharacter) (fun startColumn1 =>
  ebind (prop diag "range") (fun range4 =>
  ebind (prop range4 "end") (fun end4 =>
  ebind (prop end4 "character") (fun endCharacter =>
  ebind (js_add1 endCharacter) (fun endColumn1 =>
  ebind (prop diag "message") (fun message =>
  ebind (prop diag "severity") (fun sev =>
  inr {| startLineNumber := startLineNumber1;
         endLineNumber := endLineNumber1;
         startColumn := startColumn1;
         endColumn := endColumn1;
         marker_message := message;
         severity := map_severity sev |})))))))))))))))))).

Definition handleDiagnostics (params : jsval) : M unit :=
  w ← get;
  if negb (bool_decide (is_Some (editor (page w)))) || negb (errorDetectionEnabled (page w))
  then ret tt
  else
    diagnostics ← lift (prop params "diagnostics");
    markers ← lift (js_map diag_to_marker diagnostics);
    emit (TrSetModelMarkers markers);;
    diagnostics' ← lift (prop params "diagnostics");
    len ← lift (prop diagnostics' "length");
    if js_gt len 0
    then
      diagnostics'' ← lift (prop params "diagnostics");
      len' ← lift (prop diagnostics'' "length");
      count ← lift (to_string len');
      addLog ("Received " +:+ count +:+ " diagnostic(s)") "info"
    else ret tt.

(** [switch (message.method)] compares with [===]. *)
Definition is_method (v : jsval) (name : string) : bool :=
  match v with
  | JStr s => String.eqb s name
  | _ => false
  end.

(** [addLog] called with a value off the wire: the template literal that
    converts it is reached only when the log container exists. *)
Definition addLog_value (message : jsval) (type : string) : M unit :=
  w ← get;
  match lspLogs (host w) with
  | None => ret tt
  | Some _ => text ← lift (to_string message); addLog text type
  end.

(** The second half of [handleMessage]: "Handle server notifications". *)
Definition handleNotification (message : jsval) : M unit :=
  method ← lift (prop message "method");
  if truthy method then
    if is_method method "textDocument/publishDiagnostics" then
      params ← lift (prop message "params");
      handleDiagnostics params
    else if is_method method "window/logMessage" then
      params ← lift (prop message "params");
      text ← lift (prop params "message");
      params' ← lift (prop message "params");
      type ← lift (prop params' "type");
      addLog_value text (getLogLevel type)
    else if is_method method "window/showMessage" then
      params ← lift (prop message "params");
      text ← lift (prop params "message");
      params' ← lift (prop message "params");
      type ← lift (prop params' "type");
      emit (TrShowNotification text (Some 3000) (Some (strict_eq_num type 1)))
    else
      name ← lift (to_string method);
      addLog ("Unhandled notification: " +:+ name) "info"
  else ret tt.

(** The first half, "Handle responses to our requests", is taken when
    [message.id && this.pendingRequests.has(message.id)].  The entry is
    deleted first; [new Error(...)] converts the error's message to a
    string before [reject] is called, and a conversion that throws leaves
    the promise unsettled. *)
Definition handleMessage (message : jsval) : M unit :=
  w ← get;
  id ← lift (prop message "id");
  match (if truthy id then pending_get id w else None), id with
  | Some request, JNum n =>
      pending_delete n;;
      error ← lift (prop message "error");
      if truthy error then
        text ← lift (prop error "message");
        msg ← lift (to_string (js_or text (JStr "LSP error")));
        settle (entry_promise request) (inl (Error msg))
      else
        result ← lift (prop message "result");
        settle (entry_promise request) (inr result)
  | _, _ => handleNotification message
  end.

(** ** The handshake and the typed requests *)

(** [++this.messageId] *)
Definition next_id : M Z :=
  w ← get;
  modify (with_this (set_messageId (messageId (this w) + 1)));;
  ret (messageId (this w) + 1).

(** Suspending an async method on a pending promise. *)
Definition await_on (p : promise) (k : kont) : M unit :=
  modify (fun w => with_host (set_awaiting (<[p := k]> (awaiting (host w)))) w).

(** [await] of a promise that is already settled: a notification's send
    never returns a pending one. *)
Definition await_settled (r : send_result) : M unit :=
  match r with
  | Rejected e => throw e
  | Resolved | Pending _ => ret tt
  end.

Definition markup_formats : jsval := JArr [JStr "markdown"; JStr "plaintext"].

Definition initialize_params : jsval :=
  JObj [
    ("processId", JNull);
    ("clientInfo", JObj [("name", JStr "LuaU Web Editor"); ("version", JStr "1.0.0")]);
    ("rootUri", JNull);
    ("capabilities", JObj [
      ("textDocument", JObj [
        ("completion", JObj [
          ("completionItem", JObj [
            ("snippetSupport", JBool true);
            ("commitCharactersSupport", JBool true);
            ("documentationFormat", markup_formats);
            ("deprecatedSupport", JBool true);
            ("preselectSupport", JBool true)]);
          ("contextSupport", JBool true)]);
        ("hover", JObj [("contentFormat", markup_formats)]);
        ("signatureHelp", JObj [
          ("signatureInformation", JObj [
            ("documentationFormat", markup_formats);
            ("parameterInformation", JObj [("labelOffsetSupport", JBool true)])])]);
        ("publishDiagnostics", JObj [
          ("relatedInformation", JBool true);
          ("versionSupport", JBool true);
          ("tagSupport", JObj [("valueSet", JArr [JNum 1; JNum 2])])]);
        ("definition", JObj [("linkSupport", JBool true)]);
        ("references", JObj [("context", JObj [("includeDeclaration", JBool true)])]);
        ("documentFormatting", JBool true);
        ("documentRangeFormatting", JBool true)]);
      ("workspace", JObj [
        ("workspaceFolders", JBool true);
        ("configuration", JBool true)])]);
    ("trace", JStr "verbose");
    ("workspaceFolders", JNull)].

Definition openDocument (uri languageId : string) (version : Z) (text : string) : M unit :=
  w ← get;
  if negb (isConnected (this w)) then ret tt
  else
    r ← sendMessage
          {| msg_id := None;
             msg_method := "textDocument/didOpen";
             msg_params :=
               JObj [("textDocument",
                      JObj [("uri", JStr uri); ("languageId", JStr languageId);
                            ("version", JNum version); ("text", JStr text)])] |};
    await_settled r.

Definition changeDocument (uri : string) (version : Z) (changes : jsval) : M unit :=
  w ← get;
  if negb (isConnected (this w)) then ret tt
  else
    r ← sendMessage
          {| msg_id := None;
             msg_method := "textDocument/didChange";
             msg_params :=
               JObj [("textDocument", JObj [("uri", JStr uri); ("version", JNum version)]);
                     ("contentChanges", changes)] |};
    await_settled r.

(** The promise [openDocument] returns is dropped by [setupEditorIntegration];
    the change listener and the two providers it registers call
    [changeDocument], [getCompletions] and [getHover] later. *)
Definition setupEditorIntegration : M unit :=
  w ← get;
  match editor (page w) with
  | Some model =>
      if negb (editorLoaded (page w)) then ret tt
      else
        try_catch (openDocument (model_uri model) "lua" 1 (model_value model))
                  (fun _ => ret tt);;
        emit (TrRegisterProviders (model_uri model));;
        addLog "Editor integration complete" "success"
  | None => ret tt
  end.

(** [initialize] from the [await] of the handshake response onwards. *)
Definition initialize_resume (outcome : jserror + jsval) : M unit :=
  try_catch
    (result ← lift outcome;
     capabilities ← lift (prop result "capabilities");
     modify (with_this (set_serverCapabilities capabilities));;
     addLog "Server initialized successfully" "success";;
     r ← sendMessage {| msg_id := None; msg_method := "initialized"; msg_params := JObj [] |};
     await_settled r;;
     modify (with_page (set_lspReady true));;
     emit (TrShowNotification (JStr "LSP server ready!") None None);;
     setupEditorIntegration)
    (fun error =>
       text ← error_message error;
       addLog ("Initialization failed: " +:+ text) "error").

(** An async method called: it has returned a value, or it is suspended. *)
Inductive async_result : Type :=
| Done (v : retval)
| Suspended (p : promise).

Definition initialize : M async_result :=
  id ← next_id;
  r ← sendMessage {| msg_id := Some id; msg_method := "initialize";
                     msg_params := initialize_params |};
  match r with
  | Pending p => await_on p KInitialize;; ret (Suspended p)
  | Rejected e => initialize_resume (inl e);; ret (Done RUndefined)
  | Resolved => initialize_resume (inr JUndefined);; ret (Done RUndefined)
  end.

(** *** Completion *)

Definition mapping (key : string) : option monaco.CompletionItemKind :=
  if String.eqb key "1" then Some monaco.KText
  else if String.eqb key "2" then Some monaco.KMethod
  else if String.eqb key "3" then Some monaco.KFunction
  else if String.eqb key "4" then Some monaco.KConstructor
  else if String.eqb key "5" then Some monaco.KField
  else if String.eqb key "6" then Some monaco.KVariable
  else if String.eqb key "7" then Some monaco.KClass
  else if String.eqb key "8" then Some monaco.KInterface
  else if String.eqb key "9" then Some monaco.KModule
  else if String.eqb key "10" then Some monaco.KProperty
  else if String.eqb key "11" then Some monaco.KUnit
  else if String.eqb key "12" then Some monaco.KValue
  else if String.eqb key "13" then Some monaco.KEnum
  else if String.eqb key "14" then Some monaco.KKeyword
  else if String.eqb key "15" then Some monaco.KSnippet
  else if String.eqb key "16" then Some monaco.KColor
  else if String.eqb key "17" then Some monaco.KFile
  else if String.eqb key "18" then Some monaco.KReference
  else None.

(** The properties an object literal inherits from [Object.prototype];
    each is a function or an object, hence truthy. *)
Definition Object_prototype : list string :=
  ["constructor"; "hasOwnProperty"; "isPrototypeOf"; "propertyIsEnumerable";
   "toLocaleString"; "toString"; "valueOf"; "__proto__";
   "__defineGetter__"; "__defineSetter__"; "__lookupGetter__"; "__lookupSetter__"].

Definition inherited (key : string) : bool :=
  existsb (String.eqb key) Object_prototype.

(** [mapping[kind] || monaco.languages.CompletionItemKind.Text]: the key
    is [kind] converted to a string, which can throw; whether a constant
    of the editor library is truthy is the platform's to say. *)
Definition mapCompletionKind (pf : platform) (kind : jsval) : jserror + kind_value :=
  ebind (to_string kind) (fun key =>
  match mapping key with
  | Some k => inr (KindConstant (if kind_truthy pf k then k else monaco.KText))
  | None =>
      if inherited key then inr (KindInherited key)
      else inr (KindConstant monaco.KText)
  end).

Definition item_to_suggestion (pf : platform) (position : Position) (item : jsval)
  : jserror + suggestion :=
  ebind (prop item "label") (fun label1 =>
  ebind (prop item "kind") (fun kind1 =>
  ebind (mapCompletionKind pf kind1) (fun kind2 =>
  ebind (prop item "documentation") (fun documentation1 =>
  ebind (prop item "insertText") (fun insertText1 =>
  ebind (prop item "label") (fun label2 =>
  ebind (prop item "insertTextFormat") (fun insertTextFormat =>
  ebind (prop item "range") (fun range1 =>
  inr {| label := label1;
         kind := kind2;
         documentation := documentation1;
         insertText := js_or insertText1 label2;
         insertTextRules :=
           if strict_eq_num insertTextFormat 2
           then monaco.InsertAsSnippet else monaco.NoRule;
         range :=
           js_or range1
             (JObj [("startLineNumber", JNum (line position + 1));
                    ("endLineNumber", JNum (line position + 1));
                    ("startColumn", JNum (character position + 1));
                    ("endColumn", JNum (character position + 1))]) |})))))))).

(** [getCompletions] from the [await] of the response onwards. *)
Definition getCompletions_resume (position : Position) (outcome : jserror + jsval)
  : M retval :=
  try_catch
    (result ← lift outcome;
     w ← get;
     let items :=
       if isArray result then result
       else js_or (opt_prop result "items") (JArr []) in
     suggestions ← lift (js_map (item_to_suggestion (env w) position) items);
     ret (RSuggestions suggestions))
    (fun error =>
       text ← error_message error;
       addLog ("Completion error: " +:+ text) "error";;
       ret (RSuggestions [])).

Definition getCompletions (uri : string) (position : Position) : M async_result :=
  w ← get;
  if negb (isConnected (this w))
     || negb (truthy (opt_prop (serverCapabilities (this w)) "completionProvider"))
  then ret (Done (RSuggestions []))
  else
    id ← next_id;
    r ← sendMessage
          {| msg_id := Some id;
             msg_method := "textDocument/completion";
             msg_params :=
               JObj [("textDocument", JObj [("uri", JStr uri)]);
                     ("position", position_val position);
                     ("context", JObj [("triggerKind", JNum 1)])] |};
    match r with
    | Pending p => await_on p (KCompletions position);; ret (Suspended p)
    | Rejected e => v ← getCompletions_resume position (inl e); ret (Done v)
    | Resolved => v ← getCompletions_resume position (inr JUndefined); ret (Done v)
    end.

(** *** Hover *)

(** The arrow function of [contents.map(content => ...)]. *)
Definition hover_fragment (content : jsval) : jserror + jsval :=
  if is_string content then inr content
  else ebind (prop content "value") (fun value => inr (js_or value content)).

(** [getHover] from the [await] of the response onwards. *)
Definition getHover_resume (outcome : jserror + jsval) : M retval :=
  try_catch
    (result ← lift outcome;
     if negb (truthy result) then ret RNull
     else
       contents0 ← lift (prop result "contents");
       if negb (truthy contents0) then ret RNull
       else
         let contents := if isArray contents0 then contents0 else JArr [contents0] in
         fragments ← lift (js_map hover_fragment contents);
         markdown ← lift (js_join nl2 fragments);
         range1 ← lift (prop result "range");
         ret (RHover range1 markdown))
    (fun error =>
       text ← error_message error;
       addLog ("Hover error: " +:+ text) "error";;
       ret RNull).

Definition getHover (uri : string) (position : Position) : M async_result :=
  w ← get;
  if negb (isConnected (this w))
     || negb (truthy (opt_prop (serverCapabilities (this w)) "hoverProvider"))
  then ret (Done RNull)
  else
    id ← next_id;
    r ← sendMessage
          {| msg_id := Some id;
             msg_method := "textDocument/hover";
             msg_params :=
               JObj [("textDocument", JObj [("uri", JStr uri)]);
                     ("position", position_val position)] |};
    match r with
    | Pending p => await_on p KHover;; ret (Suspended p)
    | Rejected e => v ← getHover_resume (inl e); ret (Done v)
    | Resolved => v ← getHover_resume (inr JUndefined); ret (Done v)
    end.

(** ** Connecting, and the four socket handlers *)

Definition default_url : string := "ws://localhost:8080/lsp".

(** [new WebSocket(url)] *)
Definition new_WebSocket (url : string) : M socket_id :=
  w ← get;
  if websocket_ctor_ok (env w) url then
    let sid := nextSocket (host w) in
    modify (with_host (set_sockets
              (<[sid := {| socket_url := url; readyState := CONNECTING |}]>
                 (sockets (host w)))));;
    modify (with_host (set_nextSocket (S sid)));;
    emit (TrNewWebSocket sid url);;
    ret sid
  else throw SyntaxError.

(** The handlers [connect] installs on the new socket are the functions
    [onopen], [onmessage], [onclose] and [onerror] below, run when the
    socket raises the event. *)
Definition connect (url : string) : M bool :=
  try_catch
    (addLog ("Connecting to LSP server at " +:+ url +:+ "...") "info";;
     sid ← new_WebSocket url;
     modify (with_this (set_ws (Some sid)));;
     ret true)
    (fun error =>
       text ← error_message error;
       addLog ("Connection failed: " +:+ text) "error";;
       updateConnectionStatus false "Connection failed";;
       ret false).

Definition onopen : M unit :=
  modify (with_this (set_isConnected true));;
  modify (with_this (set_reconnectAttempts 0));;
  updateConnectionStatus true "Connected";;
  addLog "WebSocket connection established" "success";;
  initialize;;
  ret tt.

(** [data] is [event.data] as JSON.parse reads it, [None] when it does not
    parse. *)
Definition onmessage (data : option jsval) : M unit :=
  try_catch
    (message ← lift (match data with
                     | Some v => inr v
                     | None => inl SyntaxError
                     end);
     handleMessage message)
    (fun error =>
       text ← error_message error;
       addLog ("Failed to parse message: " +:+ text) "error").

(** [Math.min(1000 * Math.pow(2, attempts), 30000)] *)
Definition reconnect_delay (attempts : Z) : Z :=
  Z.min (1000 * 2 ^ attempts) 30000.

Definition onclose (url : string) (code : Z) (reason : string) : M unit :=
  modify (with_this (set_isConnected false));;
  updateConnectionStatus false "Disconnected";;
  addLog ("Connection closed: " +:+ pretty code +:+ " - " +:+ reason) "error";;
  w ← get;
  if reconnectAttempts (this w) <? maxReconnectAttempts (this w) then
    modify (with_this (set_reconnectAttempts (reconnectAttempts (this w) + 1)));;
    w ← get;
    let delay := reconnect_delay (reconnectAttempts (this w)) in
    addLog ("Reconnecting in " +:+ pretty delay +:+ "ms... ("
              +:+ pretty (reconnectAttempts (this w)) +:+ "/"
              +:+ pretty (maxReconnectAttempts (this w)) +:+ ")") "info";;
    setTimeout (CbReconnect url) delay
  else ret tt.

Definition onerror (message : jsval) : M unit :=
  text ← lift (to_string (js_or message (JStr "Unknown error")));
  addLog ("WebSocket error: " +:+ text) "error";;
  updateConnectionStatus false "Connection error".

(** ** The event loop *)

(** What can happen to the page: the caller's calls, the socket's events,
    time passing, a due timer firing, the page's own switches changing.
    A socket raises [open] only while connecting, [message] only while
    open and [close] once; a timer fires no earlier than it is due, in any
    order with the others.  Callers reach [sendMessage] through the typed
    methods, which take its identifiers from the counter. *)
Inductive event : Type :=
| EvConnect (url : option string)
| EvOpen (sid : socket_id)
| EvMessage (sid : socket_id) (data : option jsval)
| EvClose (sid : socket_id) (code : Z) (reason : string)
| EvError (sid : socket_id) (message : jsval)
| EvTick (dt : Z)
| EvTimer (i : nat)
| EvGetCompletions (uri : string) (position : Position)
| EvGetHover (uri : string) (position : Position)
| EvOpenDocument (uri languageId : string) (version : Z) (text : string)
| EvChangeDocument (uri : string) (version : Z) (changes : jsval)
| EvInitialize
| EvHandleMessage (message : jsval)
| EvPage (ed : option editor_model) (loaded detection : bool).

(** Resuming the async method that awaited a promise now settled. *)
Definition resume (k : kont) (outcome : jserror + jsval) : M unit :=
  match k with
  | KInitialize => initialize_resume outcome;; emit (TrReturn k RUndefined)
  | KCompletions position =>
      v ← getCompletions_resume position outcome; emit (TrReturn k v)
  | KHover => v ← getHover_resume outcome; emit (TrReturn k v)
  end.

(** After each task the queued microtasks run, in order. *)
Definition drain (w : world) : world :=
  fold_left (fun w job => fst (resume (fst job) (snd job) w))
            (microtasks (host w))
            (with_host (set_microtasks []) w).

Definition run_task {A} (task : M A) (w : world) : world := drain (fst (task w)).

Definition fire (cb : callback) : M unit :=
  match cb with
  | CbRequestTimeout id p => request_timeout id p
  | CbReconnect url => connect url;; ret tt
  end.

Definition set_readyState (sid : socket_id) (st : Z) (w : world) : world :=
  with_host (set_sockets
               (alter (fun s => {| socket_url := socket_url s; readyState := st |})
                      sid (sockets (host w)))) w.

Definition returning (k : kont) (call : M async_result) : M unit :=
  r ← call;
  match r with
  | Done v => emit (TrReturn k v)
  | Suspended _ => ret tt
  end.

Definition step (ev : event) (w : world) : world :=
  match ev with
  | EvConnect url => run_task (connect (default default_url url)) w
  | EvOpen sid =>
      match sockets (host w) !! sid with
      | Some s =>
          if readyState s =? CONNECTING
          then run_task onopen (set_readyState sid OPEN w)
          else w
      | None => w
      end
  | EvMessage sid data =>
      match sockets (host w) !! sid with
      | Some s => if readyState s =? OPEN then run_task (onmessage data) w else w
      | None => w
      end
  | EvClose sid code reason =>
      match sockets (host w) !! sid with
      | Some s =>
          if readyState s =? CLOSED then w
          else run_task (onclose (socket_url s) code reason) (set_readyState sid CLOSED w)
      | None => w
      end
  | EvError sid message =>
      match sockets (host w) !! sid with
      | Some s => run_task (onerror message) w
      | None => w
      end
  | EvTick dt =>
      if 0 <=? dt then with_host (set_now (now (host w) + dt)) w else w
  | EvTimer i =>
      match timers (host w) !! i with
      | Some t =>
          if due t <=? now (host w)
          then run_task (fire (timer_cb t)) (with_host (set_timers (delete i (timers (host w)))) w)
          else w
      | None => w
      end
  | EvGetCompletions uri position =>
      run_task (returning (KCompletions position) (getCompletions uri position)) w
  | EvGetHover uri position =>
      run_task (returning KHover (getHover uri position)) w
  | EvOpenDocument uri languageId version text =>
      run_task (openDocument uri languageId version text) w
  | EvChangeDocument uri version changes =>
      run_task (changeDocument uri version changes) w
  | EvInitialize => run_task (returning KInitialize initialize) w
  | EvHandleMessage message => run_task (handleMessage message) w
  | EvPage ed loaded detection =>
      with_page (fun g => {| editor := ed; editorLoaded := loaded;
                             errorDetectionEnabled := detection; lspReady := lspReady g |}) w
  end.

Definition run (evs : list event) (w : world) : world :=
  fold_left (fun w ev => step ev w) evs w.

(** The page just after [new RealLSPClient()]. *)
Definition boot (pf : platform) (g : globals) (logs : option (list log_entry)) (t0 : Z) : world :=
  {| this := constructor;
     host := {| sockets := ∅; nextSocket := 0%nat; now := t0; timers := [];
                nextPromise := 0%nat; awaiting := ∅; microtasks := [];
                lspLogs := logs |};
     page := g;
     env := pf;
     trace := [] |}.

(** ** The callbacks [setupEditorIntegration] hands to the editor

    The editor counts lines and columns from one, the protocol from zero.
    The switches [autoCompletionEnabled] and [hoverInfoEnabled] are
    variables of the page, read when the provider is called. *)

Record monaco_position : Type := { lineNumber : Z; column : Z }.

Record monaco_change : Type := {
  change_startLineNumber : Z;
  change_startColumn : Z;
  change_endLineNumber : Z;
  change_endColumn : Z;
  change_text : string
}.

(** [{ line: position.lineNumber - 1, character: position.column - 1 }] *)
Definition lspPosition (position : monaco_position) : Position :=
  {| line := lineNumber position - 1; character := column position - 1 |}.

Definition provideCompletionItems (autoCompletionEnabled : bool) (uri : string)
    (position : monaco_position) : M async_result :=
  if negb autoCompletionEnabled then ret (Done (RSuggestions []))
  else getCompletions uri (lspPosition position).

Definition provideHover (hoverInfoEnabled : bool) (uri : string)
    (position : monaco_position) : M async_result :=
  if negb hoverInfoEnabled then ret (Done RNull)
  else getHover uri (lspPosition position).

(** The arrow function of [event.changes.map(change => ...)]. *)
Definition change_to_lsp (change : monaco_change) : jsval :=
  JObj [("range",
         JObj [("start", JObj [("line", JNum (change_startLineNumber change - 1));
                               ("character", JNum (change_startColumn change - 1))]);
               ("end", JObj [("line", JNum (change_endLineNumber change - 1));
                             ("character", JNum (change_endColumn change - 1))])]);
        ("text", JStr (change_text change))].

(** The content-change listener: [version] is the variable of the closure,
    incremented first; the new value is returned.  The promise of
    [changeDocument] is dropped. *)
Definition onDidChangeContent (uri : string) (version : Z) (changes : list monaco_change)
  : M Z :=
  try_catch (changeDocument uri (version + 1) (JArr (map change_to_lsp changes)))
            (fun _ => ret tt);;
  ret (version + 1).

(** * Vocabulary of the statements *)

(** The log container after [addLog message type]. *)
Definition logs_after (message type : string) (w : world) : option (list log_entry) :=
  match lspLogs (host w) with
  | None => None
  | Some children =>
      Some (trim_logs
              (children ++
                 [{| className := "log-entry " +:+ type;
                     textContent :=
                       "[" +:+ toLocaleTimeString (env w) (now (host w)) +:+ "] "
                           +:+ message |}]))
  end.

(** A diagnostic as the protocol types it: zero-based positions. *)
Record diagnostic : Type := {
  start_line : Z;
  start_character : Z;
  end_line : Z;
  end_character : Z;
  diag_message : jsval;
  diag_severity : jsval
}.

(** [diag] is the wire form of [d], whatever else it carries. *)
Definition represents (diag : jsval) (d : diagnostic) : Prop :=
  ∃ range1 start1 end1,
    prop diag "range" = inr range1 ∧
    prop range1 "start" = inr start1 ∧
    prop range1 "end" = inr end1 ∧
    prop start1 "line" = inr (JNum (start_line d)) ∧
    prop start1 "character" = inr (JNum (start_character d)) ∧
    prop end1 "line" = inr (JNum (end_line d)) ∧
    prop end1 "character" = inr (JNum (end_character d)) ∧
    prop diag "message" = inr (diag_message d) ∧
    prop diag "severity" = inr (diag_severity d).

(** The marker the specification asks for: every coordinate one-based,
    severity 1..4 read as Error, Warning, Info, Hint, and Hint for any
    value that is none of these. *)
Definition spec_severity (sev : jsval) : monaco.MarkerSeverity :=
  match sev with
  | JNum 1 => monaco.Error
  | JNum 2 => monaco.Warning
  | JNum 3 => monaco.Info
  | JNum 4 => monaco.Hint
  | _ => monaco.Hint
  end.

(** One-based coordinates: each of the four plus one. *)
Definition spec_marker (d : diagnostic) : marker :=
  {| startLineNumber := JNum (start_line d + 1);
     endLineNumber := JNum (end_line d + 1);
     startColumn := JNum (start_character d + 1);
     endColumn := JNum (end_character d + 1);
     marker_message := diag_message d;
     severity := spec_severity (diag_severity d) |}.

(** The specification's example diagnostic, as it arrives. *)
Definition diag_example : jsval :=
  JObj [("range",
         JObj [("start", JObj [("line", JNum 2); ("character", JNum 4)]);
               ("end", JObj [("line", JNum 2); ("character", JNum 9)])]);
        ("severity", JNum 1);
        ("message", JStr "unknown global")].

(** A page with an editor, an empty log container and a fresh client. *)
Definition world_example : world :=
  boot {| websocket_ctor_ok := fun _ => true;
          kind_truthy := fun _ => true;
          toLocaleTimeString := fun t => pretty t;
          engine_message := fun _ => "engine error" |}
       {| editor := Some {| model_uri := "inmemory://model/1"; model_value := "print(1)" |};
          editorLoaded := true;
          errorDetectionEnabled := true;
          lspReady := false |}
       (Some [])
       0.

(** The text a hover fragment stands for: a string is its own text, a
    marked-up fragment [{..., value}] is its [value]. *)
Inductive fragment_text : jsval → string → Prop :=
| fragment_string (s : string) : fragment_text (JStr s) s
| fragment_value (fields : list (string * jsval)) (s : string) :
    assoc "value" fields = JStr s → fragment_text (JObj fields) s.

(** The delays of the reconnections scheduled so far. *)
Definition reconnects (tr : list effect) : list Z :=
  omap (fun e => match e with
                 | TrSetTimeout (CbReconnect _) delay => Some delay
                 | _ => None
                 end) tr.

(** Close events arriving one after the other, no open event between. *)
Fixpoint closes (url : string) (events : list (Z * string)) : M unit :=
  match events with
  | [] => ret tt
  | (code, reason) :: rest => onclose url code reason;; closes url rest
  end.

(** The world after [sendMessage message] found the socket open. *)
Definition sent (message : message) (w : world) : world :=
  let w1 := with_trace (fun t => (t ++ [TrSendMessage message])
                                   ++ [TrWsSend (default 0%nat (ws (this w))) message]) w in
  match msg_id message with
  | Some id =>
      let p := nextPromise (host w) in
      with_trace (fun t => t ++ [TrSetTimeout (CbRequestTimeout id p) 30000])
        (with_host (set_timers (timers (host w)
                                  ++ [{| due := now (host w) + 30000;
                                         timer_cb := CbRequestTimeout id p |}]))
           (with_this (set_pendingRequests
                         (<[id := {| entry_promise := p; timestamp := now (host w) |}]>
                            (pendingRequests (this w))))
              (with_host (set_nextPromise (S p)) w1)))
  | None => w1
  end.

(** The world after [sendMessage message] found it not open. *)
Definition refused (message : message) (w : world) : world :=
  let w1 := with_trace (fun t => t ++ [TrSendMessage message]) w in
  with_host (set_lspLogs (logs_after "Cannot send message: connection not ready" "error" w1)) w1.

(** The world after [settle p outcome]. *)
Definition settled (p : promise) (outcome : jserror + jsval) (w : world) : world :=
  let w1 := with_trace (fun t => t ++ [settle_effect p outcome]) w in
  match awaiting (host w) !! p with
  | Some k =>
      with_host (set_microtasks (microtasks (host w) ++ [(k, outcome)]))
        (with_host (set_awaiting (delete p (awaiting (host w)))) w1)
  | None => w1
  end.

(** A frame that is a response: an object without a [method]. *)
Definition is_response (fields : list (string * jsval)) : Prop :=
  truthy (assoc "method" fields) = false.

(** Whether the table holds the frame's [id]. *)
Definition known_id (fields : list (string * jsval)) (w : world) : bool :=
  truthy (assoc "id" fields) && bool_decide (is_Some (pending_get (assoc "id" fields) w)).

(** The identifier of the message [sendMessage] was entered with. *)
Definition request_id (e : effect) : option Z :=
  match e with
  | TrSendMessage m => msg_id m
  | _ => None
  end.

(** The identifiers handed to [sendMessage], oldest first. *)
Definition sent_ids (tr : list effect) : list Z := omap request_id tr.

(** Request [id] was put on the wire, left promise [p] pending and had its
    timeout scheduled. *)
Definition registered (id : Z) (p : promise) (tr : list effect) : Prop :=
  TrSetTimeout (CbRequestTimeout id p) 30000 ∈ tr.

(** [e] is a call of [resolve] or [reject] of promise [p]. *)
Definition settles (p : promise) (e : effect) : bool :=
  match e with
  | TrResolve q _ | TrReject q _ => bool_decide (p = q)
  | _ => false
  end.

(** How often [resolve] or [reject] of promise [p] was called. *)
Definition settle_count (p : promise) (tr : list effect) : nat :=
  length (filter (fun e => settles p e = true) tr).

(** Effects that say nothing about a request with an identifier. *)
Definition passive (e : effect) : bool :=
  match e with
  | TrSendMessage m | TrWsSend _ m => bool_decide (msg_id m = None)
  | TrSetTimeout (CbRequestTimeout _ _) _ => false
  | TrResolve _ _ | TrReject _ _ => false
  | _ => true
  end.

(** The timer that rejects request [id] of promise [p], registered at [ts]. *)
Definition timeout_of (id : Z) (p : promise) (ts : Z) : timer :=
  {| due := ts + 30000; timer_cb := CbRequestTimeout id p |}.

(** The states a registered request can be in: still in the table, never
    settled, its timeout queued; out of the table, settled once; or out of
    the table and never settled (its response could not be read). *)
Definition awaited (id : Z) (p : promise) (pend : gmap Z pending_request)
    (tm : list timer) (tr : list effect) : Prop :=
  settle_count p tr = 0%nat ∧
  ∃ ts, pend !! id = Some {| entry_promise := p; timestamp := ts |} ∧
        timeout_of id p ts ∈ tm.

Definition settled_once (id : Z) (p : promise) (pend : gmap Z pending_request)
    (tr : list effect) : Prop :=
  settle_count p tr = 1%nat ∧ pend !! id = None.

Definition abandoned (id : Z) (p : promise) (pend : gmap Z pending_request)
    (tr : list effect) : Prop :=
  settle_count p tr = 0%nat ∧ pend !! id = None.

(** How the identifier counter [mid], the table [pend], the timers [tm],
    the next promise [np] and the trace [tr] hang together. *)
Record correlated (mid : Z) (pend : gmap Z pending_request) (tm : list timer)
    (np : promise) (tr : list effect) : Prop := {
  cor_counter : 0 ≤ mid;
  cor_sorted : StronglySorted Z.lt (sent_ids tr);
  cor_sent : Forall (fun id => 1 ≤ id ≤ mid) (sent_ids tr);
  cor_wire : ∀ sid m id,
    TrWsSend sid m ∈ tr → msg_id m = Some id → ∃ p, registered id p tr;
  cor_bound : ∀ id p, registered id p tr → 1 ≤ id ≤ mid ∧ (p < np)%nat;
  cor_fun : ∀ id p p', registered id p tr → registered id p' tr → p = p';
  cor_inj : ∀ id id' p, registered id p tr → registered id' p tr → id = id';
  cor_count : ∀ p, (settle_count p tr ≤ 1)%nat;
  cor_settled : ∀ p, (0 < settle_count p tr)%nat → ∃ id, registered id p tr;
  cor_once : ∀ id p,
    registered id p tr →
    settled_once id p pend tr ∨ abandoned id p pend tr ∨ awaited id p pend tm tr;
  cor_pending : ∀ id e, pend !! id = Some e → registered id (entry_promise e) tr;
  cor_timers : ∀ t id p,
    t ∈ tm → timer_cb t = CbRequestTimeout id p → registered id p tr
}.

(** The correlation invariant of a world. *)
Definition Inv (w : world) : Prop :=
  correlated (messageId (this w)) (pendingRequests (this w)) (timers (host w))
             (nextPromise (host w)) (trace w).

(** Request [id] of promise [p] has left the table unsettled, in a world
    where everything else hangs together. *)
Definition forsaken (id : Z) (p : promise) (w : world) : Prop :=
  Inv w ∧ registered id p (trace w)
  ∧ abandoned id p (pendingRequests (this w)) (trace w).

(** An error response to request 2 whose message is not a string but an
    object with a [toString] key. *)
Definition unreadable_error_fields : list (string * jsval) :=
  [("jsonrpc", JStr "2.0"); ("id", JNum 2);
   ("error", JObj [("code", JNum (-32603));
                   ("message", JObj [("toString", JNum 0)])])].

Definition unreadable_error_response : jsval := JObj unreadable_error_fields.

(** No timer that is due is still waiting to fire. *)
Definition punctual (w : world) : Prop :=
  ∀ t, t ∈ timers (host w) → now (host w) < due t.

(** A handshake answered, a hover request that times out, and the late
    answer to it. *)
Definition run_example : list event :=
  [EvConnect None; EvOpen 0%nat;
   EvMessage 0%nat
     (Some (JObj [("jsonrpc", JStr "2.0"); ("id", JNum 1);
                  ("result", JObj [("capabilities",
                                    JObj [("hoverProvider", JBool true)])])]));
   EvGetHover "inmemory://model/1" {| line := 0; character := 0 |};
   EvTick 30000; EvTimer 1%nat;
   EvMessage 0%nat
     (Some (JObj [("jsonrpc", JStr "2.0"); ("id", JNum 2); ("result", JNull)]))].

(** What the response frame settles its promise with; the outer error
    is the exception of a message that cannot be converted to a string. *)
Definition response_outcome (fields : list (string * jsval))
  : jserror + (jserror + jsval) :=
  let error := assoc "error" fields in
  if truthy error
  then ebind (to_string (js_or (opt_prop error "message") (JStr "LSP error")))
             (fun msg => inr (inl (Error msg)))
  else inr (inr (assoc "result" fields)).






(** [m] keeps [I], whether it returns or throws. *)
Definition pres (I : world → Prop) {A} (m : M A) : Prop := ∀ w, I w → I (fst (m w)).

(** What [I] must not depend on: the log, the connection flags, the
    sockets, the promise reactions, the clock, the page's variables,
    effects that are not about requests, and reconnection timers. *)
Record frame_closed (I : world → Prop) : Prop := {
  fc_logs : ∀ l w, I w → I (with_host (set_lspLogs l) w);
  fc_isConnected : ∀ b w, I w → I (with_this (set_isConnected b) w);
  fc_reconnectAttempts : ∀ n w, I w → I (with_this (set_reconnectAttempts n) w);
  fc_ws : ∀ s w, I w → I (with_this (set_ws s) w);
  fc_sockets : ∀ m w, I w → I (with_host (set_sockets m) w);
  fc_nextSocket : ∀ n w, I w → I (with_host (set_nextSocket n) w);
  fc_awaiting : ∀ m w, I w → I (with_host (set_awaiting m) w);
  fc_now : ∀ t w, I w → I (with_host (set_now t) w);
  fc_page : ∀ f w, I w → I (with_page f w);
  fc_emit : ∀ e w, passive e = true → I w → I (with_trace (fun t => t ++ [e]) w);
  fc_reconnect_timer : ∀ t url w,
    timer_cb t = CbReconnect url →
    I w → I (with_host (set_timers (timers (host w) ++ [t])) w)
}.

Arguments fc_logs {I} _.
Arguments fc_isConnected {I} _.
Arguments fc_reconnectAttempts {I} _.
Arguments fc_ws {I} _.
Arguments fc_sockets {I} _.
Arguments fc_nextSocket {I} _.
Arguments fc_awaiting {I} _.
Arguments fc_now {I} _.
Arguments fc_page {I} _.
Arguments fc_emit {I} _.
Arguments fc_reconnect_timer {I} _.

(** The world with one more effect in its trace. *)
Definition emitted (e : effect) (w : world) : world :=
  with_trace (fun t => t ++ [e]) w.

(** The world after [addLog message type]. *)
Definition logged (message type : string) (w : world) : world :=
  with_host (set_lspLogs (logs_after message type w)) w.

(** A value that converts to a string without throwing. *)
Definition printable (v : jsval) : Prop := ∃ text, to_string v = inr text.

(** A completion item the mapping cannot read: it is [null] or missing,
    or its [kind] does not convert to a property key. *)
Definition unreadable_item (item : jsval) : Prop :=
  item = JNull ∨ item = JUndefined
  ∨ ∃ fields, item = JObj fields ∧ to_string (assoc "kind" fields) = inl TypeError.

(** Whether a string starts with a digit or a minus sign. *)
Definition starts_numeric (s : string) : bool :=
  match s with
  | String c _ =>
      existsb (Ascii.eqb c)
        ["0"; "1"; "2"; "3"; "4"; "5"; "6"; "7"; "8"; "9"; "-"]%char
  | EmptyString => false
  end.

(** The number the protocol gives each completion item kind. *)
Definition lsp_kind (k : monaco.CompletionItemKind) : Z :=
  match k with
  | monaco.KText => 1 | monaco.KMethod => 2 | monaco.KFunction => 3
  | monaco.KConstructor => 4 | monaco.KField => 5 | monaco.KVariable => 6
  | monaco.KClass => 7 | monaco.KInterface => 8 | monaco.KModule => 9
  | monaco.KProperty => 10 | monaco.KUnit => 11 | monaco.KValue => 12
  | monaco.KEnum => 13 | monaco.KKeyword => 14 | monaco.KSnippet => 15
  | monaco.KColor => 16 | monaco.KFile => 17 | monaco.KReference => 18
  end.

(** The request [getCompletions] sends. *)
Definition completion_request (id : Z) (uri : string) (position : Position) : message :=
  {| msg_id := Some id;
     msg_method := "textDocument/completion";
     msg_params :=
       JObj [("textDocument", JObj [("uri", JStr uri)]);
             ("position", position_val position);
             ("context", JObj [("triggerKind", JNum 1)])] |}.

(** The request [getHover] sends. *)
Definition hover_request (id : Z) (uri : string) (position : Position) : message :=
  {| msg_id := Some id;
     msg_method := "textDocument/hover";
     msg_params :=
       JObj [("textDocument", JObj [("uri", JStr uri)]);
             ("position", position_val position)] |}.

(** The world after a typed method took the next identifier, sent request
    [m] on the open socket and suspended as [k] on its promise. *)
Definition requested (m : message) (k : kont) (w : world) : world :=
  with_host (set_awaiting (<[nextPromise (host w) := k]> (awaiting (host w))))
    (sent m (with_this (set_messageId (messageId (this w) + 1)) w)).

(** The notification [setupEditorIntegration] opens the document with. *)
Definition didOpen (model : editor_model) : message :=
  {| msg_id := None;
     msg_method := "textDocument/didOpen";
     msg_params :=
       JObj [("textDocument",
              JObj [("uri", JStr (model_uri model)); ("languageId", JStr "lua");
                    ("version", JNum 1); ("text", JStr (model_value model))])] |}.

(** The notification that ends the handshake. *)
Definition initialized : message :=
  {| msg_id := None; msg_method := "initialized"; msg_params := JObj [] |}.

(** What [setupEditorIntegration] adds to the trace, on a socket [sid]
    that is open. *)
Definition integration_effects (sid : socket_id) (w : world) : list effect :=
  match editor (page w) with
  | Some model =>
      if editorLoaded (page w) then
        (if isConnected (this w)
         then [TrSendMessage (didOpen model); TrWsSend sid (didOpen model)]
         else [])
        ++ [TrRegisterProviders (model_uri model)]
      else []
  | None => []
  end.

(** The identifiers handed to [sendMessage] so far are 1, 2, ... up to the
    counter, in this order. *)
Definition consecutive (w : world) : Prop :=
  0 ≤ messageId (this w) ∧ sent_ids (trace w) = seqZ 1 (messageId (this w)).

(** * Properties *)

Example to_string_ex :
  to_string (JArr [JNum 3; JNull; JStr "x"; JObj []]) = inr "3,,x,[object Object]" ∧
  to_string (JObj [("toString", JNum 0)]) = inl TypeError ∧
  to_string (JArr [JStr "x"; JObj [("toString", JNull)]]) = inl TypeError.
Proof. repeat split. Qed.

(** A conversion to a string throws nothing but a TypeError. *)
Lemma to_string_error : ∀ (v : jsval) (e : jserror), to_string v = inl e → e = TypeError.
Proof.
  fix IH 1. intros v e.
  destruct v as [| |[|]|n| |s|items|fields]; cbn; try discriminate.
  - revert e. generalize items. fix IHitems 1. intros l e.
    destruct l as [|x rest]; cbn; [discriminate|].
    pose proof (IH x) as IHx. pose proof (IHitems rest e) as IHrest.
    destruct (match x with JUndefined | JNull => inr "" | _ => to_string x end)
      as [e'|text] eqn:Hx; cbn.
    + intros [= <-]. destruct x; try discriminate; apply (IHx _ Hx).
    + intros H. apply IHrest.
      match goal with
      | |- ebind ?r _ = _ => destruct r as [e'|texts]; cbn in *; [exact H|discriminate]
      end.
  - destruct (has_key "toString" fields); [intros [= <-]; reflexivity|discriminate].
Qed.

(** ** The log stays bounded *)

Lemma trim_logs_drop (children : list log_entry) :
  trim_logs children = drop (length children - 50) children.
Proof.
  funelim (trim_logs children).
  - rewrite H. destruct children as [|c rest]; [simpl in l; lia|].
    change (tail (c :: rest)) with rest.
    change (length (c :: rest)) with (S (length rest)) in *.
    rewrite Nat.sub_succ_l by lia. reflexivity.
  - replace (length children - 50)%nat with 0%nat by lia. reflexivity.
Qed.

Lemma trim_logs_length (children : list log_entry) :
  (length (trim_logs children) ≤ 50)%nat.
Proof. rewrite trim_logs_drop, length_drop. lia. Qed.

(** C10. Whatever the log container holds when [addLog] is called, after
    the call it holds the new entry appended and then cut down from the
    front to the 50 most recent entries: at most 50 entries, the oldest
    gone first. *)
Theorem addLog_keeps_last_50 (message type : string) (w : world)
    (children : list log_entry) :
  let w' := fst (addLog message type (with_host (set_lspLogs (Some children)) w)) in
  ∃ logEntry kept,
    lspLogs (host w') = Some kept ∧
    (length kept ≤ 50)%nat ∧
    kept = drop (length (children ++ [logEntry]) - 50) (children ++ [logEntry]) ∧
    className logEntry = "log-entry " +:+ type.
Proof.
  simpl. unfold addLog. simpl.
  eexists _, _. split; [reflexivity|].
  split; [apply trim_logs_length|].
  split; [apply trim_logs_drop|reflexivity].
Qed.

(** ** Running method bodies symbolically *)

(** [addLog] returns, and changes the log container only. *)
Lemma addLog_eq (message type : string) (w : world) :
  addLog message type w = (with_host (set_lspLogs (logs_after message type w)) w, inr tt).
Proof.
  unfold addLog, logs_after.
  destruct w as [c [so ns t ti np aw mt logs] g pf tr]; simpl.
  destruct logs; reflexivity.
Qed.

(** Projections of updated records. *)
Ltac wsimpl :=
  cbn [fst snd this host page env trace with_this with_host with_page with_trace
       messageId pendingRequests isConnected serverCapabilities ws reconnectAttempts
       maxReconnectAttempts set_messageId set_pendingRequests set_isConnected
       set_serverCapabilities set_ws set_reconnectAttempts
       sockets nextSocket now timers nextPromise awaiting microtasks lspLogs
       set_sockets set_nextSocket set_now set_timers set_nextPromise set_awaiting
       set_microtasks set_lspLogs
       editor editorLoaded errorDetectionEnabled lspReady set_lspReady
       negb andb orb] in *.

(** Runs the monad's own operations where they are applied to a world. *)
Ltac mred :=
  cbv beta iota zeta delta [bind get modify emit ret lift throw try_catch];
  wsimpl.

Ltac msimp := repeat (mred; rewrite ?addLog_eq); mred.

(** Reading a field throws on [undefined] and [null] only. *)
Lemma prop_defined (v : jsval) (k k' : string) (x : jsval) :
  prop v k = inr x → ∃ y, prop v k' = inr y.
Proof. destruct v; simpl; intros [=]; eexists; reflexivity. Qed.

Lemma prop_truthy (v : jsval) (k : string) :
  truthy v = true → ∃ y, prop v k = inr y.
Proof. destruct v; simpl; intros [=]; eexists; reflexivity. Qed.

(** ** Diagnostics become markers *)

Lemma map_severity_spec (sev : jsval) : map_severity sev = spec_severity sev.
Proof.
  unfold map_severity, spec_severity, strict_eq_num.
  destruct sev as [| | |n| | | |]; try reflexivity.
  destruct n as [|p|p]; try reflexivity.
  destruct p as [[[|q|]|[|q|]|]|[[|q|]|[|q|]|]|]; try reflexivity.
Qed.

Lemma diag_to_marker_spec (diag : jsval) (d : diagnostic) :
  represents diag d → diag_to_marker diag = inr (spec_marker d).
Proof.
  intros (range1 & start1 & end1 & Hr & Hs & He & Hsl & Hsc & Hel & Hec & Hm & Hv).
  unfold diag_to_marker.
  rewrite Hr; simpl. rewrite Hs, He; simpl. rewrite Hsl, Hel, Hsc, Hec; simpl.
  rewrite Hm, Hv; simpl. rewrite map_severity_spec. reflexivity.
Qed.

Lemma emapM_diag_to_marker (diags : list jsval) (ds : list diagnostic) :
  Forall2 represents diags ds →
  emapM diag_to_marker diags = inr (map spec_marker ds).
Proof.
  induction 1 as [|diag d diags ds Hd _ IH]; simpl; [reflexivity|].
  rewrite (diag_to_marker_spec _ _ Hd); simpl. rewrite IH. reflexivity.
Qed.

(** C7. With an editor present and error detection on, [handleDiagnostics]
    hands the editor one marker per incoming diagnostic, in order: each of
    start line, end line, start character and end character plus one, and
    severity 1, 2, 3, 4 as Error, Warning, Info, Hint, with Hint for any
    other value.  It does not throw. *)
Theorem handleDiagnostics_markers (w : world) (params : jsval)
    (diags : list jsval) (ds : list diagnostic) :
  is_Some (editor (page w)) →
  errorDetectionEnabled (page w) = true →
  prop params "diagnostics" = inr (JArr diags) →
  Forall2 represents diags ds →
  snd (handleDiagnostics params w) = inr tt ∧
  trace (fst (handleDiagnostics params w))
    = trace w ++ [TrSetModelMarkers (map spec_marker ds)].
Proof.
  intros Hed Hdet Hp Hds.
  unfold handleDiagnostics, bind, get, lift, emit, modify.
  rewrite (bool_decide_eq_true_2 _ Hed), Hdet. simpl.
  rewrite Hp. simpl. rewrite (emapM_diag_to_marker _ _ Hds).
  destruct (0 <? Z.of_nat (length diags)); msimp; split; reflexivity.
Qed.

Lemma handleDiagnostics_markers_witness :
  snd (handleDiagnostics (JObj [("diagnostics", JArr [diag_example])]) world_example) = inr tt ∧
  trace (fst (handleDiagnostics (JObj [("diagnostics", JArr [diag_example])]) world_example))
    = [TrSetModelMarkers
         [{| startLineNumber := JNum 3; endLineNumber := JNum 3;
             startColumn := JNum 5; endColumn := JNum 10;
             marker_message := JStr "unknown global";
             severity := monaco.Error |}]].
Proof.
  apply (handleDiagnostics_markers world_example
           (JObj [("diagnostics", JArr [diag_example])])
           [diag_example]
           [{| start_line := 2; start_character := 4; end_line := 2; end_character := 9;
               diag_message := JStr "unknown global"; diag_severity := JNum 1 |}]).
  - simpl. eexists. reflexivity.
  - reflexivity.
  - reflexivity.
  - constructor; [|constructor].
    unfold represents, diag_example. simpl.
    eexists _, _, _. repeat split; reflexivity.
Defined.

(** ** Hover contents become one text block *)

Lemma hover_fragment_text (content : jsval) (s : string) :
  fragment_text content s → s ≠ "" →
  ebind (hover_fragment content) join_elem = inr s.
Proof.
  intros [s'|fields s' Hv] Hne; unfold hover_fragment; simpl; [reflexivity|].
  rewrite Hv. unfold js_or. simpl.
  destruct (String.eqb_spec s' ""); [contradiction|reflexivity].
Qed.

Lemma hover_fragments_join (frs : list jsval) (texts : list string) :
  Forall2 fragment_text frs texts →
  Forall (fun s => s ≠ "") texts →
  ∃ fragments,
    emapM hover_fragment frs = inr fragments ∧ emapM join_elem fragments = inr texts.
Proof.
  induction 1 as [|content s frs texts Hc _ IH]; intros Hne.
  - exists []. split; reflexivity.
  - inversion Hne as [|? ? Hs Hrest]; subst.
    destruct (IH Hrest) as (fragments & Hm & Hj).
    pose proof (hover_fragment_text _ _ Hc Hs) as Hf.
    simpl. destruct (hover_fragment content) as [e|v]; [discriminate|].
    simpl in Hf. rewrite Hm. simpl.
    exists (v :: fragments). split; [reflexivity|]. simpl. rewrite Hf, Hj. reflexivity.
Qed.

(** Where every fragment is a string or carries a non-empty [value],
    [getHover] returns the fragments' texts in order, a blank line between
    them. *)
Lemma getHover_resume_joins (w : world) (fields : list (string * jsval))
    (frs : list jsval) (texts : list string) :
  assoc "contents" fields = JArr frs →
  Forall2 fragment_text frs texts →
  Forall (fun s => s ≠ "") texts →
  getHover_resume (inr (JObj fields)) w
    = (w, inr (RHover (assoc "range" fields) (String.concat nl2 texts))).
Proof.
  intros Hc Hfr Hne.
  destruct (hover_fragments_join _ _ Hfr Hne) as (fragments & Hm & Hj).
  unfold getHover_resume, try_catch, bind, lift, ret. simpl.
  rewrite Hc. simpl. rewrite Hm. simpl. unfold js_join. rewrite Hj. reflexivity.
Qed.

Example getHover_resume_example (w : world) :
  getHover_resume
    (inr (JObj [("contents", JArr [JStr "a"; JObj [("value", JStr "b")]])])) w
  = (w, inr (RHover JUndefined ("a" +:+ nl2 +:+ "b"))).
Proof. reflexivity. Qed.

Example getHover_resume_no_contents (w : world) :
  getHover_resume (inr (JObj [("range", JNull)])) w = (w, inr RNull) ∧
  getHover_resume (inr JNull) w = (w, inr RNull).
Proof. split; reflexivity. Qed.

(** C8. A hover whose one fragment is marked-up content with an empty
    [value] does not normalise to the empty text: [content.value || content]
    falls through to the fragment object itself, and [join] prints it as
    "[object Object]". *)
Theorem getHover_resume_empty_value (w : world) :
  getHover_resume
    (inr (JObj [("contents", JObj [("kind", JStr "markdown"); ("value", JStr "")])])) w
  = (w, inr (RHover JUndefined "[object Object]")).
Proof. reflexivity. Qed.

(** ** Reconnection backoff *)

Lemma reconnects_app (tr1 tr2 : list effect) :
  reconnects (tr1 ++ tr2) = reconnects tr1 ++ reconnects tr2.
Proof. apply omap_app. Qed.

(** One close event: below the ceiling the counter is incremented first and
    a reconnection is scheduled after [reconnect_delay] of the new count;
    at the ceiling nothing is scheduled. *)
Lemma onclose_spec (url : string) (code : Z) (reason : string) (w : world) :
  let w' := fst (onclose url code reason w) in
  let n := reconnectAttempts (this w) in
  maxReconnectAttempts (this w') = maxReconnectAttempts (this w) ∧
  messageId (this w') = messageId (this w) ∧
  pendingRequests (this w') = pendingRequests (this w) ∧
  if n <? maxReconnectAttempts (this w) then
    reconnectAttempts (this w') = n + 1 ∧
    timers (host w') =
      timers (host w) ++ [{| due := now (host w) + reconnect_delay (n + 1);
                             timer_cb := CbReconnect url |}] ∧
    trace w' = trace w ++ [TrStatus false "Disconnected";
                           TrSetTimeout (CbReconnect url) (reconnect_delay (n + 1))]
  else
    reconnectAttempts (this w') = n ∧
    timers (host w') = timers (host w) ∧
    trace w' = trace w ++ [TrStatus false "Disconnected"].
Proof.
  unfold onclose, updateConnectionStatus, setTimeout. msimp.
  destruct (reconnectAttempts (this w) <? maxReconnectAttempts (this w)) eqn:Hlt.
  - msimp. rewrite <- app_assoc. repeat split.
  - msimp. repeat split.
Qed.

Lemma closes_cons (url : string) (code : Z) (reason : string)
    (rest : list (Z * string)) (w : world) :
  fst (closes url ((code, reason) :: rest) w)
    = fst (closes url rest (fst (onclose url code reason w))).
Proof.
  change (closes url ((code, reason) :: rest))
    with (bind (onclose url code reason) (fun _ => closes url rest)).
  unfold bind.
  assert (Hr : snd (onclose url code reason w) = inr tt).
  { unfold onclose, updateConnectionStatus, setTimeout. msimp.
    destruct (_ <? _); msimp; reflexivity. }
  destruct (onclose url code reason w) as [w1 r1]. simpl in *. subst r1. reflexivity.
Qed.

Lemma closes_nil (url : string) (w : world) : fst (closes url [] w) = w.
Proof. reflexivity. Qed.

Lemma reconnect_delay_values :
  reconnect_delay (0 + 1) = 2000 ∧ reconnect_delay (1 + 1) = 4000 ∧
  reconnect_delay (2 + 1) = 8000 ∧ reconnect_delay (3 + 1) = 16000 ∧
  reconnect_delay (4 + 1) = 30000.
Proof. vm_compute. repeat split; reflexivity. Qed.

Lemma onclose_below (url : string) (code : Z) (reason : string) (w : world) (n : Z) :
  maxReconnectAttempts (this w) = 5 →
  reconnectAttempts (this w) = n → n < 5 →
  let w' := fst (onclose url code reason w) in
  maxReconnectAttempts (this w') = 5 ∧
  reconnectAttempts (this w') = n + 1 ∧
  reconnects (trace w') = reconnects (trace w) ++ [reconnect_delay (n + 1)].
Proof.
  intros Hmax Hn Hlt. pose proof (onclose_spec url code reason w) as Hs.
  cbv zeta in *. rewrite Hmax, Hn in Hs.
  destruct (n <? 5) eqn:Hc; [|lia].
  destruct Hs as (Hm & _ & _ & Ha & _ & Ht).
  rewrite Hm, Ha, Ht, reconnects_app. repeat split.
Qed.

Lemma onclose_ceiling (url : string) (code : Z) (reason : string) (w : world) :
  maxReconnectAttempts (this w) ≤ reconnectAttempts (this w) →
  let w' := fst (onclose url code reason w) in
  reconnects (trace w') = reconnects (trace w) ∧
  timers (host w') = timers (host w) ∧
  reconnectAttempts (this w') = reconnectAttempts (this w).
Proof.
  intros Hge. pose proof (onclose_spec url code reason w) as Hs.
  cbv zeta in *.
  destruct (reconnectAttempts (this w) <? maxReconnectAttempts (this w)) eqn:Hc; [lia|].
  destruct Hs as (_ & _ & _ & Ha & Hti & Ht).
  rewrite Ha, Hti, Ht, reconnects_app. simpl. rewrite app_nil_r. repeat split.
Qed.

(** C2. From a counter at 0 and the ceiling of 5, five close events in a
    row schedule reconnections after exactly 2000, 4000, 8000, 16000 and
    30000 ms, each delay being [min(1000 * 2^attempts, 30000)] of the
    counter already incremented; a further close event schedules nothing
    (no timer is added). *)
Theorem reconnect_delays (w : world) (url : string) (e1 e2 e3 e4 e5 : Z * string) :
  reconnectAttempts (this w) = 0 →
  maxReconnectAttempts (this w) = 5 →
  let w5 := fst (closes url [e1; e2; e3; e4; e5] w) in
  reconnects (trace w5)
    = reconnects (trace w) ++ [2000; 4000; 8000; 16000; 30000] ∧
  reconnects (trace w5)
    = reconnects (trace w) ++ map (fun n => Z.min (1000 * 2 ^ n) 30000) [1; 2; 3; 4; 5] ∧
  ∀ code reason,
    let w6 := fst (onclose url code reason w5) in
    reconnects (trace w6) = reconnects (trace w5) ∧
    timers (host w6) = timers (host w5).
Proof.
  intros H0 Hmax w5. subst w5.
  destruct e1 as [c1 r1], e2 as [c2 r2], e3 as [c3 r3], e4 as [c4 r4], e5 as [c5 r5].
  rewrite !closes_cons, closes_nil.
  destruct (onclose_below url c1 r1 w 0 Hmax H0 ltac:(lia)) as (Hm1 & Ha1 & Ht1).
  generalize dependent (fst (onclose url c1 r1 w)). intros w1 Hm1 Ha1 Ht1.
  destruct (onclose_below url c2 r2 w1 1 Hm1 Ha1 ltac:(lia)) as (Hm2 & Ha2 & Ht2).
  generalize dependent (fst (onclose url c2 r2 w1)). intros w2 Hm2 Ha2 Ht2.
  destruct (onclose_below url c3 r3 w2 2 Hm2 Ha2 ltac:(lia)) as (Hm3 & Ha3 & Ht3).
  generalize dependent (fst (onclose url c3 r3 w2)). intros w3 Hm3 Ha3 Ht3.
  destruct (onclose_below url c4 r4 w3 3 Hm3 Ha3 ltac:(lia)) as (Hm4 & Ha4 & Ht4).
  generalize dependent (fst (onclose url c4 r4 w3)). intros w4 Hm4 Ha4 Ht4.
  destruct (onclose_below url c5 r5 w4 4 Hm4 Ha4 ltac:(lia)) as (Hm5 & Ha5 & Ht5).
  generalize dependent (fst (onclose url c5 r5 w4)). intros w5 Hm5 Ha5 Ht5.
  assert (Hall : reconnects (trace w5)
                 = reconnects (trace w) ++ [2000; 4000; 8000; 16000; 30000]).
  { rewrite Ht5, Ht4, Ht3, Ht2, Ht1. rewrite <- !app_assoc.
    destruct reconnect_delay_values as (-> & -> & -> & -> & ->). reflexivity. }
  split; [exact Hall|].
  split; [rewrite Hall; f_equal; cbn [map]; fold (reconnect_delay 1);
          fold (reconnect_delay 2); fold (reconnect_delay 3); fold (reconnect_delay 4);
          fold (reconnect_delay 5);
          destruct reconnect_delay_values as (-> & -> & -> & -> & ->); reflexivity|].
  intros code reason.
  destruct (onclose_ceiling url code reason w5 ltac:(lia)) as (Ht6 & Hti6 & _).
  split; assumption.
Qed.

Lemma reconnect_delays_witness :
  reconnectAttempts (this world_example) = 0 ∧
  maxReconnectAttempts (this world_example) = 5 ∧
  let w5 := fst (closes default_url
                   [(1006, ""); (1006, ""); (1006, ""); (1006, ""); (1006, "")]
                   world_example) in
  reconnects (trace w5)
    = reconnects (trace world_example) ++ [2000; 4000; 8000; 16000; 30000] ∧
  reconnects (trace w5)
    = reconnects (trace world_example)
        ++ map (fun n => Z.min (1000 * 2 ^ n) 30000) [1; 2; 3; 4; 5] ∧
  ∀ code reason,
    let w6 := fst (onclose default_url code reason w5) in
    reconnects (trace w6) = reconnects (trace w5) ∧
    timers (host w6) = timers (host w5).
Proof.
  split; [reflexivity|]. split; [reflexivity|].
  exact (reconnect_delays world_example default_url
           (1006, "") (1006, "") (1006, "") (1006, "") (1006, "")
           eq_refl eq_refl).
Defined.

(** The same backoff seen from the event loop: a first connection and five
    reconnections that all fail, each reconnection fired when its delay has
    passed. *)
Example reconnect_run :
  let closed sid := EvClose sid 1006 "" in
  let retry delay := [EvTick delay; EvTimer 0] in
  let w := run ([EvConnect None; closed 0%nat] ++ retry 2000 ++ [closed 1%nat]
                ++ retry 4000 ++ [closed 2%nat] ++ retry 8000 ++ [closed 3%nat]
                ++ retry 16000 ++ [closed 4%nat] ++ retry 30000 ++ [closed 5%nat])
               world_example in
  reconnects (trace w) = [2000; 4000; 8000; 16000; 30000] ∧
  timers (host w) = [] ∧
  nextSocket (host w) = 6%nat ∧
  reconnectAttempts (this w) = 5.
Proof. vm_compute. repeat split; reflexivity. Qed.

(** ** Sending *)

Lemma sendMessage_eq (message : message) (w : world) :
  sendMessage message w =
    if ws_open w then
      (sent message w,
       inr (match msg_id message with
            | Some _ => Pending (nextPromise (host w))
            | None => Resolved
            end))
    else (refused message w, inr (Rejected (Error "Connection not ready"))).
Proof.
  unfold sendMessage, sent, refused. msimp.
  replace (ws_open (with_trace (λ t : list effect, t ++ [TrSendMessage message]) w))
    with (ws_open w) by reflexivity.
  destruct (ws_open w); msimp; [|reflexivity].
  destruct (msg_id message) as [id|]; [|reflexivity].
  unfold new_promise, setTimeout. msimp. reflexivity.
Qed.

(** C4. When the socket is missing or not in the OPEN state, [sendMessage]
    returns the promise rejected with "Connection not ready", leaves the
    pending-request table, the timers and every other field of the object
    as they were, and puts nothing on the wire. *)
Theorem sendMessage_not_ready (message : message) (w : world) :
  ws_open w = false →
  let w' := fst (sendMessage message w) in
  snd (sendMessage message w) = inr (Rejected (Error "Connection not ready")) ∧
  pendingRequests (this w') = pendingRequests (this w) ∧
  this w' = this w ∧
  timers (host w') = timers (host w) ∧
  trace w' = trace w ++ [TrSendMessage message].
Proof.
  intros Hclosed. rewrite sendMessage_eq, Hclosed. unfold refused. wsimpl.
  repeat split.
Qed.

Lemma sendMessage_not_ready_witness :
  ws_open world_example = false ∧
  let message := {| msg_id := Some 1; msg_method := "initialize";
                    msg_params := initialize_params |} in
  let w' := fst (sendMessage message world_example) in
  snd (sendMessage message world_example) = inr (Rejected (Error "Connection not ready")) ∧
  pendingRequests (this w') = pendingRequests (this world_example) ∧
  this w' = this world_example ∧
  timers (host w') = timers (host world_example) ∧
  trace w' = trace world_example ++ [TrSendMessage message].
Proof.
  split; [reflexivity|].
  exact (sendMessage_not_ready
           {| msg_id := Some 1; msg_method := "initialize";
              msg_params := initialize_params |}
           world_example eq_refl).
Defined.

(** ** Responses *)

Lemma settle_eq (p : promise) (outcome : jserror + jsval) (w : world) :
  settle p outcome w = (settled p outcome w, inr tt).
Proof.
  unfold settle, settled. msimp.
  destruct (awaiting (host w) !! p); reflexivity.
Qed.

(** A frame whose [id] is falsy or not a key goes to the notification
    half. *)
Lemma handleMessage_falls_through (fields : list (string * jsval)) (w : world) :
  known_id fields w = false →
  handleMessage (JObj fields) w = handleNotification (JObj fields) w.
Proof.
  unfold known_id. intros Hid. unfold handleMessage. mred. cbn [prop]. mred.
  destruct (truthy (assoc "id" fields)); simpl in Hid.
  - apply bool_decide_eq_false in Hid.
    destruct (pending_get (assoc "id" fields) w) eqn:Hg; [|reflexivity].
    exfalso. apply Hid. eexists. reflexivity.
  - destruct (assoc "id" fields); reflexivity.
Qed.

(** The notification half does nothing with a frame that has no [method]. *)
Lemma handleNotification_response (fields : list (string * jsval)) (w : world) :
  is_response fields → handleNotification (JObj fields) w = (w, inr tt).
Proof.
  unfold is_response. intros Hm. unfold handleNotification. mred. cbn [prop]. mred.
  rewrite Hm. reflexivity.
Qed.

(** The timeout closure: an entry still there is removed and its promise
    rejected with "Request timeout"; without an entry nothing happens. *)
Lemma request_timeout_pending (id : Z) (p : promise) (request : pending_request)
    (w : world) :
  pendingRequests (this w) !! id = Some request →
  request_timeout id p w
    = (settled p (inl (Error "Request timeout"))
         (with_this (set_pendingRequests (delete id (pendingRequests (this w)))) w),
       inr tt).
Proof.
  intros Hp. unfold request_timeout. mred. rewrite Hp.
  unfold pending_delete. mred. apply settle_eq.
Qed.

Lemma request_timeout_absent (id : Z) (p : promise) (w : world) :
  pendingRequests (this w) !! id = None → request_timeout id p w = (w, inr tt).
Proof. intros Hp. unfold request_timeout. mred. rewrite Hp. reflexivity. Qed.

(** A frame whose [id] is a key of the table: the entry is removed and its
    promise settled, rejected if the frame has an [error], resolved with
    its [result] otherwise; if the error's message cannot be converted to a
    string, the entry is removed and the conversion's exception leaves
    [handleMessage] before the promise is settled. *)
Lemma handleMessage_response (fields : list (string * jsval)) (n : Z)
    (request : pending_request) (w : world) :
  assoc "id" fields = JNum n → n ≠ 0 →
  pendingRequests (this w) !! n = Some request →
  handleMessage (JObj fields) w
    = match response_outcome fields with
      | inr outcome =>
          (settled (entry_promise request) outcome
             (with_this (set_pendingRequests (delete n (pendingRequests (this w)))) w),
           inr tt)
      | inl e =>
          (with_this (set_pendingRequests (delete n (pendingRequests (this w)))) w, inl e)
      end.
Proof.
  intros Hid Hn Hp. unfold handleMessage, response_outcome. mred. cbn [prop]. mred.
  rewrite Hid. cbn [truthy pending_get].
  destruct (Z.eqb_spec n 0) as [|_]; [contradiction|]. cbn [negb]. rewrite Hp.
  unfold pending_delete. mred.
  destruct (truthy (assoc "error" fields)) eqn:Herr.
  - unfold opt_prop.
    destruct (prop_truthy (assoc "error" fields) "message" Herr) as [text ->]. mred.
    destruct (to_string (js_or text (JStr "LSP error"))) as [e|msg]; cbn [ebind]; mred;
      [reflexivity|apply settle_eq].
  - apply settle_eq.
Qed.

Lemma handleMessage_falsy_id (fields : list (string * jsval)) (w : world) :
  truthy (assoc "id" fields) = false →
  handleMessage (JObj fields) w = handleNotification (JObj fields) w.
Proof.
  intros Hid. apply handleMessage_falls_through. unfold known_id. rewrite Hid. reflexivity.
Qed.

(** C6 (as amended). A response frame whose [id] is not a key of the
    pending-request table is dropped without a trace: [handleMessage]
    returns normally and the world is exactly as before (no completion
    invoked, no entry removed, nothing logged). *)
Theorem handleMessage_unknown_id (fields : list (string * jsval)) (w : world) :
  is_response fields →
  known_id fields w = false →
  handleMessage (JObj fields) w = (w, inr tt).
Proof.
  intros Hm Hid. rewrite handleMessage_falls_through by exact Hid.
  apply handleNotification_response, Hm.
Qed.

Lemma handleMessage_unknown_id_witness :
  let fields := [("jsonrpc", JStr "2.0"); ("id", JNum 7); ("result", JNull)] in
  is_response fields ∧
  known_id fields world_example = false ∧
  handleMessage (JObj fields) world_example = (world_example, inr tt).
Proof.
  split; [reflexivity|]. split; [reflexivity|].
  exact (handleMessage_unknown_id
           [("jsonrpc", JStr "2.0"); ("id", JNum 7); ("result", JNull)]
           world_example eq_refl eq_refl).
Defined.

(** C6, the part that fails: the dropped response is not logged.  With an
    empty log container on the page and an empty table, a response to the
    unknown id 7 leaves the container empty. *)
Lemma handleMessage_unknown_id_not_logged :
  let frame := JObj [("jsonrpc", JStr "2.0"); ("id", JNum 7); ("result", JNull)] in
  pending_get (JNum 7) world_example = None ∧
  lspLogs (host world_example) = Some [] ∧
  snd (handleMessage frame world_example) = inr tt ∧
  lspLogs (host (fst (handleMessage frame world_example))) = Some [].
Proof. vm_compute. repeat split; reflexivity. Qed.

(** * Invariants of the event loop *)

(** ** What a trace says about requests *)

Lemma sent_ids_snoc (tr : list effect) (e : effect) :
  sent_ids (tr ++ [e]) = sent_ids tr ++ option_list (request_id e).
Proof.
  unfold sent_ids. rewrite omap_app. simpl.
  destruct (request_id e); reflexivity.
Qed.

Lemma settle_count_snoc (p : promise) (tr : list effect) (e : effect) :
  settle_count p (tr ++ [e])
    = (settle_count p tr + if settles p e then 1 else 0)%nat.
Proof.
  unfold settle_count. rewrite filter_app, length_app. f_equal.
  rewrite filter_cons, filter_nil.
  destruct (settles p e); reflexivity.
Qed.

Lemma registered_snoc (id : Z) (p : promise) (tr : list effect) (e : effect) :
  registered id p (tr ++ [e])
  ↔ registered id p tr ∨ e = TrSetTimeout (CbRequestTimeout id p) 30000.
Proof.
  unfold registered. rewrite elem_of_app, list_elem_of_singleton.
  split; intros [H|H]; auto.
Qed.

Lemma passive_sent_ids (tr : list effect) (e : effect) :
  passive e = true → sent_ids (tr ++ [e]) = sent_ids tr.
Proof.
  intros Hp. rewrite sent_ids_snoc.
  destruct e; simpl in *; try apply app_nil_r.
  apply bool_decide_eq_true in Hp. rewrite Hp. apply app_nil_r.
Qed.

Lemma passive_settle_count (p : promise) (tr : list effect) (e : effect) :
  passive e = true → settle_count p (tr ++ [e]) = settle_count p tr.
Proof.
  intros Hp. rewrite settle_count_snoc.
  destruct e; simpl in *; try discriminate; lia.
Qed.

Lemma passive_registered (id : Z) (p : promise) (tr : list effect) (e : effect) :
  passive e = true → registered id p (tr ++ [e]) ↔ registered id p tr.
Proof.
  intros Hp. rewrite registered_snoc. split; [|auto].
  intros [H| ->]; [assumption|discriminate].
Qed.

(** ** Preservation, for any property of the world *)

Section preservation.
Variable I : world → Prop.


Lemma pres_ret {A} (a : A) : pres I (ret a).
Proof. intros w H. exact H. Qed.

Lemma pres_throw {A} (e : jserror) : pres I (@throw A e).
Proof. intros w H. exact H. Qed.

Lemma pres_lift {A} (r : jserror + A) : pres I (lift r).
Proof. intros w H. exact H. Qed.

Lemma pres_get : pres I get.
Proof. intros w H. exact H. Qed.

Lemma pres_bind {A B} (m : M A) (k : A → M B) :
  pres I m → (∀ a, pres I (k a)) → pres I (bind m k).
Proof.
  intros Hm Hk w H. unfold bind. specialize (Hm w H).
  destruct (m w) as [w1 [e|a]]; simpl in *; [exact Hm|].
  apply Hk, Hm.
Qed.

(** Only the value actually read from a pure step matters. *)
Lemma pres_bind_lift {A B} (r : jserror + A) (k : A → M B) :
  (∀ a, r = inr a → pres I (k a)) → pres I (bind (lift r) k).
Proof.
  intros Hk w H. unfold bind, lift. destruct r as [e|a]; simpl; [exact H|].
  apply (Hk a eq_refl), H.
Qed.

Lemma pres_try_catch {A} (m : M A) (h : jserror → M A) :
  pres I m → (∀ e, pres I (h e)) → pres I (try_catch m h).
Proof.
  intros Hm Hh w H. unfold try_catch. specialize (Hm w H).
  destruct (m w) as [w1 [e|a]]; simpl in *; [|exact Hm].
  apply Hh, Hm.
Qed.

Lemma pres_modify (f : world → world) : (∀ w, I w → I (f w)) → pres I (modify f).
Proof. intros Hf w H. apply Hf, H. Qed.



Hypothesis closed : frame_closed I.

Lemma pres_emit (e : effect) : passive e = true → pres I (emit e).
Proof. intros He. apply pres_modify. intros w. apply (fc_emit closed); assumption. Qed.

Lemma pres_addLog (message type : string) : pres I (addLog message type).
Proof. intros w H. rewrite addLog_eq. apply (fc_logs closed), H. Qed.

Lemma pres_addLog_value (message : jsval) (type : string) :
  pres I (addLog_value message type).
Proof.
  intros w H. unfold addLog_value. mred.
  destruct (lspLogs (host w)); [|exact H].
  destruct (to_string message); mred; [exact H|].
  rewrite addLog_eq. apply (fc_logs closed), H.
Qed.

Lemma pres_error_message (e : jserror) : pres I (error_message e).
Proof. intros w H. exact H. Qed.

Lemma pres_updateConnectionStatus (connected : bool) (message : string) :
  pres I (updateConnectionStatus connected message).
Proof.
  apply pres_bind; [|intros _; apply pres_emit; reflexivity].
  apply pres_modify. intros w. apply (fc_isConnected closed).
Qed.

Lemma pres_setTimeout_reconnect (url : string) (delay : Z) :
  pres I (setTimeout (CbReconnect url) delay).
Proof.
  apply pres_bind; [|intros _; apply pres_emit; reflexivity].
  apply pres_modify. intros w. apply (fc_reconnect_timer closed _ url). reflexivity.
Qed.

Lemma pres_await_on (p : promise) (k : kont) : pres I (await_on p k).
Proof. apply pres_modify. intros w. apply (fc_awaiting closed). Qed.

Lemma pres_await_settled (r : send_result) : pres I (await_settled r).
Proof. intros w H. destruct r; exact H. Qed.

(** One step of a structural preservation proof. *)
Ltac pres_step :=
  cbv beta;
  match goal with
  | |- pres I (bind (lift _) _) => apply pres_bind_lift; intros ? ?
  | |- pres I (bind get _) => apply pres_bind; [apply pres_get | intros ?]
  | |- pres I (bind _ _) => apply pres_bind; [| intros ?]
  | |- pres I (try_catch _ _) => apply pres_try_catch; [| intros ?]
  | |- pres I (ret _) => apply pres_ret
  | |- pres I (throw _) => apply pres_throw
  | |- pres I (lift _) => apply pres_lift
  | |- pres I get => apply pres_get
  | |- pres I (addLog _ _) => apply pres_addLog
  | |- pres I (addLog_value _ _) => apply pres_addLog_value
  | |- pres I (error_message _) => apply pres_error_message
  | |- pres I (updateConnectionStatus _ _) => apply pres_updateConnectionStatus
  | |- pres I (setTimeout (CbReconnect _) _) => apply pres_setTimeout_reconnect
  | |- pres I (await_on _ _) => apply pres_await_on
  | |- pres I (await_settled _) => apply pres_await_settled
  | |- pres I (emit _) => apply pres_emit; reflexivity
  | |- pres I (if ?c then _ else _) => destruct c
  | |- pres I (match ?x with _ => _ end) => destruct x
  end.

Lemma pres_sendMessage_notification (message : message) :
  msg_id message = None → pres I (sendMessage message).
Proof.
  intros Hid w H. rewrite sendMessage_eq.
  destruct (ws_open w); cbn [fst].
  - unfold sent. rewrite Hid.
    apply (fc_emit closed (TrWsSend _ message)
             (with_trace (fun t => t ++ [TrSendMessage message]) w)).
    + simpl. rewrite Hid. reflexivity.
    + apply (fc_emit closed); [|exact H]. simpl. rewrite Hid. reflexivity.
  - unfold refused. apply (fc_logs closed), (fc_emit closed); [|exact H].
    simpl. rewrite Hid. reflexivity.
Qed.

Lemma pres_openDocument (uri languageId : string) (version : Z) (text : string) :
  pres I (openDocument uri languageId version text).
Proof.
  unfold openDocument. repeat pres_step.
  apply pres_sendMessage_notification. reflexivity.
Qed.

Lemma pres_changeDocument (uri : string) (version : Z) (changes : jsval) :
  pres I (changeDocument uri version changes).
Proof.
  unfold changeDocument. repeat pres_step.
  apply pres_sendMessage_notification. reflexivity.
Qed.

Lemma pres_setupEditorIntegration : pres I setupEditorIntegration.
Proof.
  unfold setupEditorIntegration. repeat pres_step.
  apply pres_openDocument.
Qed.

Lemma pres_handleDiagnostics (params : jsval) : pres I (handleDiagnostics params).
Proof. unfold handleDiagnostics. repeat pres_step. Qed.

Lemma pres_handleNotification (message : jsval) : pres I (handleNotification message).
Proof.
  unfold handleNotification. repeat pres_step.
  apply pres_handleDiagnostics.
Qed.

Lemma pres_getCompletions_resume (position : Position) (outcome : jserror + jsval) :
  pres I (getCompletions_resume position outcome).
Proof. unfold getCompletions_resume. repeat pres_step. Qed.

Lemma pres_getHover_resume (outcome : jserror + jsval) :
  pres I (getHover_resume outcome).
Proof. unfold getHover_resume. repeat pres_step. Qed.

(** The handshake's continuation writes [serverCapabilities], and only
    with what the response carries. *)
Lemma pres_initialize_resume (outcome : jserror + jsval) :
  (∀ result capabilities w,
      outcome = inr result → prop result "capabilities" = inr capabilities →
      I w → I (with_this (set_serverCapabilities capabilities) w)) →
  pres I (initialize_resume outcome).
Proof.
  intros Hcaps. unfold initialize_resume.
  apply pres_try_catch; [|intros e; repeat pres_step].
  apply pres_bind_lift. intros result Hres.
  apply pres_bind_lift. intros capabilities Hc.
  apply pres_bind; [apply pres_modify; intros w; apply (Hcaps result); assumption|].
  intros _. repeat pres_step.
  - apply pres_sendMessage_notification. reflexivity.
  - apply pres_modify. intros w. apply (fc_page closed).
  - apply pres_setupEditorIntegration.
Qed.

Lemma pres_resume (k : kont) (outcome : jserror + jsval) :
  (∀ result capabilities w,
      outcome = inr result → prop result "capabilities" = inr capabilities →
      I w → I (with_this (set_serverCapabilities capabilities) w)) →
  pres I (resume k outcome).
Proof.
  intros Hcaps. destruct k; unfold resume; repeat pres_step.
  - apply pres_initialize_resume, Hcaps.
  - apply pres_getCompletions_resume.
  - apply pres_getHover_resume.
Qed.

Lemma pres_new_WebSocket (url : string) : pres I (new_WebSocket url).
Proof.
  unfold new_WebSocket. repeat pres_step.
  - apply pres_modify. intros w. apply (fc_sockets closed).
  - apply pres_modify. intros w. apply (fc_nextSocket closed).
Qed.

Lemma pres_connect (url : string) : pres I (connect url).
Proof.
  unfold connect. repeat pres_step.
  - apply pres_new_WebSocket.
  - apply pres_modify. intros w. apply (fc_ws closed).
Qed.

Lemma pres_onerror (message : jsval) : pres I (onerror message).
Proof. unfold onerror. repeat pres_step. Qed.

Lemma pres_onclose (url : string) (code : Z) (reason : string) :
  pres I (onclose url code reason).
Proof.
  unfold onclose. repeat pres_step.
  - apply pres_modify. intros w. apply (fc_isConnected closed).
  - apply pres_modify. intros w. apply (fc_reconnectAttempts closed).
Qed.

(** *** Where requests are born and settled

    What is left of the loop touches the identifier counter, the table,
    the request timers and the promises; each invariant says for itself
    that it survives these. *)

Hypothesis I_request : ∀ m w,
  msg_id m = Some (messageId (this w) + 1) → I w →
  I (sent m (with_this (set_messageId (messageId (this w) + 1)) w)) ∧
  I (refused m (with_this (set_messageId (messageId (this w) + 1)) w)).

Hypothesis I_respond : ∀ n request outcome w,
  pendingRequests (this w) !! n = Some request → I w →
  I (settled (entry_promise request) outcome
       (with_this (set_pendingRequests (delete n (pendingRequests (this w)))) w)).

Hypothesis I_abandon : ∀ n request w,
  pendingRequests (this w) !! n = Some request → I w →
  I (with_this (set_pendingRequests (delete n (pendingRequests (this w)))) w).

Hypothesis I_timer_fired : ∀ i t w,
  timers (host w) !! i = Some t → I w →
  match timer_cb t with
  | CbReconnect _ => I (with_host (set_timers (delete i (timers (host w)))) w)
  | CbRequestTimeout id p =>
      match pendingRequests (this w) !! id with
      | Some _ =>
          I (settled p (inl (Error "Request timeout"))
               (with_this (set_pendingRequests (delete id (pendingRequests (this w))))
                  (with_host (set_timers (delete i (timers (host w)))) w)))
      | None => I (with_host (set_timers (delete i (timers (host w)))) w)
      end
  end.

Hypothesis I_drain : ∀ w, I w → I (drain w).

Lemma pres_request {A} (method : string) (params : jsval) (k : send_result → M A) :
  (∀ p, pres I (k (Pending p))) →
  (∀ e, pres I (k (Rejected e))) →
  pres I (bind next_id (fun id =>
          bind (sendMessage {| msg_id := Some id; msg_method := method;
                               msg_params := params |}) k)).
Proof.
  intros Hp Hr w H. unfold next_id. mred. rewrite sendMessage_eq.
  set (m := {| msg_id := Some (messageId (this w) +1); msg_method := method;
               msg_params := params |}).
  destruct (I_request m w eq_refl H) as [Hsent Hrefused].
  change (ws_open (with_this (set_messageId (messageId (this w) + 1)) w))
    with (ws_open w).
  destruct (ws_open w).
  - apply Hp, Hsent.
  - apply Hr, Hrefused.
Qed.

Lemma pres_initialize : pres I initialize.
Proof.
  unfold initialize. apply pres_request.
  - intros p. repeat pres_step.
  - intros e. repeat pres_step.
    apply pres_initialize_resume. intros ? ? ? [=].
Qed.

Lemma pres_getCompletions (uri : string) (position : Position) :
  pres I (getCompletions uri position).
Proof.
  unfold getCompletions. apply pres_bind; [apply pres_get|]. intros w0.
  destruct (_ || _); [apply pres_ret|].
  apply pres_request.
  - intros p. repeat pres_step.
  - intros e. repeat pres_step. apply pres_getCompletions_resume.
Qed.

Lemma pres_getHover (uri : string) (position : Position) :
  pres I (getHover uri position).
Proof.
  unfold getHover. apply pres_bind; [apply pres_get|]. intros w0.
  destruct (_ || _); [apply pres_ret|].
  apply pres_request.
  - intros p. repeat pres_step.
  - intros e. repeat pres_step. apply pres_getHover_resume.
Qed.

Lemma pres_returning (k : kont) (call : M async_result) :
  pres I call → pres I (returning k call).
Proof. intros Hc. unfold returning. repeat pres_step. exact Hc. Qed.

Lemma pres_handleMessage (message : jsval) : pres I (handleMessage message).
Proof.
  intros w H. unfold handleMessage. mred.
  destruct (prop message "id") as [e|id] eqn:Hid; [exact H|]. mred.
  destruct (if truthy id then pending_get id w else None) as [request|] eqn:Hget;
    [|apply pres_handleNotification, H].
  destruct id as [| | |n| | | |]; try (apply pres_handleNotification, H).
  assert (Hn : pendingRequests (this w) !! n = Some request).
  { destruct (truthy (JNum n)); [exact Hget|discriminate]. }
  unfold pending_delete. mred.
  destruct (prop_defined message "id" "error" _ Hid) as [error ->]. mred.
  destruct (truthy error) eqn:Herr.
  - destruct (prop_truthy error "message" Herr) as [text ->]. mred.
    destruct (to_string (js_or text (JStr "LSP error"))) as [e|msg]; mred.
    + apply (I_abandon n request); assumption.
    + rewrite settle_eq. apply I_respond; assumption.
  - destruct (prop_defined message "id" "result" _ Hid) as [result ->]. mred.
    rewrite settle_eq. apply I_respond; assumption.
Qed.

Lemma pres_onopen : pres I onopen.
Proof.
  unfold onopen. repeat pres_step.
  - apply pres_modify. intros w. apply (fc_isConnected closed).
  - apply pres_modify. intros w. apply (fc_reconnectAttempts closed).
  - apply pres_initialize.
Qed.

Lemma pres_onmessage (data : option jsval) : pres I (onmessage data).
Proof. unfold onmessage. repeat pres_step. apply pres_handleMessage. Qed.

Lemma run_task_preserves {A} (task : M A) (w : world) :
  pres I task → I w → I (run_task task w).
Proof. intros Ht H. apply I_drain, Ht, H. Qed.

Lemma timer_preserves (i : nat) (t : timer) (w : world) :
  timers (host w) !! i = Some t → I w →
  I (run_task (fire (timer_cb t))
       (with_host (set_timers (delete i (timers (host w)))) w)).
Proof.
  intros Hi H. pose proof (I_timer_fired i t w Hi H) as Hf.
  unfold run_task. apply I_drain.
  destruct (timer_cb t) as [id p|url]; unfold fire.
  - unfold request_timeout. mred.
    destruct (pendingRequests (this w) !! id); [|exact Hf].
    unfold pending_delete. mred. rewrite settle_eq. exact Hf.
  - apply (pres_bind (connect url) (fun _ => ret tt));
      [apply pres_connect|intros _; apply pres_ret|exact Hf].
Qed.

(** Every event keeps [I]. *)
Theorem step_preserves (ev : event) (w : world) : I w → I (step ev w).
Proof.
  intros H. destruct ev; unfold step.
  - apply run_task_preserves; [apply pres_connect|exact H].
  - destruct (sockets (host w) !! sid) as [s|]; [|exact H].
    destruct (readyState s =? CONNECTING); [|exact H].
    apply run_task_preserves; [apply pres_onopen|].
    apply (fc_sockets closed), H.
  - destruct (sockets (host w) !! sid) as [s|]; [|exact H].
    destruct (readyState s =? OPEN); [|exact H].
    apply run_task_preserves; [apply pres_onmessage|exact H].
  - destruct (sockets (host w) !! sid) as [s|]; [|exact H].
    destruct (readyState s =? CLOSED); [exact H|].
    apply run_task_preserves; [apply pres_onclose|].
    apply (fc_sockets closed), H.
  - destruct (sockets (host w) !! sid) as [s|]; [|exact H].
    apply run_task_preserves; [apply pres_onerror|exact H].
  - destruct (0 <=? dt); [|exact H]. apply (fc_now closed), H.
  - destruct (timers (host w) !! i) as [t|] eqn:Hi; [|exact H].
    destruct (due t <=? now (host w)); [|exact H].
    apply timer_preserves; assumption.
  - apply run_task_preserves; [|exact H].
    apply pres_returning, pres_getCompletions.
  - apply run_task_preserves; [|exact H].
    apply pres_returning, pres_getHover.
  - apply run_task_preserves; [apply pres_openDocument|exact H].
  - apply run_task_preserves; [apply pres_changeDocument|exact H].
  - apply run_task_preserves; [|exact H].
    apply pres_returning, pres_initialize.
  - apply run_task_preserves; [apply pres_handleMessage|exact H].
  - apply (fc_page closed), H.
Qed.

Theorem run_preserves (evs : list event) (w : world) : I w → I (run evs w).
Proof.
  revert w. induction evs as [|ev evs IH]; intros w H; [exact H|].
  simpl. apply IH, step_preserves, H.
Qed.
End preservation.

Lemma run_app (evs evs' : list event) (w : world) :
  run (evs ++ evs') w = run evs' (run evs w).
Proof. apply fold_left_app. Qed.

(** The microtasks run after a task keep what each resumed method keeps. *)
Lemma drain_preserves (I : world → Prop) :
  frame_closed I →
  (∀ l w, I w → I (with_host (set_microtasks l) w)) →
  (∀ c w, I w → I (with_this (set_serverCapabilities c) w)) →
  ∀ w, I w → I (drain w).
Proof.
  intros closed Hmt Hcaps w H. unfold drain.
  generalize (Hmt [] w H). generalize (with_host (set_microtasks []) w).
  induction (microtasks (host w)) as [|[k outcome] jobs IH]; intros w1 H1; [exact H1|].
  simpl. apply IH. apply (pres_resume I closed); [|exact H1].
  intros ? ? ? _ _. apply Hcaps.
Qed.

(** ** The correlation invariant *)

Lemma Inv_boot (pf : platform) (g : globals) (logs : option (list log_entry)) (t0 : Z) :
  Inv (boot pf g logs t0).
Proof.
  unfold Inv, boot. simpl.
  split; try (intros; exfalso; eapply not_elem_of_nil; eassumption).
  - lia.
  - constructor.
  - constructor.
  - intros p. unfold settle_count. simpl. lia.
  - intros p. unfold settle_count. simpl. lia.
  - intros id e H. rewrite lookup_empty in H. discriminate.
Qed.

Lemma correlated_passive mid pend tm np tr (e : effect) :
  passive e = true →
  correlated mid pend tm np tr → correlated mid pend tm np (tr ++ [e]).
Proof.
  intros Hp [].
  assert (Hreg : ∀ id p, registered id p (tr ++ [e]) ↔ registered id p tr)
    by (intros; apply passive_registered, Hp).
  assert (Hcnt : ∀ p, settle_count p (tr ++ [e]) = settle_count p tr)
    by (intros; apply passive_settle_count, Hp).
  split; rewrite ?passive_sent_ids by exact Hp; try assumption.
  - intros sid m id Hin Hid. apply elem_of_app in Hin as [Hin|Hin].
    + destruct (cor_wire0 sid m id Hin Hid) as [p Hr]. exists p. apply Hreg, Hr.
    + apply list_elem_of_singleton in Hin. subst e. simpl in Hp.
      apply bool_decide_eq_true in Hp. congruence.
  - intros id p Hr. apply cor_bound0, Hreg, Hr.
  - intros id p p' H1 H2. apply (cor_fun0 id); apply Hreg; assumption.
  - intros id id' p H1 H2. apply (cor_inj0 id id' p); apply Hreg; assumption.
  - intros p. rewrite Hcnt. apply cor_count0.
  - intros p. rewrite Hcnt. intros Hc.
    destruct (cor_settled0 p Hc) as [id Hr]. exists id. apply Hreg, Hr.
  - intros id p Hr. apply Hreg in Hr.
    unfold settled_once, abandoned, awaited. rewrite Hcnt. apply cor_once0, Hr.
  - intros id e' He. apply Hreg, cor_pending0, He.
  - intros t id p Ht Hcb. apply Hreg, (cor_timers0 t); assumption.
Qed.

(** Timers may come and go as long as no pending request loses its own. *)
Lemma correlated_timers mid pend tm tm' np tr :
  (∀ t id p, t ∈ tm' → timer_cb t = CbRequestTimeout id p → t ∈ tm) →
  (∀ id p ts, pend !! id = Some {| entry_promise := p; timestamp := ts |} →
              timeout_of id p ts ∈ tm → timeout_of id p ts ∈ tm') →
  correlated mid pend tm np tr → correlated mid pend tm' np tr.
Proof.
  intros Hold Hkeep []. split; try assumption.
  - intros id p Hr. destruct (cor_once0 id p Hr) as [Hs|[Ha|(Hc & ts & Hp & Ht)]].
    + left. exact Hs.
    + right. left. exact Ha.
    + right. right. split; [exact Hc|]. exists ts. split; [exact Hp|].
      apply (Hkeep id p ts); assumption.
  - intros t id p Ht Hcb. apply (cor_timers0 t); [|exact Hcb].
    apply (Hold t id p); assumption.
Qed.

Lemma StronglySorted_snoc (l : list Z) (x : Z) :
  StronglySorted Z.lt l → Forall (fun y => y < x) l → StronglySorted Z.lt (l ++ [x]).
Proof.
  intros Hs Hlt. apply StronglySorted_app_2; [|exact Hs|repeat constructor].
  intros x1 x2 H1 H2. apply list_elem_of_singleton in H2. subst x2.
  rewrite Forall_forall in Hlt. apply Hlt, H1.
Qed.

(** A fresh identifier handed to [sendMessage]. *)
Lemma correlated_refused mid pend tm np tr (m : message) :
  msg_id m = Some (mid + 1) →
  correlated mid pend tm np tr →
  correlated (mid + 1) pend tm np (tr ++ [TrSendMessage m]).
Proof.
  intros Hid [].
  assert (Hreg : ∀ id p, registered id p (tr ++ [TrSendMessage m]) ↔ registered id p tr).
  { intros. rewrite registered_snoc. split; [intros [H|H]; [exact H|discriminate]|auto]. }
  assert (Hcnt : ∀ p, settle_count p (tr ++ [TrSendMessage m]) = settle_count p tr).
  { intros. rewrite settle_count_snoc. simpl. lia. }
  assert (Hids : sent_ids (tr ++ [TrSendMessage m]) = sent_ids tr ++ [mid + 1]).
  { rewrite sent_ids_snoc. simpl. rewrite Hid. reflexivity. }
  split; rewrite ?Hids.
  - lia.
  - apply StronglySorted_snoc; [exact cor_sorted0|].
    eapply Forall_impl; [exact cor_sent0|]. simpl. intros. lia.
  - apply Forall_app. split.
    + eapply Forall_impl; [exact cor_sent0|]. simpl. intros. lia.
    + repeat constructor; lia.
  - intros sid m' id Hin Hid'. apply elem_of_app in Hin as [Hin|Hin].
    + destruct (cor_wire0 sid m' id Hin Hid') as [p Hr]. exists p. apply Hreg, Hr.
    + apply list_elem_of_singleton in Hin. discriminate.
  - intros id p Hr. apply Hreg in Hr. destruct (cor_bound0 id p Hr). split; [lia|assumption].
  - intros id p p' H1 H2. apply (cor_fun0 id); apply Hreg; assumption.
  - intros id id' p H1 H2. apply (cor_inj0 id id' p); apply Hreg; assumption.
  - intros p. rewrite Hcnt. apply cor_count0.
  - intros p. rewrite Hcnt. intros Hc.
    destruct (cor_settled0 p Hc) as [id Hr]. exists id. apply Hreg, Hr.
  - intros id p Hr. apply Hreg in Hr.
    unfold settled_once, abandoned, awaited. rewrite Hcnt. apply cor_once0, Hr.
  - intros id e' He. apply Hreg, cor_pending0, He.
  - intros t id p Ht Hcb. apply Hreg, (cor_timers0 t); assumption.
Qed.

(** A pending request settled: out of the table, its promise called once. *)
Lemma correlated_settle mid pend tm tm' np tr (n : Z) (request : pending_request)
    (outcome : jserror + jsval) :
  pend !! n = Some request →
  (∀ t, t ∈ tm' → t ∈ tm) →
  (∀ id p ts, id ≠ n → timeout_of id p ts ∈ tm → timeout_of id p ts ∈ tm') →
  correlated mid pend tm np tr →
  correlated mid (delete n pend) tm' np
             (tr ++ [settle_effect (entry_promise request) outcome]).
Proof.
  intros Hn Hsub Hkeep [].
  set (p := entry_promise request).
  set (e := settle_effect p outcome).
  assert (Hreg : ∀ id q, registered id q (tr ++ [e]) ↔ registered id q tr).
  { intros. rewrite registered_snoc. split; [intros [H|H]; [exact H|]|auto].
    subst e. destruct outcome; discriminate. }
  assert (Hcnt : ∀ q, settle_count q (tr ++ [e])
                      = (settle_count q tr + if decide (q = p) then 1 else 0)%nat).
  { intros. rewrite settle_count_snoc. f_equal. subst e.
    destruct outcome; simpl; destruct (decide (q = p)) as [->|Hne];
      try (rewrite bool_decide_eq_true_2 by reflexivity; reflexivity);
      rewrite bool_decide_eq_false_2 by exact Hne; reflexivity. }
  assert (Hids : sent_ids (tr ++ [e]) = sent_ids tr).
  { rewrite sent_ids_snoc. subst e. destruct outcome; apply app_nil_r. }
  assert (Hp : registered n p tr) by (apply cor_pending0, Hn).
  assert (Hzero : settle_count p tr = 0%nat).
  { destruct (cor_once0 n p Hp) as [[_ Hnone]|[[Hc _]|[Hc _]]];
      [congruence|exact Hc|exact Hc]. }
  split; rewrite ?Hids; try assumption.
  - intros sid m id Hin Hid. apply elem_of_app in Hin as [Hin|Hin].
    + destruct (cor_wire0 sid m id Hin Hid) as [q Hr]. exists q. apply Hreg, Hr.
    + apply list_elem_of_singleton in Hin. subst e. destruct outcome; discriminate.
  - intros id q Hr. apply cor_bound0, Hreg, Hr.
  - intros id q q' H1 H2. apply (cor_fun0 id); apply Hreg; assumption.
  - intros id id' q H1 H2. apply (cor_inj0 id id' q); apply Hreg; assumption.
  - intros q. rewrite Hcnt. destruct (decide (q = p)) as [->|Hne].
    + rewrite Hzero. lia.
    + pose proof (cor_count0 q). lia.
  - intros q. rewrite Hcnt. destruct (decide (q = p)) as [->|Hne].
    + intros _. exists n. apply Hreg, Hp.
    + intros Hc. destruct (cor_settled0 q) as [id Hr]; [lia|].
      exists id. apply Hreg, Hr.
  - intros id q Hr. apply Hreg in Hr.
    unfold settled_once, abandoned, awaited. rewrite Hcnt.
    destruct (decide (q = p)) as [->|Hne].
    + left. assert (id = n) by (apply (cor_inj0 id n p); assumption). subst id.
      rewrite Hzero, lookup_delete_eq. split; reflexivity.
    + assert (Hid : id ≠ n).
      { intros ->. apply Hne. apply (cor_fun0 n); assumption. }
      rewrite Nat.add_0_r, lookup_delete_ne by congruence.
      destruct (cor_once0 id q Hr) as [Hs|[Ha|(Hc & ts & Hpe & Ht)]];
        [left; exact Hs|right; left; exact Ha|].
      right. right. split; [exact Hc|]. exists ts. split; [exact Hpe|].
      apply Hkeep; assumption.
  - intros id e' He. apply Hreg. apply cor_pending0.
    destruct (decide (id = n)) as [->|Hne].
    + rewrite lookup_delete_eq in He. discriminate.
    + rewrite lookup_delete_ne in He by congruence. exact He.
  - intros t id q Ht Hcb. apply Hreg, (cor_timers0 t); [|exact Hcb]. apply Hsub, Ht.
Qed.

(** A pending request whose response could not be read: out of the table,
    its promise never called. *)
Lemma correlated_abandon mid pend tm np tr (n : Z) (request : pending_request) :
  pend !! n = Some request →
  correlated mid pend tm np tr → correlated mid (delete n pend) tm np tr.
Proof.
  intros Hn []. split; try assumption.
  - intros id q Hr. unfold settled_once, abandoned, awaited.
    destruct (decide (id = n)) as [->|Hne].
    + rewrite lookup_delete_eq.
      destruct (cor_once0 n q Hr) as [[Hc _]|[[Hc _]|[Hc _]]]; auto.
    + rewrite lookup_delete_ne by congruence. apply cor_once0, Hr.
  - intros id e' He. apply cor_pending0.
    destruct (decide (id = n)) as [->|Hne].
    + rewrite lookup_delete_eq in He. discriminate.
    + rewrite lookup_delete_ne in He by congruence. exact He.
Qed.

(** A fresh identifier sent: the request enters the table under a new
    promise and its timeout is queued. *)
Lemma correlated_sent mid pend tm np tr (m : message) (sid : socket_id) (ts : Z) :
  msg_id m = Some (mid + 1) →
  correlated mid pend tm np tr →
  correlated (mid + 1)
    (<[mid + 1 := {| entry_promise := np; timestamp := ts |}]> pend)
    (tm ++ [timeout_of (mid + 1) np ts])
    (S np)
    (((tr ++ [TrSendMessage m]) ++ [TrWsSend sid m])
       ++ [TrSetTimeout (CbRequestTimeout (mid + 1) np) 30000]).
Proof.
  intros Hid H.
  pose proof (correlated_refused mid pend tm np tr m Hid H) as [].
  destruct H as [Hmid _ Hsent _ Hbound _ _ _ _ _ _ _].
  set (tr1 := tr ++ [TrSendMessage m]) in *.
  set (tr2 := tr1 ++ [TrWsSend sid m]).
  set (new := TrSetTimeout (CbRequestTimeout (mid + 1) np) 30000).
  assert (Hreg : ∀ id p, registered id p (tr2 ++ [new])
                         ↔ registered id p tr1 ∨ (id = mid + 1 ∧ p = np)).
  { intros. subst new. rewrite registered_snoc. subst tr2. rewrite registered_snoc.
    split.
    - intros [[Hr|Hr]|Hr]; [left; exact Hr|discriminate|].
      right. injection Hr as -> ->. split; reflexivity.
    - intros [Hr|[-> ->]]; [left; left; exact Hr|right; reflexivity]. }
  assert (Hcnt : ∀ p, settle_count p (tr2 ++ [new]) = settle_count p tr1).
  { intros. subst tr2 new. rewrite !settle_count_snoc. simpl. lia. }
  assert (Hids : sent_ids (tr2 ++ [new]) = sent_ids tr1).
  { subst tr2 new. rewrite !sent_ids_snoc. simpl. rewrite !app_nil_r. reflexivity. }
  assert (Hfresh_id : ∀ p, ¬ registered (mid + 1) p tr1).
  { intros p Hr. subst tr1. apply registered_snoc in Hr as [Hr|Hr]; [|discriminate].
    destruct (Hbound _ _ Hr). lia. }
  assert (Hfresh_p : ∀ id, ¬ registered id np tr1).
  { intros id Hr. destruct (cor_bound0 _ _ Hr). lia. }
  assert (Hnp : settle_count np tr1 = 0%nat).
  { destruct (settle_count np tr1) eqn:Hc; [reflexivity|].
    destruct (cor_settled0 np) as [id Hr]; [lia|]. destruct (Hfresh_p id Hr). }
  split; rewrite ?Hids; try assumption.
  - intros sid' m' id Hin Hid'. apply elem_of_app in Hin as [Hin|Hin];
      [|apply list_elem_of_singleton in Hin; discriminate].
    subst tr2. apply elem_of_app in Hin as [Hin|Hin].
    + destruct (cor_wire0 sid' m' id Hin Hid') as [p Hr]. exists p. apply Hreg. left. exact Hr.
    + apply list_elem_of_singleton in Hin. injection Hin as -> ->.
      exists np. apply Hreg. right. split; congruence.
  - intros id p Hr. apply Hreg in Hr as [Hr|[-> ->]].
    + destruct (cor_bound0 id p Hr). split; [assumption|lia].
    + split; lia.
  - intros id p p' H1 H2. apply Hreg in H1 as [H1|[-> ->]]; apply Hreg in H2 as [H2|[? ->]].
    + apply (cor_fun0 id); assumption.
    + subst id. destruct (Hfresh_id p H1).
    + destruct (Hfresh_id p' H2).
    + reflexivity.
  - intros id id' p H1 H2. apply Hreg in H1 as [H1|[-> ->]]; apply Hreg in H2 as [H2|[-> ?]].
    + apply (cor_inj0 id id' p); assumption.
    + subst p. destruct (Hfresh_p id H1).
    + destruct (Hfresh_p id' H2).
    + reflexivity.
  - intros p. rewrite Hcnt. apply cor_count0.
  - intros p. rewrite Hcnt. intros Hc.
    destruct (cor_settled0 p Hc) as [id Hr]. exists id. apply Hreg. left. exact Hr.
  - intros id p Hr. unfold settled_once, abandoned, awaited. rewrite Hcnt.
    apply Hreg in Hr as [Hr|[-> ->]].
    + assert (Hne : id ≠ mid + 1) by (intros ->; destruct (Hfresh_id p Hr)).
      rewrite lookup_insert_ne by congruence.
      destruct (cor_once0 id p Hr) as [Hs|[Ha|(Hc & ts' & Hpe & Ht)]];
        [left; exact Hs|right; left; exact Ha|].
      right. right. split; [exact Hc|]. exists ts'. split; [exact Hpe|].
      apply elem_of_app. left. exact Ht.
    + right. right. split; [exact Hnp|]. exists ts. rewrite lookup_insert_eq.
      split; [reflexivity|]. apply elem_of_app. right. apply list_elem_of_singleton.
      reflexivity.
  - intros id e' He. apply Hreg.
    destruct (decide (id = mid + 1)) as [->|Hne].
    + rewrite lookup_insert_eq in He. injection He as <-. right. split; reflexivity.
    + rewrite lookup_insert_ne in He by congruence. left. apply cor_pending0, He.
  - intros t id p Ht Hcb. apply Hreg. apply elem_of_app in Ht as [Ht|Ht].
    + left. apply (cor_timers0 t); assumption.
    + apply list_elem_of_singleton in Ht. subst t. simpl in Hcb.
      injection Hcb as <- <-. right. split; reflexivity.
Qed.

Lemma elem_of_delete_other {A} (l : list A) (i : nat) (t x : A) :
  l !! i = Some t → x ∈ l → x ≠ t → x ∈ delete i l.
Proof.
  intros Hi Hx Hne. apply list_elem_of_lookup in Hx as [j Hj].
  apply list_elem_of_lookup.
  destruct (decide (j < i)%nat) as [Hlt|Hge].
  - exists j. rewrite list_lookup_delete_lt by exact Hlt. exact Hj.
  - assert (j ≠ i) by (intros ->; congruence).
    exists (pred j). rewrite list_lookup_delete_ge by lia.
    replace (S (pred j)) with j by lia. exact Hj.
Qed.

Lemma Inv_frame_closed : frame_closed Inv.
Proof.
  split; try (intros; assumption).
  - intros e w Hp H. apply correlated_passive; assumption.
  - intros t url w Hcb H. unfold Inv in *. wsimpl.
    eapply correlated_timers; [| |exact H].
    + intros t' id p Ht Hcb'. apply elem_of_app in Ht as [Ht|Ht]; [exact Ht|].
      apply list_elem_of_singleton in Ht. subst t'. congruence.
    + intros id p ts _ Ht. apply elem_of_app. left. exact Ht.
Qed.

Lemma Inv_request (m : message) (w : world) :
  msg_id m = Some (messageId (this w) + 1) → Inv w →
  Inv (sent m (with_this (set_messageId (messageId (this w) + 1)) w)) ∧
  Inv (refused m (with_this (set_messageId (messageId (this w) + 1)) w)).
Proof.
  intros Hid H. unfold Inv, sent, refused. rewrite Hid. wsimpl. split.
  - apply (correlated_sent _ _ _ _ _ m _ (now (host w)) Hid H).
  - apply correlated_refused; assumption.
Qed.

Lemma Inv_respond (n : Z) (request : pending_request) (outcome : jserror + jsval)
    (w : world) :
  pendingRequests (this w) !! n = Some request → Inv w →
  Inv (settled (entry_promise request) outcome
         (with_this (set_pendingRequests (delete n (pendingRequests (this w)))) w)).
Proof.
  intros Hn H.
  assert (Hs : correlated (messageId (this w)) (delete n (pendingRequests (this w)))
                 (timers (host w)) (nextPromise (host w))
                 (trace w ++ [settle_effect (entry_promise request) outcome])).
  { eapply correlated_settle; eauto. }
  unfold Inv, settled. wsimpl.
  destruct (awaiting (host w) !! entry_promise request); wsimpl; exact Hs.
Qed.

Lemma Inv_abandon (n : Z) (request : pending_request) (w : world) :
  pendingRequests (this w) !! n = Some request → Inv w →
  Inv (with_this (set_pendingRequests (delete n (pendingRequests (this w)))) w).
Proof. intros Hn H. unfold Inv. wsimpl. eapply correlated_abandon; eauto. Qed.

Lemma Inv_timer_fired (i : nat) (t : timer) (w : world) :
  timers (host w) !! i = Some t → Inv w →
  match timer_cb t with
  | CbReconnect _ => Inv (with_host (set_timers (delete i (timers (host w)))) w)
  | CbRequestTimeout id p =>
      match pendingRequests (this w) !! id with
      | Some _ =>
          Inv (settled p (inl (Error "Request timeout"))
                 (with_this (set_pendingRequests (delete id (pendingRequests (this w))))
                    (with_host (set_timers (delete i (timers (host w)))) w)))
      | None => Inv (with_host (set_timers (delete i (timers (host w)))) w)
      end
  end.
Proof.
  intros Hi H.
  assert (Hdrop : (∀ id p ts,
              pendingRequests (this w) !! id
                = Some {| entry_promise := p; timestamp := ts |} →
              timer_cb t ≠ CbRequestTimeout id p) →
            Inv (with_host (set_timers (delete i (timers (host w)))) w)).
  { intros Hother. unfold Inv in *. wsimpl.
    eapply correlated_timers; [| |exact H].
    - intros t' id p Ht _. eapply list_elem_of_delete_inv, Ht.
    - intros id p ts Hp Ht. eapply elem_of_delete_other; [exact Hi|exact Ht|].
      intros <-. apply (Hother id p ts Hp). reflexivity. }
  destruct (timer_cb t) as [id p|url] eqn:Hcb.
  - destruct (pendingRequests (this w) !! id) as [request|] eqn:Hp.
    + assert (Hreq : entry_promise request = p).
      { destruct H. apply (cor_fun0 id).
        - apply cor_pending0, Hp.
        - apply (cor_timers0 t); [|exact Hcb]. eapply list_elem_of_lookup_2, Hi. }
      assert (Hs : correlated (messageId (this w)) (delete id (pendingRequests (this w)))
                     (delete i (timers (host w))) (nextPromise (host w))
                     (trace w ++ [settle_effect (entry_promise request)
                                    (inl (Error "Request timeout"))])).
      { eapply correlated_settle; [exact Hp| | |exact H].
        - intros t' Ht. eapply list_elem_of_delete_inv, Ht.
        - intros id' p' ts Hne Ht. eapply elem_of_delete_other; [exact Hi|exact Ht|].
          intros <-. simpl in Hcb. congruence. }
      rewrite Hreq in Hs. unfold Inv, settled. wsimpl.
      destruct (awaiting (host w) !! p); wsimpl; exact Hs.
    + apply Hdrop. intros id' p' ts Hp' [= -> ->]. congruence.
  - apply Hdrop. intros id p ts _. discriminate.
Qed.

Lemma Inv_drain (w : world) : Inv w → Inv (drain w).
Proof.
  apply drain_preserves.
  - exact Inv_frame_closed.
  - intros l w' H. exact H.
  - intros c w' H. exact H.
Qed.

(** The invariant holds in every world the loop can reach. *)
Lemma Inv_run (pf : platform) (g : globals) (logs : option (list log_entry)) (t0 : Z)
    (evs : list event) :
  Inv (run evs (boot pf g logs t0)).
Proof.
  apply run_preserves.
  - exact Inv_frame_closed.
  - exact Inv_request.
  - exact Inv_respond.
  - exact Inv_abandon.
  - exact Inv_timer_fired.
  - exact Inv_drain.
  - apply Inv_boot.
Qed.

(** ** Requests are settled at most once, and not always once *)

(** In every world the event loop can reach from a fresh client: every
    frame with an identifier that went out on the open socket belongs to a
    registered request; no promise has had [resolve] or [reject] called
    more than once; and every registered request is out of the table with
    its promise settled once, or out of the table with its promise never
    settled, or still in the table, unsettled, with its timeout queued for
    [timestamp + 30000]; so once the due timers have fired, no entry of the
    table is older than the timeout window. *)
Lemma requests_settled_at_most_once (pf : platform) (g : globals)
    (logs : option (list log_entry)) (t0 : Z) (evs : list event) :
  let w := run evs (boot pf g logs t0) in
  (∀ sid m id, TrWsSend sid m ∈ trace w → msg_id m = Some id →
               ∃ p, registered id p (trace w)) ∧
  (∀ p, (settle_count p (trace w) ≤ 1)%nat) ∧
  (∀ id p, registered id p (trace w) →
     settled_once id p (pendingRequests (this w)) (trace w)
     ∨ abandoned id p (pendingRequests (this w)) (trace w)
     ∨ awaited id p (pendingRequests (this w)) (timers (host w)) (trace w)) ∧
  (punctual w →
   ∀ id e, pendingRequests (this w) !! id = Some e →
           now (host w) < timestamp e + 30000) ∧
  (∀ id request p,
     pendingRequests (this w) !! id = Some request →
     request_timeout id p w
       = (settled p (inl (Error "Request timeout"))
            (with_this (set_pendingRequests (delete id (pendingRequests (this w)))) w),
          inr tt)) ∧
  (∀ id p, pendingRequests (this w) !! id = None →
           request_timeout id p w = (w, inr tt)).
Proof.
  cbv zeta. destruct (Inv_run pf g logs t0 evs).
  split; [exact cor_wire0|]. split; [exact cor_count0|]. split; [exact cor_once0|].
  split.
  { intros Hp id e He.
    destruct (cor_once0 id (entry_promise e) (cor_pending0 id e He))
      as [[_ Hnone]|[[_ Hnone]|(_ & ts & Hts & Ht)]]; [congruence|congruence|].
    rewrite He in Hts. injection Hts as ->. simpl.
    apply (Hp _ Ht). }
  split; [intros id request p Hp; apply (request_timeout_pending _ _ request), Hp|].
  intros id p Hp. apply request_timeout_absent, Hp.
Qed.

(** A hover request that times out and is answered late: rejected once by
    the timeout, and the late answer changes nothing. *)
Example requests_settled_example :
  let w := run run_example world_example in
  registered 2 1%nat (trace w) ∧
  settle_count 1%nat (trace w) = 1%nat ∧
  pendingRequests (this w) !! 2 = None.
Proof.
  intros w.
  assert (Hr : registered 2 1%nat (trace w)).
  { unfold registered. apply list_elem_of_In. vm_compute.
    repeat (first [left; reflexivity | right]). }
  split; [exact Hr|].
  destruct (requests_settled_at_most_once
              (env world_example) (page world_example) (Some []) 0 run_example)
    as (_ & _ & Honce & _).
  destruct (Honce 2 1%nat Hr) as [Hs|[[Hc _]|(_ & ts & Hp & _)]].
  - exact Hs.
  - exfalso. vm_compute in Hc. discriminate.
  - exfalso. vm_compute in Hp. discriminate.
Qed.

(** A request whose response could not be read stays unsettled for good:
    nothing that happens later calls its promise. *)
Lemma forsaken_closed (id : Z) (p : promise) : frame_closed (forsaken id p).
Proof.
  split; try (intros; assumption).
  - intros e w Hp (HI & Hr & Hc & Hn). split; [apply (fc_emit Inv_frame_closed); assumption|].
    wsimpl. split; [apply passive_registered; assumption|].
    split; [rewrite passive_settle_count by exact Hp; exact Hc|exact Hn].
  - intros t url w Hcb (HI & Hrest).
    split; [apply (fc_reconnect_timer Inv_frame_closed t url); assumption|exact Hrest].
Qed.

Lemma forsaken_request (id : Z) (p : promise) (m : message) (w : world) :
  msg_id m = Some (messageId (this w) + 1) → forsaken id p w →
  forsaken id p (sent m (with_this (set_messageId (messageId (this w) + 1)) w)) ∧
  forsaken id p (refused m (with_this (set_messageId (messageId (this w) + 1)) w)).
Proof.
  intros Hid (HI & Hr & Hc & Hn).
  destruct (Inv_request m w Hid HI) as [Hs Hf].
  assert (Hne : id ≠ messageId (this w) + 1).
  { destruct HI. destruct (cor_bound0 id p Hr). lia. }
  split; (split; [assumption|]); unfold sent, refused; rewrite ?Hid; wsimpl.
  - split; [|split].
    + unfold registered in *. rewrite !elem_of_app. auto.
    + rewrite !settle_count_snoc. simpl. lia.
    + rewrite lookup_insert_ne by congruence. exact Hn.
  - split; [|split; [|exact Hn]].
    + unfold registered in *. rewrite !elem_of_app. auto.
    + rewrite settle_count_snoc. simpl. lia.
Qed.

Lemma forsaken_settled (id : Z) (p q : promise) (outcome : jserror + jsval) (n : Z)
    (w w' : world) :
  trace w' = trace w → awaiting (host w') = awaiting (host w) →
  pendingRequests (this w') = delete n (pendingRequests (this w)) →
  q ≠ p →
  registered id p (trace w) →
  abandoned id p (pendingRequests (this w)) (trace w) →
  registered id p (trace (settled q outcome w')) ∧
  abandoned id p (pendingRequests (this (settled q outcome w')))
            (trace (settled q outcome w')).
Proof.
  intros Ht Ha Hpend Hne Hr [Hc Hn].
  assert (Hcount : settle_count p (trace w ++ [settle_effect q outcome]) = 0%nat).
  { rewrite settle_count_snoc, Hc.
    destruct outcome; simpl; rewrite bool_decide_eq_false_2 by congruence; reflexivity. }
  assert (Hnone : delete n (pendingRequests (this w)) !! id = None).
  { destruct (decide (id = n)) as [->|Hd]; [apply lookup_delete_eq|].
    rewrite lookup_delete_ne by congruence. exact Hn. }
  unfold settled, abandoned. rewrite Ha.
  destruct (awaiting (host w) !! q); wsimpl; rewrite Ht, Hpend;
    (split; [unfold registered in *; rewrite elem_of_app; auto|]);
    split; assumption.
Qed.

Lemma forsaken_respond (id : Z) (p : promise) (n : Z) (request : pending_request)
    (outcome : jserror + jsval) (w : world) :
  pendingRequests (this w) !! n = Some request → forsaken id p w →
  forsaken id p
    (settled (entry_promise request) outcome
       (with_this (set_pendingRequests (delete n (pendingRequests (this w)))) w)).
Proof.
  intros Hp (HI & Hr & Ha). split; [apply Inv_respond; assumption|].
  apply (forsaken_settled id p _ outcome n w); try reflexivity; try assumption.
  intros Heq. destruct HI. destruct Ha as [_ Hn].
  assert (n = id).
  { apply (cor_inj0 n id p); [|exact Hr]. rewrite <- Heq. apply cor_pending0, Hp. }
  congruence.
Qed.

Lemma forsaken_abandon (id : Z) (p : promise) (n : Z) (request : pending_request)
    (w : world) :
  pendingRequests (this w) !! n = Some request → forsaken id p w →
  forsaken id p (with_this (set_pendingRequests (delete n (pendingRequests (this w)))) w).
Proof.
  intros Hp (HI & Hr & Hc & Hn). split; [apply (Inv_abandon n request); assumption|].
  wsimpl. split; [exact Hr|]. split; [exact Hc|].
  destruct (decide (id = n)) as [->|Hd]; [apply lookup_delete_eq|].
  rewrite lookup_delete_ne by congruence. exact Hn.
Qed.

Lemma forsaken_timer_fired (id : Z) (p : promise) (i : nat) (t : timer) (w : world) :
  timers (host w) !! i = Some t → forsaken id p w →
  match timer_cb t with
  | CbReconnect _ => forsaken id p (with_host (set_timers (delete i (timers (host w)))) w)
  | CbRequestTimeout id' p' =>
      match pendingRequests (this w) !! id' with
      | Some _ =>
          forsaken id p
            (settled p' (inl (Error "Request timeout"))
               (with_this (set_pendingRequests (delete id' (pendingRequests (this w))))
                  (with_host (set_timers (delete i (timers (host w)))) w)))
      | None => forsaken id p (with_host (set_timers (delete i (timers (host w)))) w)
      end
  end.
Proof.
  intros Hi (HI & Hr & Ha). pose proof (Inv_timer_fired i t w Hi HI) as Hf.
  destruct (timer_cb t) as [id' p'|url] eqn:Hcb; [|split; [exact Hf|split; assumption]].
  destruct (pendingRequests (this w) !! id') as [request|] eqn:Hp;
    [|split; [exact Hf|split; assumption]].
  split; [exact Hf|].
  apply (forsaken_settled id p _ _ id' w); try reflexivity; try assumption.
  intros ->. destruct HI. destruct Ha as [_ Hn].
  assert (id' = id).
  { apply (cor_inj0 id' id p); [|exact Hr].
    apply (cor_timers0 t); [eapply list_elem_of_lookup_2, Hi|exact Hcb]. }
  congruence.
Qed.

Lemma forsaken_drain (id : Z) (p : promise) (w : world) :
  forsaken id p w → forsaken id p (drain w).
Proof.
  apply drain_preserves.
  - apply forsaken_closed.
  - intros l w' H. exact H.
  - intros c w' H. exact H.
Qed.

Lemma forsaken_run (id : Z) (p : promise) (evs : list event) (w : world) :
  forsaken id p w → forsaken id p (run evs w).
Proof.
  apply run_preserves.
  - apply forsaken_closed.
  - apply forsaken_request.
  - apply forsaken_respond.
  - apply forsaken_abandon.
  - apply forsaken_timer_fired.
  - apply forsaken_drain.
Qed.

(** C1. A request sent on the open socket is not always settled.  The
    hover request 2 goes out and is registered with promise 1; the server
    answers it with an error whose [message] is an object with a
    [toString] key.  [handleMessage] deletes the table entry, then
    [new Error(...)] throws while converting the message, before [reject]
    is called; the message handler logs "Failed to parse message".  The
    timeout fires later, finds no entry and does nothing, and the call of
    [getHover] is still suspended.  From then on, whatever happens, the
    promise is never settled. *)
Theorem request_never_settled (evs : list event) :
  let uri := "inmemory://model/1" in
  let position := {| line := 0; character := 0 |} in
  let w0 := run [EvConnect None; EvOpen 0%nat;
                 EvMessage 0%nat
                   (Some (JObj [("jsonrpc", JStr "2.0"); ("id", JNum 1);
                                ("result", JObj [("capabilities",
                                                  JObj [("hoverProvider", JBool true)])])]));
                 EvGetHover uri position] world_example in
  let w := run [EvMessage 0%nat (Some unreadable_error_response);
                EvTick 30000; EvTimer 1%nat] w0 in
  TrWsSend 0%nat (hover_request 2 uri position) ∈ trace w0 ∧
  pendingRequests (this w0) !! 2 = Some {| entry_promise := 1%nat; timestamp := 0 |} ∧
  timers (host w0) !! 1%nat = Some {| due := 30000; timer_cb := CbRequestTimeout 2 1%nat |} ∧
  handleMessage unreadable_error_response w0
    = (with_this (set_pendingRequests (delete 2 (pendingRequests (this w0)))) w0,
       inl TypeError) ∧
  timers (host w) = [{| due := 30000; timer_cb := CbRequestTimeout 1 0%nat |}] ∧
  awaiting (host w) !! 1%nat = Some KHover ∧
  settle_count 1%nat (trace (run evs w)) = 0%nat ∧
  pendingRequests (this (run evs w)) !! 2 = None.
Proof.
  intros uri position w0 w.
  assert (Hsent : TrWsSend 0%nat (hover_request 2 uri position) ∈ trace w0).
  { apply list_elem_of_In. vm_compute. repeat (first [left; reflexivity | right]). }
  assert (Hp : pendingRequests (this w0) !! 2
               = Some {| entry_promise := 1%nat; timestamp := 0 |})
    by (vm_compute; reflexivity).
  split; [exact Hsent|]. split; [exact Hp|].
  split; [vm_compute; reflexivity|].
  split.
  { unfold unreadable_error_response.
    rewrite (handleMessage_response unreadable_error_fields 2 _ w0 eq_refl ltac:(lia) Hp).
    reflexivity. }
  split; [vm_compute; reflexivity|].
  split; [vm_compute; reflexivity|].
  assert (Hf : forsaken 2 1%nat w).
  { split; [|split; [|split]].
    - unfold w, w0. rewrite <- run_app. unfold world_example. apply Inv_run.
    - unfold registered. apply list_elem_of_In. vm_compute.
      repeat (first [left; reflexivity | right]).
    - vm_compute. reflexivity.
    - vm_compute. reflexivity. }
  destruct (forsaken_run 2 1%nat evs w Hf) as (_ & _ & Hc & Hn).
  split; [exact Hc|exact Hn].
Qed.

(** ** Identifiers *)

Lemma StronglySorted_lt_NoDup (l : list Z) : StronglySorted Z.lt l → NoDup l.
Proof.
  induction 1 as [|x l _ IH Hx]; constructor; [|exact IH].
  intros Hin. rewrite Forall_forall in Hx. specialize (Hx x Hin). lia.
Qed.

(** The open handler: the reconnection counter is zeroed, the identifier
    counter moves on by the one identifier the handshake takes. *)
Lemma onopen_counters (w : world) :
  reconnectAttempts (this (fst (onopen w))) = 0 ∧
  messageId (this (fst (onopen w))) = messageId (this w) + 1.
Proof.
  unfold onopen, updateConnectionStatus, initialize, next_id. msimp.
  rewrite sendMessage_eq.
  match goal with |- context [ws_open ?x] => change (ws_open x) with (ws_open w) end.
  destruct (ws_open w); unfold sent, refused; msimp.
  - unfold await_on. msimp. split; reflexivity.
  - unfold initialize_resume, error_message. msimp. split; reflexivity.
Qed.

(** C5. In every run of the client from its construction, whatever opens,
    closes and reconnections happen, the identifiers handed to
    [sendMessage] are strictly increasing in the order of the calls, hence
    never used twice, and none exceeds the counter; and the open handler
    sets the reconnection counter to 0 while the identifier counter only
    moves on to the next identifier. *)
Theorem request_ids_strictly_increasing (pf : platform) (g : globals)
    (logs : option (list log_entry)) (t0 : Z) (evs : list event) :
  let w := run evs (boot pf g logs t0) in
  StronglySorted Z.lt (sent_ids (trace w)) ∧
  NoDup (sent_ids (trace w)) ∧
  Forall (fun id => id ≤ messageId (this w)) (sent_ids (trace w)) ∧
  reconnectAttempts (this (fst (onopen w))) = 0 ∧
  messageId (this (fst (onopen w))) = messageId (this w) + 1.
Proof.
  cbv zeta. destruct (Inv_run pf g logs t0 evs).
  split; [exact cor_sorted0|].
  split; [apply StronglySorted_lt_NoDup, cor_sorted0|].
  split; [|apply onopen_counters].
  eapply Forall_impl; [exact cor_sent0|]. simpl. intros. lia.
Qed.

(** Two connections, the second after the first was closed: the two
    handshakes carry the identifiers 1 and 2. *)
Example request_ids_across_reconnect :
  let w := run [EvConnect None; EvOpen 0%nat; EvClose 0%nat 1006 "";
                EvTick 2000; EvTimer 1%nat; EvOpen 1%nat] world_example in
  sent_ids (trace w) = [1; 2] ∧ reconnectAttempts (this w) = 0.
Proof. vm_compute. split; reflexivity. Qed.

(** ** Responses reach their request *)

(** C9. In every run from construction every identifier handed to
    [sendMessage], and every key of the table, is at least 1.  A frame
    whose [id] is a key of the table therefore always takes the response
    branch and never the notification branch: the entry is removed, and
    its promise settled with the response unless the error's message
    cannot be converted to a string, in which case the conversion's
    exception is what [handleMessage] ends with.  The notification branch
    is taken without consulting the table exactly by the frames whose [id]
    is falsy, whatever the table holds. *)
Theorem allocated_ids_are_truthy (pf : platform) (g : globals)
    (logs : option (list log_entry)) (t0 : Z) (evs : list event) :
  let w := run evs (boot pf g logs t0) in
  Forall (fun id => 1 ≤ id) (sent_ids (trace w)) ∧
  (∀ id request, pendingRequests (this w) !! id = Some request →
     1 ≤ id ∧ truthy (JNum id) = true) ∧
  (∀ fields id request,
     assoc "id" fields = JNum id →
     pendingRequests (this w) !! id = Some request →
     handleMessage (JObj fields) w
       = match response_outcome fields with
         | inr outcome =>
             (settled (entry_promise request) outcome
                (with_this (set_pendingRequests (delete id (pendingRequests (this w)))) w),
              inr tt)
         | inl e =>
             (with_this (set_pendingRequests (delete id (pendingRequests (this w)))) w,
              inl e)
         end) ∧
  (∀ fields (w' : world),
     truthy (assoc "id" fields) = false →
     handleMessage (JObj fields) w' = handleNotification (JObj fields) w').
Proof.
  cbv zeta. destruct (Inv_run pf g logs t0 evs).
  assert (Hkey : ∀ id request,
             pendingRequests (this (run evs (boot pf g logs t0))) !! id = Some request →
             1 ≤ id).
  { intros id request Hp. destruct (cor_bound0 id _ (cor_pending0 id request Hp)). lia. }
  split; [eapply Forall_impl; [exact cor_sent0|]; simpl; intros; lia|].
  split.
  { intros id request Hp. pose proof (Hkey id request Hp) as Hid. split; [exact Hid|].
    simpl. destruct (Z.eqb_spec id 0); [lia|reflexivity]. }
  split; [|intros; apply handleMessage_falsy_id; assumption].
  intros fields id request Hid Hp. apply handleMessage_response; [exact Hid| |exact Hp].
  pose proof (Hkey id request Hp). lia.
Qed.

Lemma allocated_ids_are_truthy_witness :
  let w := run [EvConnect None; EvOpen 0%nat] world_example in
  let fields := [("jsonrpc", JStr "2.0"); ("id", JNum 1); ("result", JObj [])] in
  pendingRequests (this w) !! 1 = Some {| entry_promise := 0%nat; timestamp := 0 |} ∧
  response_outcome fields = inr (inr (JObj [])) ∧
  handleMessage (JObj fields) w
    = (settled 0%nat (inr (JObj []))
         (with_this (set_pendingRequests (delete 1 (pendingRequests (this w)))) w),
       inr tt).
Proof.
  intros w fields.
  assert (Hp : pendingRequests (this w) !! 1
               = Some {| entry_promise := 0%nat; timestamp := 0 |})
    by (vm_compute; reflexivity).
  split; [exact Hp|]. split; [reflexivity|].
  destruct (allocated_ids_are_truthy
              (env world_example) (page world_example) (Some []) 0
              [EvConnect None; EvOpen 0%nat])
    as (_ & _ & Hresp & _).
  exact (Hresp fields 1 _ eq_refl Hp).
Defined.

(** ** Before the handshake is answered *)
















(** * Further properties of the methods *)

(** ** Inbound frames *)

Lemma error_message_eq (e : jserror) (w : world) :
  error_message e w
    = (w, inr match e with Error msg => msg | _ => engine_message (env w) e end).
Proof. reflexivity. Qed.

(** X1. The message handler never throws, whatever arrives: a frame that
    does not parse and every exception of [handleMessage] end in the
    handler's own [catch]. *)
Theorem onmessage_never_throws (data : option jsval) (w : world) :
  snd (onmessage data w) = inr tt.
Proof.
  unfold onmessage, try_catch.
  destruct (bind _ _ w) as [w1 [e|[]]]; [|reflexivity].
  unfold bind. rewrite error_message_eq, addLog_eq. reflexivity.
Qed.

(** X2. A frame that does not parse changes nothing but the log, which
    gets one "Failed to parse message" line of type error. *)
Theorem onmessage_malformed (w : world) :
  onmessage None w
    = (logged ("Failed to parse message: " +:+ engine_message (env w) SyntaxError)
              "error" w,
       inr tt).
Proof. unfold onmessage, error_message. msimp. reflexivity. Qed.


Lemma addLog_value_eq (message : jsval) (type : string) (w : world) :
  addLog_value message type w
    = match lspLogs (host w) with
      | None => (w, inr tt)
      | Some _ =>
          match to_string message with
          | inr text => (logged text type w, inr tt)
          | inl e => (w, inl e)
          end
      end.
Proof.
  unfold addLog_value. mred. destruct (lspLogs (host w)); [|reflexivity].
  destruct (to_string message); msimp; reflexivity.
Qed.

Lemma handleNotification_eq (fields : list (string * jsval)) (w : world) :
  handleNotification (JObj fields) w =
    let method := assoc "method" fields in
    let params := assoc "params" fields in
    if truthy method then
      if is_method method "textDocument/publishDiagnostics" then
        handleDiagnostics params w
      else if is_method method "window/logMessage" then
        match prop params "message", prop params "type" with
        | inr text, inr type => addLog_value text (getLogLevel type) w
        | inl e, _ | _, inl e => (w, inl e)
        end
      else if is_method method "window/showMessage" then
        match prop params "message", prop params "type" with
        | inr text, inr type =>
            (emitted (TrShowNotification text (Some 3000) (Some (strict_eq_num type 1))) w,
             inr tt)
        | inl e, _ | _, inl e => (w, inl e)
        end
      else
        match to_string method with
        | inr name => (logged ("Unhandled notification: " +:+ name) "info" w, inr tt)
        | inl e => (w, inl e)
        end
    else (w, inr tt).
Proof.
  unfold handleNotification. mred. cbn [prop]. mred.
  destruct (truthy (assoc "method" fields)); [|reflexivity].
  destruct (is_method _ "textDocument/publishDiagnostics"); [reflexivity|].
  destruct (is_method _ "window/logMessage").
  { destruct (prop (assoc "params" fields) "message"); mred; [reflexivity|].
    destruct (prop (assoc "params" fields) "type"); mred; reflexivity. }
  destruct (is_method _ "window/showMessage").
  { destruct (prop (assoc "params" fields) "message"); mred; [reflexivity|].
    destruct (prop (assoc "params" fields) "type"); mred; reflexivity. }
  destruct (to_string (assoc "method" fields)); msimp; reflexivity.
Qed.

(** X3. A notification of a method the client does not handle is logged as
    "Unhandled notification" with the method's name and changes nothing
    else.  The name is the method converted to a string: should the method
    be an object that cannot be converted, the conversion's TypeError is
    thrown instead and nothing is logged. *)
Theorem handleMessage_unhandled_notification (fields : list (string * jsval))
    (w : world) :
  known_id fields w = false →
  truthy (assoc "method" fields) = true →
  is_method (assoc "method" fields) "textDocument/publishDiagnostics" = false →
  is_method (assoc "method" fields) "window/logMessage" = false →
  is_method (assoc "method" fields) "window/showMessage" = false →
  handleMessage (JObj fields) w
    = match to_string (assoc "method" fields) with
      | inr name => (logged ("Unhandled notification: " +:+ name) "info" w, inr tt)
      | inl e => (w, inl e)
      end ∧
  (∀ name, assoc "method" fields = JStr name → to_string (assoc "method" fields) = inr name) ∧
  (∀ keys, assoc "method" fields = JObj keys → has_key "toString" keys = true →
           to_string (assoc "method" fields) = inl TypeError).
Proof.
  intros Hid Hm H1 H2 H3. split; [|split].
  - rewrite handleMessage_falls_through by exact Hid.
    rewrite handleNotification_eq. cbv zeta. rewrite Hm, H1, H2, H3. reflexivity.
  - intros name ->. reflexivity.
  - intros keys -> Hk. cbn [to_string]. rewrite Hk. reflexivity.
Qed.

Lemma handleMessage_unhandled_notification_witness :
  let fields := [("jsonrpc", JStr "2.0"); ("method", JStr "$/progress");
                 ("params", JObj [("token", JNum 1)])] in
  to_string (assoc "method" fields) = inr "$/progress" ∧
  handleMessage (JObj fields) world_example
    = (logged "Unhandled notification: $/progress" "info" world_example, inr tt).
Proof.
  split; [reflexivity|].
  exact (proj1 (handleMessage_unhandled_notification
                  [("jsonrpc", JStr "2.0"); ("method", JStr "$/progress");
                   ("params", JObj [("token", JNum 1)])]
                  world_example eq_refl eq_refl eq_refl eq_refl eq_refl)).
Defined.

Lemma strict_eq_num_spec (v : jsval) (n : Z) : strict_eq_num v n = true ↔ v = JNum n.
Proof.
  destruct v; simpl; split; try discriminate.
  - intros H. apply Z.eqb_eq in H. congruence.
  - intros [= ->]. apply Z.eqb_refl.
Qed.

(** X4. [window/showMessage] shows the message as a toast for 3000 ms,
    flagged urgent exactly when the message type is the number 1, and
    changes nothing else. *)
Theorem handleMessage_showMessage (fields : list (string * jsval)) (w : world)
    (text type : jsval) :
  known_id fields w = false →
  assoc "method" fields = JStr "window/showMessage" →
  prop (assoc "params" fields) "message" = inr text →
  prop (assoc "params" fields) "type" = inr type →
  handleMessage (JObj fields) w
    = (emitted (TrShowNotification text (Some 3000) (Some (strict_eq_num type 1))) w,
       inr tt) ∧
  (strict_eq_num type 1 = true ↔ type = JNum 1).
Proof.
  intros Hid Hm Ht Hy. split; [|apply strict_eq_num_spec].
  rewrite handleMessage_falls_through by exact Hid.
  rewrite handleNotification_eq. cbv zeta. rewrite Hm, Ht, Hy. reflexivity.
Qed.

Lemma handleMessage_showMessage_witness :
  let fields := [("jsonrpc", JStr "2.0"); ("method", JStr "window/showMessage");
                 ("params", JObj [("type", JNum 1); ("message", JStr "Server crashed")])] in
  handleMessage (JObj fields) world_example
    = (emitted (TrShowNotification (JStr "Server crashed") (Some 3000) (Some true))
               world_example,
       inr tt) ∧
  (strict_eq_num (JNum 1) 1 = true ↔ JNum 1 = JNum 1).
Proof.
  exact (handleMessage_showMessage
           [("jsonrpc", JStr "2.0"); ("method", JStr "window/showMessage");
            ("params", JObj [("type", JNum 1); ("message", JStr "Server crashed")])]
           world_example (JStr "Server crashed") (JNum 1)
           eq_refl eq_refl eq_refl eq_refl).
Defined.

Lemma getLogLevel_error (type : jsval) :
  getLogLevel type = "error" ↔ type = JNum 1 ∨ type = JNum 2.
Proof.
  unfold getLogLevel.
  destruct (strict_eq_num type 1) eqn:H1; [apply strict_eq_num_spec in H1; tauto|].
  destruct (strict_eq_num type 2) eqn:H2; [apply strict_eq_num_spec in H2; tauto|].
  assert (type ≠ JNum 1) by (intros ->; discriminate).
  assert (type ≠ JNum 2) by (intros ->; discriminate).
  destruct (strict_eq_num type 3), (strict_eq_num type 4);
    (split; [discriminate|intros [?|?]; contradiction]).
Qed.

(** X5. [window/logMessage] adds the message, converted to a string, to
    the session log and changes nothing else; the line is of type error
    exactly for the message types 1 and 2 and of type info for every other
    value, missing or ill-typed ones included.  Without a log container
    nothing happens at all; with one, a message that cannot be converted
    to a string makes the conversion's TypeError leave [handleMessage]. *)
Theorem handleMessage_logMessage (fields : list (string * jsval)) (w : world)
    (text type : jsval) :
  known_id fields w = false →
  assoc "method" fields = JStr "window/logMessage" →
  prop (assoc "params" fields) "message" = inr text →
  prop (assoc "params" fields) "type" = inr type →
  handleMessage (JObj fields) w
    = match lspLogs (host w) with
      | None => (w, inr tt)
      | Some _ =>
          match to_string text with
          | inr line => (logged line (getLogLevel type) w, inr tt)
          | inl e => (w, inl e)
          end
      end ∧
  (getLogLevel type = "error" ↔ type = JNum 1 ∨ type = JNum 2) ∧
  (getLogLevel type ≠ "error" → getLogLevel type = "info").
Proof.
  intros Hid Hm Ht Hy. split; [|split; [apply getLogLevel_error|]].
  - rewrite handleMessage_falls_through by exact Hid.
    rewrite handleNotification_eq. cbv zeta. rewrite Hm, Ht, Hy.
    cbn [truthy String.eqb Ascii.eqb Bool.eqb negb is_method]. apply addLog_value_eq.
  - unfold getLogLevel. repeat destruct (strict_eq_num _ _); congruence.
Qed.

Lemma handleMessage_logMessage_witness :
  let fields := [("jsonrpc", JStr "2.0"); ("method", JStr "window/logMessage");
                 ("params", JObj [("type", JNum 2); ("message", JStr "deprecated call")])] in
  handleMessage (JObj fields) world_example
    = (logged "deprecated call" "error" world_example, inr tt) ∧
  handleMessage
    (JObj [("method", JStr "window/logMessage");
           ("params", JObj [("message", JObj [("toString", JStr "x")])])])
    world_example
    = (world_example, inl TypeError).
Proof.
  split.
  - exact (proj1 (handleMessage_logMessage
                    [("jsonrpc", JStr "2.0"); ("method", JStr "window/logMessage");
                     ("params", JObj [("type", JNum 2);
                                      ("message", JStr "deprecated call")])]
                    world_example (JStr "deprecated call") (JNum 2)
                    eq_refl eq_refl eq_refl eq_refl)).
  - exact (proj1 (handleMessage_logMessage
                    [("method", JStr "window/logMessage");
                     ("params", JObj [("message", JObj [("toString", JStr "x")])])]
                    world_example (JObj [("toString", JStr "x")]) JUndefined
                    eq_refl eq_refl eq_refl eq_refl)).
Defined.

(** X6. A [window/logMessage] or [window/showMessage] notification that
    carries no [params] is not delivered: reading the message throws, the
    message handler catches it, and the only thing that happens is a
    "Failed to parse message" line in the log. *)
Theorem onmessage_notification_without_params (fields : list (string * jsval))
    (w : world) :
  known_id fields w = false →
  assoc "method" fields = JStr "window/logMessage"
  ∨ assoc "method" fields = JStr "window/showMessage" →
  assoc "params" fields = JUndefined ∨ assoc "params" fields = JNull →
  onmessage (Some (JObj fields)) w
    = (logged ("Failed to parse message: " +:+ engine_message (env w) TypeError)
              "error" w,
       inr tt).
Proof.
  intros Hid Hm Hp. unfold onmessage, try_catch, bind, lift.
  rewrite handleMessage_falls_through by exact Hid.
  rewrite handleNotification_eq. cbv zeta.
  destruct Hm as [-> | ->], Hp as [-> | ->]; simpl;
    unfold error_message; msimp; reflexivity.
Qed.

Lemma onmessage_notification_without_params_witness :
  let fields := [("jsonrpc", JStr "2.0"); ("method", JStr "window/logMessage")] in
  onmessage (Some (JObj fields)) world_example
    = (logged ("Failed to parse message: "
                 +:+ engine_message (env world_example) TypeError)
              "error" world_example,
       inr tt).
Proof.
  exact (onmessage_notification_without_params
           [("jsonrpc", JStr "2.0"); ("method", JStr "window/logMessage")]
           world_example eq_refl (or_introl eq_refl) (or_introl eq_refl)).
Defined.

(** ** Diagnostics *)

(** X7. Without an editor, or with error detection switched off,
    [handleDiagnostics] does nothing at all, whatever the parameters are
    (it does not even read them, so ill-formed ones do not throw). *)
Theorem handleDiagnostics_disabled (params : jsval) (w : world) :
  editor (page w) = None ∨ errorDetectionEnabled (page w) = false →
  handleDiagnostics params w = (w, inr tt).
Proof.
  intros H. unfold handleDiagnostics. mred.
  destruct H as [H|H]; rewrite H; [|rewrite orb_true_r]; reflexivity.
Qed.

Lemma handleDiagnostics_disabled_witness :
  let w := with_page (fun g => {| editor := editor g; editorLoaded := editorLoaded g;
                                   errorDetectionEnabled := false;
                                   lspReady := lspReady g |}) world_example in
  handleDiagnostics JNull w = (w, inr tt).
Proof.
  exact (handleDiagnostics_disabled JNull
           (with_page (fun g => {| editor := editor g; editorLoaded := editorLoaded g;
                                    errorDetectionEnabled := false;
                                    lspReady := lspReady g |}) world_example)
           (or_intror eq_refl)).
Defined.

Lemma js_gt_length (diags : list jsval) :
  js_gt (JNum (Z.of_nat (length diags))) 0 = negb (bool_decide (diags = [])).
Proof. destruct diags; reflexivity. Qed.

(** X8. With the editor present and detection on, well-formed diagnostics
    replace the markers and are counted in the log, "Received n
    diagnostic(s)"; an empty list clears the markers and logs nothing. *)
Theorem handleDiagnostics_log (w : world) (params : jsval)
    (diags : list jsval) (ds : list diagnostic) :
  is_Some (editor (page w)) →
  errorDetectionEnabled (page w) = true →
  prop params "diagnostics" = inr (JArr diags) →
  Forall2 represents diags ds →
  handleDiagnostics params w
    = (let w1 := emitted (TrSetModelMarkers (map spec_marker ds)) w in
       if bool_decide (diags = []) then w1
       else logged ("Received " +:+ pretty (Z.of_nat (length diags)) +:+ " diagnostic(s)")
                   "info" w1,
       inr tt).
Proof.
  intros Hed Hdet Hp Hds.
  unfold handleDiagnostics. mred.
  rewrite (bool_decide_eq_true_2 _ Hed), Hdet. mred.
  rewrite Hp. mred. unfold js_map. rewrite (emapM_diag_to_marker _ _ Hds). mred.
  cbn [prop]. mred. change (String.eqb "length" "length") with true. cbv iota.
  rewrite js_gt_length.
  destruct (bool_decide (diags = [])); msimp; [reflexivity|].
  cbn [prop]. mred.
  change (String.eqb "length" "length") with true. cbv iota.
  cbn [to_string]. msimp. reflexivity.
Qed.

Lemma handleDiagnostics_log_witness :
  let params := JObj [("diagnostics", JArr [diag_example; diag_example])] in
  let d := {| start_line := 2; start_character := 4; end_line := 2; end_character := 9;
              diag_message := JStr "unknown global"; diag_severity := JNum 1 |} in
  Forall2 represents [diag_example; diag_example] [d; d] ∧
  handleDiagnostics params world_example
    = (logged "Received 2 diagnostic(s)" "info"
         (emitted (TrSetModelMarkers [spec_marker d; spec_marker d]) world_example),
       inr tt).
Proof.
  intros params d.
  assert (Hd : represents diag_example d).
  { unfold represents, diag_example. simpl. eexists _, _, _. repeat split; reflexivity. }
  assert (Hds : Forall2 represents [diag_example; diag_example] [d; d])
    by (repeat constructor; exact Hd).
  split; [exact Hds|].
  exact (handleDiagnostics_log world_example params [diag_example; diag_example] [d; d]
           (ex_intro _ _ eq_refl) eq_refl eq_refl Hds).
Defined.

Lemma emapM_fails {A B} (f : A → jserror + B) (l : list A) :
  Exists (fun x => ∃ e, f x = inl e) l → ∃ e, emapM f l = inl e.
Proof.
  induction 1 as [x l [e He]|x l _ [e IH]]; simpl.
  - rewrite He. exists e. reflexivity.
  - destruct (f x) as [e'|y]; simpl; [exists e'; reflexivity|].
    rewrite IH. exists e. reflexivity.
Qed.

(** X9. Markers are set for all diagnostics or for none: if the list is
    not an array, or one diagnostic of it cannot be read (it is [null], or
    has no [range]), [handleDiagnostics] throws before anything is handed
    to the editor and leaves the world as it was. *)
Theorem handleDiagnostics_all_or_nothing (w : world) (params diagnostics : jsval) :
  is_Some (editor (page w)) →
  errorDetectionEnabled (page w) = true →
  prop params "diagnostics" = inr diagnostics →
  match diagnostics with
  | JArr diags => Exists (fun diag => ∃ e, diag_to_marker diag = inl e) diags
  | _ => True
  end →
  ∃ e, handleDiagnostics params w = (w, inl e).
Proof.
  intros Hed Hdet Hp Hbad.
  unfold handleDiagnostics. mred.
  rewrite (bool_decide_eq_true_2 _ Hed), Hdet. mred. rewrite Hp. mred.
  destruct diagnostics; try (exists TypeError; reflexivity).
  destruct (emapM_fails diag_to_marker items Hbad) as [e He].
  exists e. unfold js_map. rewrite He. reflexivity.
Qed.

Lemma handleDiagnostics_all_or_nothing_witness :
  ∃ e, handleDiagnostics
         (JObj [("diagnostics", JArr [diag_example; JObj [("message", JStr "no range")]])])
         world_example
       = (world_example, inl e).
Proof.
  apply (handleDiagnostics_all_or_nothing world_example
           (JObj [("diagnostics", JArr [diag_example; JObj [("message", JStr "no range")]])])
           (JArr [diag_example; JObj [("message", JStr "no range")]])).
  - simpl. eexists. reflexivity.
  - reflexivity.
  - reflexivity.
  - apply Exists_cons_tl, Exists_cons_hd. exists TypeError. reflexivity.
Defined.

(** ** Connecting and backing off *)

(** X10. [connect] never throws and returns whether the socket could be
    constructed.  If so, [this.ws] is the new socket, which is in state
    CONNECTING, and every other socket is as before, the previous one
    included: it is neither closed nor forgotten by the browser.  If not,
    [this.ws] is as before and the client is marked disconnected.  Either
    way the identifier counter, the table, the timers, the attempt counter
    and the capabilities are untouched. *)
Theorem connect_outcome (url : string) (w : world) :
  let w' := fst (connect url w) in
  let sid := nextSocket (host w) in
  snd (connect url w) = inr (websocket_ctor_ok (env w) url) ∧
  (if websocket_ctor_ok (env w) url then
     ws (this w') = Some sid ∧
     sockets (host w') !! sid = Some {| socket_url := url; readyState := CONNECTING |} ∧
     (∀ other, other ≠ sid → sockets (host w') !! other = sockets (host w) !! other) ∧
     isConnected (this w') = isConnected (this w) ∧
     trace w' = trace w ++ [TrNewWebSocket sid url]
   else
     ws (this w') = ws (this w) ∧
     sockets (host w') = sockets (host w) ∧
     isConnected (this w') = false ∧
     trace w' = trace w ++ [TrStatus false "Connection failed"]) ∧
  messageId (this w') = messageId (this w) ∧
  pendingRequests (this w') = pendingRequests (this w) ∧
  timers (host w') = timers (host w) ∧
  reconnectAttempts (this w') = reconnectAttempts (this w) ∧
  serverCapabilities (this w') = serverCapabilities (this w).
Proof.
  unfold connect, new_WebSocket, updateConnectionStatus, error_message. msimp.
  destruct (websocket_ctor_ok (env w) url); msimp.
  - repeat split. + apply lookup_insert_eq.
    + intros other Hne. apply lookup_insert_ne. congruence.
  - repeat split.
Qed.

(** X11. The backoff delay is capped and never shrinks: from 1000 ms at
    count 0 it doubles with every attempt up to the cap of 30000 ms, which
    it has from the fifth attempt on. *)
Theorem reconnect_delay_bounds (n m : Z) :
  0 ≤ n → n ≤ m →
  1000 ≤ reconnect_delay n ≤ 30000 ∧
  reconnect_delay n ≤ reconnect_delay m ∧
  (n < 4 → reconnect_delay (n + 1) = 2 * reconnect_delay n) ∧
  (5 ≤ n → reconnect_delay n = 30000).
Proof.
  intros Hn Hm. unfold reconnect_delay.
  assert (Hpow : ∀ k, 0 ≤ k → 1 ≤ 2 ^ k).
  { intros k Hk. pose proof (Z.pow_pos_nonneg 2 k). lia. }
  assert (Hmono : 2 ^ n ≤ 2 ^ m) by (apply Z.pow_le_mono_r; lia).
  pose proof (Hpow n Hn). split; [lia|]. split; [lia|]. split.
  - intros Hlt. replace (2 ^ (n + 1)) with (2 * 2 ^ n)
      by (rewrite <- Z.pow_succ_r by lia; reflexivity).
    assert (2 ^ n ≤ 2 ^ 3) by (apply Z.pow_le_mono_r; lia).
    change (2 ^ 3) with 8 in *. lia.
  - intros Hge. assert (2 ^ 5 ≤ 2 ^ n) by (apply Z.pow_le_mono_r; lia).
    change (2 ^ 5) with 32 in *. lia.
Qed.

Lemma reconnect_delay_bounds_witness :
  1000 ≤ reconnect_delay 3 ≤ 30000 ∧
  reconnect_delay 3 ≤ reconnect_delay 7 ∧
  (3 < 4 → reconnect_delay (3 + 1) = 2 * reconnect_delay 3) ∧
  (5 ≤ 3 → reconnect_delay 3 = 30000).
Proof. apply (reconnect_delay_bounds 3 7); lia. Defined.

Lemma onopen_frame (w : world) :
  reconnectAttempts (this (fst (onopen w))) = 0 ∧
  maxReconnectAttempts (this (fst (onopen w))) = maxReconnectAttempts (this w) ∧
  isConnected (this (fst (onopen w))) = true ∧
  reconnects (trace (fst (onopen w))) = reconnects (trace w).
Proof.
  unfold onopen, updateConnectionStatus, initialize, next_id. msimp.
  rewrite sendMessage_eq.
  match goal with |- context [ws_open ?x] => change (ws_open x) with (ws_open w) end.
  destruct (ws_open w); unfold sent, refused; cbn [msg_id]; msimp.
  - unfold await_on. msimp. rewrite !reconnects_app. simpl. rewrite !app_nil_r.
    repeat split; reflexivity.
  - unfold initialize_resume, error_message. msimp. rewrite !reconnects_app. simpl.
    rewrite !app_nil_r. repeat split; reflexivity.
Qed.

(** X12. A successful open starts the backoff over: whatever the attempt
    counter was, the first close after an open schedules the reconnection
    after 2000 ms (given a ceiling above 0), and the client is marked
    disconnected again. *)
Theorem backoff_restarts_after_open (url : string) (code : Z) (reason : string)
    (w : world) :
  0 < maxReconnectAttempts (this w) →
  let w1 := fst (onopen w) in
  let w2 := fst (onclose url code reason w1) in
  reconnects (trace w2) = reconnects (trace w) ++ [2000] ∧
  reconnectAttempts (this w2) = 1 ∧
  isConnected (this w1) = true ∧
  isConnected (this w2) = false.
Proof.
  intros Hmax. cbv zeta.
  destruct (onopen_frame w) as (H0 & Hm & Hc & Hr).
  pose proof (onclose_spec url code reason (fst (onopen w))) as Hs. cbv zeta in Hs.
  rewrite H0, Hm in Hs.
  destruct (0 <? maxReconnectAttempts (this w)) eqn:Hlt; [|lia].
  destruct Hs as (_ & _ & _ & Ha & _ & Ht).
  rewrite Ht, reconnects_app, Hr. repeat split; try assumption.
  unfold onclose, updateConnectionStatus, setTimeout. msimp.
  rewrite H0, Hm, Hlt. msimp. reflexivity.
Qed.

Lemma backoff_restarts_after_open_witness :
  let w := run [EvConnect None; EvClose 0%nat 1006 ""; EvTick 2000; EvTimer 0%nat]
               world_example in
  0 < maxReconnectAttempts (this w) ∧
  reconnectAttempts (this w) = 1 ∧
  let w1 := fst (onopen w) in
  let w2 := fst (onclose default_url 1006 "" w1) in
  reconnects (trace w2) = reconnects (trace w) ++ [2000] ∧
  reconnectAttempts (this w2) = 1 ∧
  isConnected (this w1) = true ∧
  isConnected (this w2) = false.
Proof.
  intros w. split; [vm_compute; reflexivity|]. split; [vm_compute; reflexivity|].
  apply (backoff_restarts_after_open default_url 1006 "" w). vm_compute. reflexivity.
Defined.

(** ** The connection flag and the typed methods *)

(** X13. While the client is marked disconnected the typed methods do
    nothing: completions are empty, hover is [null], the two document
    notifications return, and in all four cases nothing is sent, logged or
    counted (the world is the same). *)
Theorem disconnected_methods_do_nothing (uri languageId text : string) (version : Z)
    (changes : jsval) (position : Position) (w : world) :
  isConnected (this w) = false →
  getCompletions uri position w = (w, inr (Done (RSuggestions []))) ∧
  getHover uri position w = (w, inr (Done RNull)) ∧
  openDocument uri languageId version text w = (w, inr tt) ∧
  changeDocument uri version changes w = (w, inr tt).
Proof.
  intros H. unfold getCompletions, getHover, openDocument, changeDocument. mred.
  rewrite H. repeat split.
Qed.

Lemma disconnected_methods_do_nothing_witness :
  isConnected (this world_example) = false ∧
  getCompletions "inmemory://model/1" {| line := 0; character := 0 |} world_example
    = (world_example, inr (Done (RSuggestions []))) ∧
  getHover "inmemory://model/1" {| line := 0; character := 0 |} world_example
    = (world_example, inr (Done RNull)) ∧
  openDocument "inmemory://model/1" "lua" 1 "print(1)" world_example
    = (world_example, inr tt) ∧
  changeDocument "inmemory://model/1" 2 (JArr []) world_example
    = (world_example, inr tt).
Proof.
  split; [reflexivity|].
  exact (disconnected_methods_do_nothing "inmemory://model/1" "lua" "print(1)" 2 (JArr [])
           {| line := 0; character := 0 |} world_example eq_refl).
Defined.

Lemma onerror_eq (message : jsval) (w : world) :
  onerror message w
    = match to_string (js_or message (JStr "Unknown error")) with
      | inr text =>
          (emitted (TrStatus false "Connection error")
             (with_this (set_isConnected false)
                (logged ("WebSocket error: " +:+ text) "error" w)),
           inr tt)
      | inl e => (w, inl e)
      end.
Proof.
  unfold onerror, updateConnectionStatus. mred.
  destruct (to_string (js_or message (JStr "Unknown error"))); msimp; reflexivity.
Qed.

(** X14. An [error] event of the socket whose message (or, without one,
    "Unknown error") converts to the text [text] logs "WebSocket error:
    text" as an error and marks the client disconnected with the status
    "Connection error", without touching the socket, which may well stay
    open: from then on [sendMessage] would still send, but completions and
    hover return empty and send nothing, with whatever capabilities the
    server announced. *)
Theorem onerror_disconnects (message : jsval) (text uri : string) (position : Position)
    (w : world) :
  to_string (js_or message (JStr "Unknown error")) = inr text →
  let w1 := fst (onerror message w) in
  onerror message w
    = (emitted (TrStatus false "Connection error")
         (with_this (set_isConnected false)
            (logged ("WebSocket error: " +:+ text) "error" w)),
       inr tt) ∧
  lspLogs (host w1) = logs_after ("WebSocket error: " +:+ text) "error" w ∧
  isConnected (this w1) = false ∧
  ws (this w1) = ws (this w) ∧
  sockets (host w1) = sockets (host w) ∧
  ws_open w1 = ws_open w ∧
  serverCapabilities (this w1) = serverCapabilities (this w) ∧
  trace w1 = trace w ++ [TrStatus false "Connection error"] ∧
  getCompletions uri position w1 = (w1, inr (Done (RSuggestions []))) ∧
  getHover uri position w1 = (w1, inr (Done RNull)).
Proof.
  intros Htext. cbv zeta. rewrite onerror_eq, Htext. cbn [fst snd].
  unfold getCompletions, getHover, emitted, logged. mred. repeat split.
Qed.

Lemma onerror_disconnects_witness :
  let w := run [EvConnect None; EvOpen 0%nat] world_example in
  let w1 := fst (onerror JUndefined w) in
  to_string (js_or JUndefined (JStr "Unknown error")) = inr "Unknown error" ∧
  lspLogs (host w1) = logs_after "WebSocket error: Unknown error" "error" w ∧
  isConnected (this w) = true ∧
  isConnected (this w1) = false ∧
  ws_open w1 = true.
Proof.
  intros w w1.
  destruct (onerror_disconnects JUndefined "Unknown error" "inmemory://model/1"
              {| line := 0; character := 0 |} w eq_refl)
    as (_ & Hlog & Hc & _ & _ & Ho & _).
  split; [reflexivity|]. split; [exact Hlog|].
  split; [vm_compute; reflexivity|]. split; [exact Hc|].
  unfold w1. rewrite Ho. vm_compute. reflexivity.
Defined.

(** ** Document notifications *)

(** The [textDocument/didOpen] and [textDocument/didChange] messages. *)
Lemma openDocument_eq (uri languageId : string) (version : Z) (text : string)
    (w : world) :
  isConnected (this w) = true →
  openDocument uri languageId version text w
    = let m := {| msg_id := None; msg_method := "textDocument/didOpen";
                  msg_params :=
                    JObj [("textDocument",
                           JObj [("uri", JStr uri); ("languageId", JStr languageId);
                                 ("version", JNum version); ("text", JStr text)])] |} in
      if ws_open w then (sent m w, inr tt)
      else (refused m w, inl (Error "Connection not ready")).
Proof.
  intros H. unfold openDocument. mred. rewrite H. mred. rewrite sendMessage_eq.
  destruct (ws_open w); reflexivity.
Qed.

Lemma changeDocument_eq (uri : string) (version : Z) (changes : jsval) (w : world) :
  isConnected (this w) = true →
  changeDocument uri version changes w
    = let m := {| msg_id := None; msg_method := "textDocument/didChange";
                  msg_params :=
                    JObj [("textDocument", JObj [("uri", JStr uri); ("version", JNum version)]);
                          ("contentChanges", changes)] |} in
      if ws_open w then (sent m w, inr tt)
      else (refused m w, inl (Error "Connection not ready")).
Proof.
  intros H. unfold changeDocument. mred. rewrite H. mred. rewrite sendMessage_eq.
  destruct (ws_open w); reflexivity.
Qed.

(** X15. The document notifications of a connected client go out as one
    frame without an identifier: the object (identifier counter and table
    included), the timers and the promises stay as they were, and the
    trace gains the call and the frame.  If the socket is not open although
    the client counts as connected, the call throws "Connection not ready"
    and nothing goes out. *)
Theorem document_notifications (uri languageId text : string) (version : Z)
    (changes : jsval) (w : world) :
  isConnected (this w) = true →
  let opened := openDocument uri languageId version text w in
  let changed := changeDocument uri version changes w in
  let sid := default 0%nat (ws (this w)) in
  let didOpen :=
    {| msg_id := None; msg_method := "textDocument/didOpen";
       msg_params :=
         JObj [("textDocument",
                JObj [("uri", JStr uri); ("languageId", JStr languageId);
                      ("version", JNum version); ("text", JStr text)])] |} in
  let didChange :=
    {| msg_id := None; msg_method := "textDocument/didChange";
       msg_params :=
         JObj [("textDocument", JObj [("uri", JStr uri); ("version", JNum version)]);
               ("contentChanges", changes)] |} in
  (∀ r, r = opened ∨ r = changed →
        this (fst r) = this w ∧
        timers (host (fst r)) = timers (host w) ∧
        nextPromise (host (fst r)) = nextPromise (host w) ∧
        awaiting (host (fst r)) = awaiting (host w)) ∧
  (if ws_open w then
     snd opened = inr tt ∧
     trace (fst opened) = trace w ++ [TrSendMessage didOpen; TrWsSend sid didOpen] ∧
     snd changed = inr tt ∧
     trace (fst changed) = trace w ++ [TrSendMessage didChange; TrWsSend sid didChange]
   else
     snd opened = inl (Error "Connection not ready") ∧
     trace (fst opened) = trace w ++ [TrSendMessage didOpen] ∧
     snd changed = inl (Error "Connection not ready") ∧
     trace (fst changed) = trace w ++ [TrSendMessage didChange]).
Proof.
  intros H. cbv zeta.
  rewrite (openDocument_eq _ _ _ _ _ H), (changeDocument_eq _ _ _ _ H). cbv zeta.
  destruct (ws_open w); unfold sent, refused; cbn [msg_id]; mred.
  - split; [intros r [-> | ->]; repeat split|].
    rewrite <- !app_assoc. repeat split.
  - split; [intros r [-> | ->]; repeat split|]. repeat split.
Qed.

Lemma document_notifications_witness :
  let w := run [EvConnect None; EvOpen 0%nat] world_example in
  isConnected (this w) = true ∧
  ws_open w = true ∧
  snd (changeDocument "inmemory://model/1" 2 (JArr []) w) = inr tt ∧
  messageId (this (fst (changeDocument "inmemory://model/1" 2 (JArr []) w)))
    = messageId (this w).
Proof.
  intros w.
  assert (Hc : isConnected (this w) = true) by (vm_compute; reflexivity).
  assert (Ho : ws_open w = true) by (vm_compute; reflexivity).
  split; [exact Hc|]. split; [exact Ho|].
  destruct (document_notifications "inmemory://model/1" "lua" "print(1)" 2 (JArr []) w Hc)
    as [Hframe Hsend].
  rewrite Ho in Hsend. destruct Hsend as (_ & _ & Hs & _).
  split; [exact Hs|].
  destruct (Hframe _ (or_intror eq_refl)) as [Hthis _]. rewrite Hthis. reflexivity.
Defined.

(** ** The callbacks handed to the editor *)

Lemma onDidChangeContent_eq (uri : string) (version : Z) (changes : list monaco_change)
    (w : world) :
  onDidChangeContent uri version changes w
    = (let m := {| msg_id := None; msg_method := "textDocument/didChange";
                   msg_params :=
                     JObj [("textDocument",
                            JObj [("uri", JStr uri); ("version", JNum (version + 1))]);
                           ("contentChanges", JArr (map change_to_lsp changes))] |} in
       if isConnected (this w) then if ws_open w then sent m w else refused m w else w,
       inr (version + 1)).
Proof.
  unfold onDidChangeContent. destruct (isConnected (this w)) eqn:Hc.
  - unfold try_catch, bind. rewrite (changeDocument_eq _ _ _ _ Hc). cbv zeta.
    destruct (ws_open w); reflexivity.
  - unfold changeDocument. mred. rewrite Hc. reflexivity.
Qed.

(** X16. The content-change listener never throws, whatever the state of
    the connection, and always moves the document version on by one.  On a
    disconnected client that is all it does; on a connected one with an
    open socket it sends one [textDocument/didChange] carrying the new
    version and the changes in order, each range moved from the editor's
    one-based to the protocol's zero-based coordinates. *)
Theorem onDidChangeContent_outcome (uri : string) (version : Z)
    (changes : list monaco_change) (w : world) :
  let r := onDidChangeContent uri version changes w in
  snd r = inr (version + 1) ∧
  (isConnected (this w) = false → fst r = w) ∧
  (isConnected (this w) = true → ws_open w = true →
   fst r = sent {| msg_id := None; msg_method := "textDocument/didChange";
                   msg_params :=
                     JObj [("textDocument",
                            JObj [("uri", JStr uri); ("version", JNum (version + 1))]);
                           ("contentChanges", JArr (map change_to_lsp changes))] |} w) ∧
  Forall2 (fun change c =>
             ∃ sl sc el ec,
               prop c "text" = inr (JStr (change_text change)) ∧
               prop c "range"
                 = inr (JObj [("start", position_val {| line := sl; character := sc |});
                              ("end", position_val {| line := el; character := ec |})]) ∧
               sl + 1 = change_startLineNumber change ∧
               sc + 1 = change_startColumn change ∧
               el + 1 = change_endLineNumber change ∧
               ec + 1 = change_endColumn change)
          changes (map change_to_lsp changes).
Proof.
  cbv zeta. rewrite onDidChangeContent_eq. cbv zeta. cbn [fst snd].
  split; [reflexivity|]. split; [intros ->; reflexivity|].
  split; [intros -> ->; reflexivity|].
  induction changes as [|c cs IH]; constructor; [|exact IH].
  exists (change_startLineNumber c - 1), (change_startColumn c - 1),
         (change_endLineNumber c - 1), (change_endColumn c - 1).
  repeat split; lia.
Qed.

(** ** Completion *)

Lemma item_to_suggestion_object (pf : platform) (position : Position)
    (fields : list (string * jsval)) :
  item_to_suggestion pf position (JObj fields)
    = ebind (mapCompletionKind pf (assoc "kind" fields)) (fun kind1 =>
      inr {| label := assoc "label" fields;
             kind := kind1;
             documentation := assoc "documentation" fields;
             insertText := js_or (assoc "insertText" fields) (assoc "label" fields);
             insertTextRules :=
               if strict_eq_num (assoc "insertTextFormat" fields) 2
               then monaco.InsertAsSnippet else monaco.NoRule;
             range :=
               js_or (assoc "range" fields)
                 (JObj [("startLineNumber", JNum (line position + 1));
                        ("endLineNumber", JNum (line position + 1));
                        ("startColumn", JNum (character position + 1));
                        ("endColumn", JNum (character position + 1))]) |}).
Proof. reflexivity. Qed.

(** [mapCompletionKind] throws exactly when the conversion of its
    argument does. *)
Lemma mapCompletionKind_printable (pf : platform) (kind1 : jsval) :
  printable kind1 → ∃ k, mapCompletionKind pf kind1 = inr k.
Proof.
  intros [key Hkey]. unfold mapCompletionKind. rewrite Hkey. cbn [ebind].
  destruct (mapping key); [|destruct (inherited key)]; eexists; reflexivity.
Qed.

Lemma mapCompletionKind_error (pf : platform) (kind1 : jsval) (e : jserror) :
  mapCompletionKind pf kind1 = inl e → to_string kind1 = inl TypeError ∧ e = TypeError.
Proof.
  unfold mapCompletionKind. destruct (to_string kind1) as [e'|key] eqn:Hkey; cbn [ebind].
  - intros [= <-]. rewrite (to_string_error _ _ Hkey). split; reflexivity.
  - destruct (mapping key); [|destruct (inherited key)]; discriminate.
Qed.

Lemma emapM_objects (pf : platform) (position : Position)
    (objs : list (list (string * jsval))) :
  Forall (fun fields => printable (assoc "kind" fields)) objs →
  ∃ suggestions,
    emapM (item_to_suggestion pf position) (map JObj objs) = inr suggestions ∧
    Forall2 (fun fields s => item_to_suggestion pf position (JObj fields) = inr s)
            objs suggestions.
Proof.
  induction 1 as [|fields objs Hkind _ (suggestions & Hm & Hall)].
  - exists []. split; [reflexivity|constructor].
  - destruct (mapCompletionKind_printable pf _ Hkind) as [k Hk].
    eexists (_ :: suggestions). cbn [map emapM].
    rewrite item_to_suggestion_object, Hk, Hm. split; [reflexivity|].
    constructor; [|exact Hall]. rewrite item_to_suggestion_object, Hk. reflexivity.
Qed.

(** X17. The continuation of [getCompletions] never throws and has two
    outcomes only: it returns suggestions and leaves everything as it was,
    or it returns no suggestions and has logged one "Completion error"
    line, changing nothing else. *)
Theorem getCompletions_resume_outcomes (position : Position)
    (outcome : jserror + jsval) (w : world) :
  (∃ suggestions,
     getCompletions_resume position outcome w = (w, inr (RSuggestions suggestions))) ∨
  (∃ text,
     getCompletions_resume position outcome w
       = (logged ("Completion error: " +:+ text) "error" w, inr (RSuggestions []))).
Proof.
  unfold getCompletions_resume, error_message. msimp.
  destruct outcome as [e|result]; msimp; [right; eexists; reflexivity|].
  destruct (js_map _ _) as [e|suggestions]; msimp.
  - right. eexists. reflexivity.
  - left. eexists. reflexivity.
Qed.

(** X18. A completion result is read the same whether the server sends
    the bare array of items or a completion list [{items: [...]}]: with
    items that are objects whose [kind] converts to a property key
    (numbers, strings, a missing kind), the suggestions come back one per
    item in the order of the items, nothing is logged, and each suggestion
    has the item's label and documentation, the kind [mapCompletionKind]
    gives, the item's insert text or, if that is missing or empty, its
    label, the snippet rule exactly for insert text format 2, and the
    item's own range if it has one. *)
Theorem getCompletions_resume_suggestions (position : Position) (result : jsval)
    (objs : list (list (string * jsval))) (w : world) :
  result = JArr (map JObj objs)
  ∨ (∃ fields, result = JObj fields ∧ assoc "items" fields = JArr (map JObj objs)) →
  Forall (fun fields => printable (assoc "kind" fields)) objs →
  ∃ suggestions,
    getCompletions_resume position (inr result) w = (w, inr (RSuggestions suggestions)) ∧
    getCompletions_resume position (inr (JArr (map JObj objs))) w
      = (w, inr (RSuggestions suggestions)) ∧
    Forall2 (fun fields s =>
               label s = assoc "label" fields ∧
               mapCompletionKind (env w) (assoc "kind" fields) = inr (kind s) ∧
               documentation s = assoc "documentation" fields ∧
               insertText s = (if truthy (assoc "insertText" fields)
                               then assoc "insertText" fields
                               else assoc "label" fields) ∧
               (insertTextRules s = monaco.InsertAsSnippet
                ↔ assoc "insertTextFormat" fields = JNum 2) ∧
               (truthy (assoc "range" fields) = true → range s = assoc "range" fields))
            objs suggestions.
Proof.
  intros Hshape Hkinds.
  destruct (emapM_objects (env w) position objs Hkinds) as (suggestions & Hm & Hall).
  exists suggestions.
  assert (Harr : getCompletions_resume position (inr (JArr (map JObj objs))) w
                 = (w, inr (RSuggestions suggestions))).
  { unfold getCompletions_resume. mred. cbn [isArray js_map]. rewrite Hm. reflexivity. }
  split; [|split; [exact Harr|]].
  - destruct Hshape as [-> | (fields & -> & Hitems)]; [exact Harr|].
    unfold getCompletions_resume. mred. cbn [isArray opt_prop prop]. rewrite Hitems.
    cbn [js_or truthy js_map]. rewrite Hm. reflexivity.
  - eapply Forall2_impl; [exact Hall|]. intros fields s Hs. cbv beta in Hs.
    rewrite item_to_suggestion_object in Hs.
    destruct (mapCompletionKind (env w) (assoc "kind" fields)) as [e|k];
      [discriminate|].
    cbn [ebind] in Hs. injection Hs as <-. cbn.
    repeat split.
    + destruct (strict_eq_num _ 2) eqn:H2; [|discriminate].
      intros _. apply strict_eq_num_spec, H2.
    + intros ->. reflexivity.
    + unfold js_or. intros ->. reflexivity.
Qed.

Lemma getCompletions_resume_suggestions_witness :
  let objs := [[("label", JStr "print"); ("kind", JNum 3)];
               [("label", JStr "for"); ("kind", JNum 15);
                ("insertText", JStr "for ${1:i} = 1, ${2:n} do end");
                ("insertTextFormat", JNum 2)]] in
  Forall (fun fields => printable (assoc "kind" fields)) objs ∧
  ∃ suggestions,
    getCompletions_resume {| line := 0; character := 2 |}
      (inr (JObj [("isIncomplete", JBool false); ("items", JArr (map JObj objs))]))
      world_example
      = (world_example, inr (RSuggestions suggestions)) ∧
    map insertText suggestions = [JStr "print"; JStr "for ${1:i} = 1, ${2:n} do end"] ∧
    map insertTextRules suggestions = [monaco.NoRule; monaco.InsertAsSnippet] ∧
    map kind suggestions
      = [KindConstant monaco.KFunction; KindConstant monaco.KSnippet].
Proof.
  intros objs.
  assert (Hkinds : Forall (fun fields => printable (assoc "kind" fields)) objs).
  { repeat constructor; eexists; reflexivity. }
  split; [exact Hkinds|].
  destruct (getCompletions_resume_suggestions {| line := 0; character := 2 |}
              (JObj [("isIncomplete", JBool false); ("items", JArr (map JObj objs))])
              objs world_example)
    as (suggestions & Hr & Harr & _).
  { right. eexists. split; reflexivity. }
  { exact Hkinds. }
  exists suggestions. split; [exact Hr|].
  vm_compute in Harr. injection Harr as <-. repeat split.
Defined.

Lemma emapM_error {A B} (f : A → jserror + B) (l : list A) (e : jserror) :
  emapM f l = inl e → ∃ x, x ∈ l ∧ f x = inl e.
Proof.
  induction l as [|x l IH]; simpl; [discriminate|].
  destruct (f x) as [e'|y] eqn:Hx; simpl.
  - intros [= ->]. exists x. split; [left|exact Hx].
  - destruct (emapM f l) as [e'|ys]; simpl; [|discriminate].
    intros [= ->]. destruct (IH eq_refl) as (x' & Hin & Hx').
    exists x'. split; [right; exact Hin|exact Hx'].
Qed.

Lemma item_to_suggestion_error (pf : platform) (position : Position) (item : jsval)
    (e : jserror) :
  item_to_suggestion pf position item = inl e → e = TypeError ∧ unreadable_item item.
Proof.
  unfold unreadable_item.
  destruct item as [| |b|n| |s|items|fields];
    [cbn; intros [= <-]; auto|cbn; intros [= <-]; auto
    |cbn; discriminate|cbn; discriminate|cbn; discriminate
    |cbn; discriminate|cbn; discriminate|].
  - rewrite item_to_suggestion_object.
    destruct (mapCompletionKind pf (assoc "kind" fields)) as [e'|k] eqn:Hk;
      cbn [ebind]; [|discriminate].
    intros [= <-]. apply mapCompletionKind_error in Hk as [Hk ->].
    split; [reflexivity|]. right. right. exists fields. split; [reflexivity|exact Hk].
Qed.

Lemma item_to_suggestion_unreadable (pf : platform) (position : Position) (item : jsval) :
  unreadable_item item → item_to_suggestion pf position item = inl TypeError.
Proof.
  intros [-> | [-> | (fields & -> & Hk)]]; [reflexivity|reflexivity|].
  rewrite item_to_suggestion_object. unfold mapCompletionKind. rewrite Hk. reflexivity.
Qed.

(** X19. Suggestions are all or nothing.  Mapping the items throws
    exactly when one of them cannot be read: it is [null] or missing, so
    that reading its label throws, or it is an object whose [kind] does not
    convert to a property key.  Then the method catches the TypeError,
    logs "Completion error" with the engine's message and returns no
    suggestions at all, the good items included. *)
Theorem getCompletions_resume_bad_item (position : Position) (items : list jsval)
    (w : world) :
  Exists unreadable_item items ↔
  getCompletions_resume position (inr (JArr items)) w
    = (logged ("Completion error: " +:+ engine_message (env w) TypeError) "error" w,
       inr (RSuggestions [])) ∧
  emapM (item_to_suggestion (env w) position) items = inl TypeError.
Proof.
  split.
  - intros Hbad.
    assert (Hex : Exists (fun item =>
                            ∃ e, item_to_suggestion (env w) position item = inl e) items).
    { eapply Exists_impl; [exact Hbad|]. intros item Hitem. exists TypeError.
      apply item_to_suggestion_unreadable, Hitem. }
    destruct (emapM_fails _ _ Hex) as [e He].
    destruct (emapM_error _ _ _ He) as (x & _ & Hx).
    apply item_to_suggestion_error in Hx as [-> _].
    split; [|exact He].
    unfold getCompletions_resume, error_message. mred. cbn [isArray js_map].
    rewrite He. msimp. reflexivity.
  - intros [_ He]. destruct (emapM_error _ _ _ He) as (x & Hin & Hx).
    apply item_to_suggestion_error in Hx as [_ Hx].
    apply Exists_exists. exists x. split; assumption.
Qed.

Lemma getCompletions_eq (uri : string) (position : Position) (w : world) :
  isConnected (this w) = true →
  truthy (opt_prop (serverCapabilities (this w)) "completionProvider") = true →
  getCompletions uri position w
    = let m := completion_request (messageId (this w) + 1) uri position in
      if ws_open w then
        (requested m (KCompletions position) w, inr (Suspended (nextPromise (host w))))
      else
        (logged "Completion error: Connection not ready" "error"
           (refused m (with_this (set_messageId (messageId (this w) + 1)) w)),
         inr (Done (RSuggestions []))).
Proof.
  intros Hc Hcap. unfold getCompletions, next_id. mred. rewrite Hc, Hcap. mred.
  rewrite sendMessage_eq.
  match goal with |- context [ws_open ?x] => change (ws_open x) with (ws_open w) end.
  destruct (ws_open w); cbn [msg_id]; mred.
  - unfold await_on, requested, sent. cbn [msg_id]. mred. reflexivity.
  - unfold getCompletions_resume, error_message. msimp. reflexivity.
Qed.

Lemma getHover_eq (uri : string) (position : Position) (w : world) :
  isConnected (this w) = true →
  truthy (opt_prop (serverCapabilities (this w)) "hoverProvider") = true →
  getHover uri position w
    = let m := hover_request (messageId (this w) + 1) uri position in
      if ws_open w then
        (requested m KHover w, inr (Suspended (nextPromise (host w))))
      else
        (logged "Hover error: Connection not ready" "error"
           (refused m (with_this (set_messageId (messageId (this w) + 1)) w)),
         inr (Done RNull)).
Proof.
  intros Hc Hcap. unfold getHover, next_id. mred. rewrite Hc, Hcap. mred.
  rewrite sendMessage_eq.
  match goal with |- context [ws_open ?x] => change (ws_open x) with (ws_open w) end.
  destruct (ws_open w); cbn [msg_id]; mred.
  - unfold await_on, requested, sent. cbn [msg_id]. mred. reflexivity.
  - unfold getHover_resume, error_message. msimp. reflexivity.
Qed.

(** X20. The completion provider asks at the cursor and answers at the
    cursor: called with completion switched on at an editor position, on a
    connected client with an open socket and a server that announced
    completion, it sends the request for the zero-based position and
    suspends; and when the request is answered by an item without a range
    (whose [kind] converts to a property key, so that the item can be
    read), the suggestion returned carries the empty range at the editor
    position the provider was called with. *)
Theorem completion_default_range (uri : string) (position : monaco_position)
    (fields : list (string * jsval)) (w : world) :
  isConnected (this w) = true →
  truthy (opt_prop (serverCapabilities (this w)) "completionProvider") = true →
  ws_open w = true →
  truthy (assoc "range" fields) = false →
  printable (assoc "kind" fields) →
  let r := provideCompletionItems true uri position w in
  let p := nextPromise (host w) in
  ∃ k,
    snd r = inr (Suspended p) ∧
    awaiting (host (fst r)) !! p = Some k ∧
    TrWsSend (default 0%nat (ws (this w)))
      (completion_request (messageId (this w) + 1) uri
         {| line := lineNumber position - 1; character := column position - 1 |})
      ∈ trace (fst r) ∧
    ∀ w', ∃ s,
      resume k (inr (JArr [JObj fields])) w'
        = (emitted (TrReturn k (RSuggestions [s])) w', inr tt) ∧
      range s = JObj [("startLineNumber", JNum (lineNumber position));
                      ("endLineNumber", JNum (lineNumber position));
                      ("startColumn", JNum (column position));
                      ("endColumn", JNum (column position))].
Proof.
  intros Hc Hcap Ho Hrange Hkind. cbv zeta. unfold provideCompletionItems. cbn [negb].
  rewrite (getCompletions_eq _ _ _ Hc Hcap), Ho. cbv zeta. cbn [fst snd].
  exists (KCompletions (lspPosition position)).
  split; [reflexivity|]. split; [apply lookup_insert_eq|]. split.
  { unfold requested, sent, completion_request. cbn [msg_id]. wsimpl.
    rewrite !elem_of_app. left. right. left. }
  intros w'. destruct (mapCompletionKind_printable (env w') _ Hkind) as [k Hk].
  eexists. split.
  { unfold resume, getCompletions_resume. mred. cbn [isArray js_map emapM].
    rewrite item_to_suggestion_object, Hk. cbn [ebind]. mred. reflexivity. }
  cbn [range]. unfold js_or. rewrite Hrange. unfold lspPosition. cbn [line character].
  repeat f_equal; lia.
Qed.

Lemma completion_default_range_witness :
  let w := run [EvConnect None; EvOpen 0%nat;
                EvMessage 0%nat
                  (Some (JObj [("jsonrpc", JStr "2.0"); ("id", JNum 1);
                               ("result",
                                JObj [("capabilities",
                                       JObj [("completionProvider", JObj [])])])]))]
               world_example in
  let uri := "inmemory://model/1" in
  let position := {| lineNumber := 3; column := 7 |} in
  let fields := [("label", JStr "print")] in
  let r := provideCompletionItems true uri position w in
  let p := nextPromise (host w) in
  ∃ k,
    snd r = inr (Suspended p) ∧
    awaiting (host (fst r)) !! p = Some k ∧
    TrWsSend (default 0%nat (ws (this w)))
      (completion_request (messageId (this w) + 1) uri
         {| line := lineNumber position - 1; character := column position - 1 |})
      ∈ trace (fst r) ∧
    ∀ w', ∃ s,
      resume k (inr (JArr [JObj fields])) w'
        = (emitted (TrReturn k (RSuggestions [s])) w', inr tt) ∧
      range s = JObj [("startLineNumber", JNum (lineNumber position));
                      ("endLineNumber", JNum (lineNumber position));
                      ("startColumn", JNum (column position));
                      ("endColumn", JNum (column position))].
Proof.
  intros w uri position fields.
  assert (Hc : isConnected (this w) = true) by (vm_compute; reflexivity).
  assert (Hcap : truthy (opt_prop (serverCapabilities (this w)) "completionProvider")
                 = true) by (vm_compute; reflexivity).
  assert (Ho : ws_open w = true) by (vm_compute; reflexivity).
  exact (completion_default_range uri position fields w Hc Hcap Ho eq_refl
           (ex_intro _ "undefined" eq_refl)).
Defined.

(** ** Completion item kinds *)

Lemma mapping_Some (key : string) (k : monaco.CompletionItemKind) :
  mapping key = Some k → ∃ n, 1 ≤ n ≤ 18 ∧ key = pretty n ∧ lsp_kind k = n.
Proof.
  unfold mapping.
  repeat match goal with
         | |- context [String.eqb key ?s] =>
             destruct (String.eqb_spec key s) as [->|_];
             [intros [= <-]; eexists; refine (conj _ (conj _ eq_refl));
              [cbn; lia|reflexivity]|]
         end.
  discriminate.
Qed.

Lemma mapping_pretty (n : Z) :
  1 ≤ n ≤ 18 → ∃ k, mapping (pretty n) = Some k ∧ lsp_kind k = n.
Proof.
  intros Hn.
  assert (Hcases : n = 1 ∨ n = 2 ∨ n = 3 ∨ n = 4 ∨ n = 5 ∨ n = 6 ∨ n = 7 ∨ n = 8 ∨ n = 9
                   ∨ n = 10 ∨ n = 11 ∨ n = 12 ∨ n = 13 ∨ n = 14 ∨ n = 15 ∨ n = 16
                   ∨ n = 17 ∨ n = 18) by lia.
  repeat destruct Hcases as [->|Hcases]; try subst n;
    (eexists; split; [vm_compute; reflexivity|reflexivity]).
Qed.

(** The decimal form of a number starts with a digit or a minus sign, so
    it names no member of [Object.prototype]. *)
Lemma pretty_N_go_numeric (x : N) (s : string) :
  starts_numeric s = true → starts_numeric (pretty_N_go x s) = true.
Proof.
  revert s. induction (N.lt_wf_0 x) as [x _ IH]. intros s Hs.
  assert (Hx : (x = 0 ∨ 0 < x)%N) by lia. destruct Hx as [->|Hx].
  - rewrite pretty_N_go_0. exact Hs.
  - rewrite pretty_N_go_step by exact Hx. apply IH; [apply N.div_lt; lia|].
    unfold pretty_N_char. repeat case_match; reflexivity.
Qed.

Lemma pretty_numeric (n : Z) : starts_numeric (pretty n) = true.
Proof.
  assert (Hpos : ∀ p : positive, starts_numeric (pretty (N.pos p)) = true).
  { intros p. unfold pretty, pretty_N. rewrite decide_False by discriminate.
    rewrite pretty_N_go_step by lia. apply pretty_N_go_numeric.
    unfold pretty_N_char. repeat case_match; reflexivity. }
  destruct n as [|p|p]; [reflexivity|apply Hpos|reflexivity].
Qed.

Lemma numeric_not_inherited (key : string) :
  starts_numeric key = true → inherited key = false.
Proof.
  destruct key as [|c rest]; [discriminate|]. unfold starts_numeric. cbn [existsb].
  intros H.
  repeat match goal with
         | H : (_ || _) = true |- _ => apply orb_prop in H as [H|H]
         end;
    try discriminate; apply Ascii.eqb_eq in H; subst c; reflexivity.
Qed.

(** X21. [mapCompletionKind] on numbers never throws and returns a
    constant of the editor library: outside 1..18 the kind is Text; inside
    it is the editor's constant of that protocol number, unless the editor
    library's constant is falsy, in which case it is Text again (a falsy
    constant other than Text is never returned); and the numeric string
    reads as the number. *)
Theorem mapCompletionKind_numbers (pf : platform) (n : Z) :
  (n < 1 ∨ 18 < n → mapCompletionKind pf (JNum n) = inr (KindConstant monaco.KText)) ∧
  (1 ≤ n ≤ 18 →
   ∃ k, lsp_kind k = n ∧
        mapCompletionKind pf (JNum n)
          = inr (KindConstant (if kind_truthy pf k then k else monaco.KText))) ∧
  (∃ k, mapCompletionKind pf (JNum n) = inr (KindConstant k) ∧
        (k = monaco.KText ∨ kind_truthy pf k = true)) ∧
  mapCompletionKind pf (JStr (pretty n)) = mapCompletionKind pf (JNum n).
Proof.
  unfold mapCompletionKind. cbn [to_string ebind].
  rewrite (numeric_not_inherited _ (pretty_numeric n)).
  split; [|split; [|split; [|reflexivity]]].
  - intros Hout. destruct (mapping (pretty n)) as [k|] eqn:Hk; [|reflexivity].
    apply mapping_Some in Hk as (m & Hm & Heq & _).
    apply (inj pretty) in Heq. lia.
  - intros Hin. destruct (mapping_pretty n Hin) as (k & -> & Hk).
    exists k. split; [exact Hk|reflexivity].
  - destruct (mapping (pretty n)) as [k|]; [|eexists; split; [reflexivity|left; reflexivity]].
    destruct (kind_truthy pf k) eqn:Ht; eexists; (split; [reflexivity|]);
      [right; exact Ht|left; reflexivity].
Qed.

(** ** A request while the socket is not open *)

(** X22. A feature request made while the client counts as connected but
    its socket is not open (a second [connect] has replaced it, say) uses
    up an identifier without sending anything: the counter moves on, the
    table and the timers stay as they are, nothing goes on the wire, the
    method returns its empty value, and the log gets the two lines "Cannot
    send message" and "Completion error" (or "Hover error"). *)
Theorem request_socket_not_open (uri : string) (position : Position) (w : world) :
  isConnected (this w) = true →
  ws_open w = false →
  let id := messageId (this w) + 1 in
  (truthy (opt_prop (serverCapabilities (this w)) "completionProvider") = true →
   getCompletions uri position w
     = (logged "Completion error: Connection not ready" "error"
          (refused (completion_request id uri position)
                   (with_this (set_messageId id) w)),
        inr (Done (RSuggestions [])))) ∧
  (truthy (opt_prop (serverCapabilities (this w)) "hoverProvider") = true →
   getHover uri position w
     = (logged "Hover error: Connection not ready" "error"
          (refused (hover_request id uri position) (with_this (set_messageId id) w)),
        inr (Done RNull))) ∧
  ∀ m text,
    let w' := logged text "error" (refused m (with_this (set_messageId id) w)) in
    messageId (this w') = id ∧
    pendingRequests (this w') = pendingRequests (this w) ∧
    timers (host w') = timers (host w) ∧
    trace w' = trace w ++ [TrSendMessage m].
Proof.
  intros Hc Ho. cbv zeta. split; [|split].
  - intros Hcap. rewrite (getCompletions_eq _ _ _ Hc Hcap), Ho. reflexivity.
  - intros Hcap. rewrite (getHover_eq _ _ _ Hc Hcap), Ho. reflexivity.
  - intros m text. unfold logged, refused. wsimpl. repeat split.
Qed.

Lemma request_socket_not_open_witness :
  let w := run [EvConnect None; EvOpen 0%nat;
                EvMessage 0%nat
                  (Some (JObj [("jsonrpc", JStr "2.0"); ("id", JNum 1);
                               ("result",
                                JObj [("capabilities",
                                       JObj [("hoverProvider", JBool true)])])]));
                EvConnect None]
               world_example in
  isConnected (this w) = true ∧
  ws_open w = false ∧
  snd (getHover "inmemory://model/1" {| line := 0; character := 0 |} w)
    = inr (Done RNull) ∧
  messageId (this (fst (getHover "inmemory://model/1" {| line := 0; character := 0 |} w)))
    = 2.
Proof.
  intros w.
  assert (Hc : isConnected (this w) = true) by (vm_compute; reflexivity).
  assert (Ho : ws_open w = false) by (vm_compute; reflexivity).
  split; [exact Hc|]. split; [exact Ho|].
  destruct (request_socket_not_open "inmemory://model/1" {| line := 0; character := 0 |}
              w Hc Ho) as (_ & Hh & _).
  rewrite Hh by (vm_compute; reflexivity). split; [reflexivity|].
  vm_compute. reflexivity.
Defined.

(** ** Hover *)

(** X23. The continuation of [getHover] never throws and has three
    outcomes only: [null] with nothing changed; a hover with nothing
    changed, which takes a result with truthy [contents] and carries the
    result's [range]; or [null] after one "Hover error" line was logged,
    nothing else being changed. *)
Theorem getHover_resume_outcomes (outcome : jserror + jsval) (w : world) :
  getHover_resume outcome w = (w, inr RNull)
  ∨ (∃ result contents range1 markdown,
       outcome = inr result ∧ truthy result = true ∧
       prop result "contents" = inr contents ∧ truthy contents = true ∧
       prop result "range" = inr range1 ∧
       getHover_resume outcome w = (w, inr (RHover range1 markdown)))
  ∨ (∃ text,
       getHover_resume outcome w
         = (logged ("Hover error: " +:+ text) "error" w, inr RNull)).
Proof.
  unfold getHover_resume, error_message. msimp.
  destruct outcome as [e|result]; msimp; [right; right; eexists; reflexivity|].
  destruct (truthy result) eqn:Hres; msimp; [|left; reflexivity].
  destruct (prop_truthy result "contents" Hres) as [contents Hc]. rewrite Hc. msimp.
  destruct (truthy contents) eqn:Hcont; msimp; [|left; reflexivity].
  destruct (js_map _ _) as [e|fragments]; msimp; [right; right; eexists; reflexivity|].
  destruct (js_join nl2 fragments) as [e|markdown]; msimp;
    [right; right; eexists; reflexivity|].
  destruct (prop_truthy result "range" Hres) as [range1 Hr]. rewrite Hr. msimp.
  right. left. exists result, contents, range1, markdown.
  repeat split; assumption.
Qed.

(** X24. A hover whose [contents] is one fragment, not an array, is read
    as the array of that one fragment: a string, or marked-up content with
    a non-empty [value], becomes the hover text as it is. *)
Theorem getHover_resume_single (fields : list (string * jsval)) (content : jsval)
    (text : string) (w : world) :
  assoc "contents" fields = content →
  fragment_text content text →
  text ≠ "" →
  getHover_resume (inr (JObj fields)) w = (w, inr (RHover (assoc "range" fields) text)) ∧
  ∀ rest,
    getHover_resume (inr (JObj (("contents", JArr [content]) :: rest))) w
    = getHover_resume (inr (JObj (("contents", content) :: rest))) w.
Proof.
  intros Hc Hfr Hne.
  assert (Hshape : truthy content = true ∧ isArray content = false).
  { destruct Hfr as [s|fs s _]; [|split; reflexivity].
    split; [|reflexivity]. simpl. destruct (String.eqb_spec s ""); [contradiction|reflexivity]. }
  destruct Hshape as [Ht Ha].
  destruct (hover_fragments_join [content] [text]) as (fragments & Hm & Hj).
  { constructor; [exact Hfr|constructor]. }
  { constructor; [exact Hne|constructor]. }
  split.
  - unfold getHover_resume. mred. cbn [truthy prop]. rewrite Hc, Ht, Ha. mred.
    cbn [js_map]. rewrite Hm. mred. unfold js_join. rewrite Hj.
    cbn [ebind String.concat]. reflexivity.
  - intros rest. unfold getHover_resume. mred. cbn [truthy prop assoc].
    change (String.eqb "contents" "contents") with true. cbv iota.
    cbn [truthy isArray]. rewrite Ht, Ha. reflexivity.
Qed.

Lemma getHover_resume_single_witness :
  let fields := [("contents", JObj [("kind", JStr "markdown");
                                    ("value", JStr "function print(...)")]);
                 ("range", JNull)] in
  getHover_resume (inr (JObj fields)) world_example
    = (world_example, inr (RHover (assoc "range" fields) "function print(...)")) ∧
  ∀ rest,
    getHover_resume
      (inr (JObj (("contents", JArr [JObj [("kind", JStr "markdown");
                                           ("value", JStr "function print(...)")]])
                    :: rest))) world_example
    = getHover_resume
        (inr (JObj (("contents", JObj [("kind", JStr "markdown");
                                       ("value", JStr "function print(...)")])
                      :: rest))) world_example.
Proof.
  apply (getHover_resume_single
           [("contents", JObj [("kind", JStr "markdown");
                               ("value", JStr "function print(...)")]);
            ("range", JNull)]
           (JObj [("kind", JStr "markdown"); ("value", JStr "function print(...)")])
           "function print(...)" world_example).
  - reflexivity.
  - apply fragment_value. reflexivity.
  - discriminate.
Defined.

(** ** The handshake *)

Lemma setupEditorIntegration_eq (w : world) :
  setupEditorIntegration w
    = (match editor (page w) with
       | Some model =>
           if editorLoaded (page w) then
             logged "Editor integration complete" "success"
               (emitted (TrRegisterProviders (model_uri model))
                  (if isConnected (this w)
                   then if ws_open w then sent (didOpen model) w
                        else refused (didOpen model) w
                   else w))
           else w
       | None => w
       end,
       inr tt).
Proof.
  unfold setupEditorIntegration. mred.
  destruct (editor (page w)) as [model|]; [|reflexivity].
  destruct (editorLoaded (page w)); [|reflexivity]. mred.
  destruct (isConnected (this w)) eqn:Hc.
  - rewrite (openDocument_eq _ _ _ _ _ Hc). cbv zeta. fold (didOpen model).
    destruct (ws_open w); msimp; reflexivity.
  - unfold openDocument. mred. rewrite Hc. msimp. reflexivity.
Qed.

Lemma initialize_resume_failed (outcome : jserror + jsval) (w : world) :
  match outcome with
  | inl _ => True
  | inr result => result = JNull ∨ result = JUndefined
  end →
  initialize_resume outcome w
    = (logged ("Initialization failed: "
                 +:+ match outcome with
                     | inl (Error msg) => msg
                     | inl e => engine_message (env w) e
                     | inr _ => engine_message (env w) TypeError
                     end) "error" w,
       inr tt).
Proof.
  intros H. unfold initialize_resume, error_message.
  destruct outcome as [e|result].
  - msimp. destruct e; reflexivity.
  - destruct H as [-> | ->]; mred; cbn [prop]; msimp; reflexivity.
Qed.

(** X25. A handshake that fails leaves the client as it was, apart from
    one "Initialization failed" line in the log, which carries the message
    of the rejection: that is so when the request was rejected (refused,
    timed out, or answered with an error) and when it was answered with no
    result to read capabilities from.  Nothing is sent, the capabilities
    and [lspReady] keep their values, and the continuation does not
    throw. *)
Theorem initialize_resume_failure (outcome : jserror + jsval) (w : world) :
  match outcome with
  | inl _ => True
  | inr result => result = JNull ∨ result = JUndefined
  end →
  let r := initialize_resume outcome w in
  snd r = inr tt ∧
  (∃ text, fst r = logged ("Initialization failed: " +:+ text) "error" w ∧
           ∀ msg, outcome = inl (Error msg) → text = msg) ∧
  this (fst r) = this w ∧
  page (fst r) = page w ∧
  trace (fst r) = trace w ∧
  timers (host (fst r)) = timers (host w).
Proof.
  intros H. cbv zeta. rewrite (initialize_resume_failed _ _ H). cbn [fst snd].
  split; [reflexivity|]. split; [|repeat split].
  eexists. split; [reflexivity|]. intros msg ->. reflexivity.
Qed.

Lemma initialize_resume_failure_witness :
  let r := initialize_resume (inl (Error "Request timeout")) world_example in
  snd r = inr tt ∧
  (∃ text, fst r = logged ("Initialization failed: " +:+ text) "error" world_example ∧
           ∀ msg, @inl jserror jsval (Error "Request timeout") = inl (Error msg) →
                  text = msg) ∧
  this (fst r) = this world_example ∧
  page (fst r) = page world_example ∧
  trace (fst r) = trace world_example ∧
  timers (host (fst r)) = timers (host world_example).
Proof. exact (initialize_resume_failure (inl (Error "Request timeout")) world_example I). Defined.

Lemma initialize_resume_eq (result capabilities : jsval) (w : world) :
  prop result "capabilities" = inr capabilities →
  initialize_resume (inr result) w
    = let w1 := logged "Server initialized successfully" "success"
                  (with_this (set_serverCapabilities capabilities) w) in
      if ws_open w then
        setupEditorIntegration
          (emitted (TrShowNotification (JStr "LSP server ready!") None None)
             (with_page (set_lspReady true) (sent initialized w1)))
      else
        (logged "Initialization failed: Connection not ready" "error"
           (refused initialized w1),
         inr tt).
Proof.
  intros Hcaps. unfold initialize_resume, error_message. mred. rewrite Hcaps. msimp.
  rewrite sendMessage_eq. fold initialized.
  match goal with |- context [ws_open ?x] => change (ws_open x) with (ws_open w) end.
  destruct (ws_open w); msimp.
  - unfold await_settled. mred. unfold emitted, logged, sent. cbn [msg_id initialized].
    rewrite !setupEditorIntegration_eq. mred. reflexivity.
  - unfold await_settled. msimp. reflexivity.
Qed.

(** X26. A handshake answered with a result on an open socket: the
    capabilities are stored as received, the [initialized] notification
    goes out, the page is told the server is ready and shown a toast, and
    the editor (if there is one, loaded) is integrated, its document
    opened at version 1 as Lua.  The identifier counter, the table and the
    timers are as before; the continuation does not throw. *)
Theorem initialize_resume_success (result capabilities : jsval) (w : world) :
  prop result "capabilities" = inr capabilities →
  ws_open w = true →
  let r := initialize_resume (inr result) w in
  let sid := default 0%nat (ws (this w)) in
  snd r = inr tt ∧
  serverCapabilities (this (fst r)) = capabilities ∧
  lspReady (page (fst r)) = true ∧
  trace (fst r)
    = trace w
      ++ [TrSendMessage initialized; TrWsSend sid initialized;
          TrShowNotification (JStr "LSP server ready!") None None]
      ++ integration_effects sid w ∧
  messageId (this (fst r)) = messageId (this w) ∧
  pendingRequests (this (fst r)) = pendingRequests (this w) ∧
  timers (host (fst r)) = timers (host w) ∧
  isConnected (this (fst r)) = isConnected (this w).
Proof.
  intros Hcaps Ho. cbv zeta. rewrite (initialize_resume_eq _ _ _ Hcaps), Ho. cbv zeta.
  rewrite setupEditorIntegration_eq. unfold integration_effects.
  match goal with |- context [ws_open ?x] =>
    lazymatch x with w => fail | _ => change (ws_open x) with (ws_open w) end end.
  rewrite Ho. unfold emitted, logged, sent. cbn [msg_id initialized didOpen]. wsimpl.
  destruct (editor (page w)) as [model|]; wsimpl.
  - destruct (editorLoaded (page w)); wsimpl.
    + destruct (isConnected (this w)) eqn:Hc; wsimpl; rewrite ?Hc;
        (repeat split; rewrite <- ?app_assoc; reflexivity).
    + repeat split. rewrite <- !app_assoc. reflexivity.
  - repeat split. rewrite <- !app_assoc. reflexivity.
Qed.

Lemma initialize_resume_success_witness :
  let w := run [EvConnect None; EvOpen 0%nat] world_example in
  let result := JObj [("capabilities", JObj [("hoverProvider", JBool true)])] in
  ws_open w = true ∧
  snd (initialize_resume (inr result) w) = inr tt ∧
  serverCapabilities (this (fst (initialize_resume (inr result) w)))
    = JObj [("hoverProvider", JBool true)] ∧
  lspReady (page (fst (initialize_resume (inr result) w))) = true.
Proof.
  intros w result.
  assert (Ho : ws_open w = true) by (vm_compute; reflexivity).
  split; [exact Ho|].
  destruct (initialize_resume_success result (JObj [("hoverProvider", JBool true)]) w
              eq_refl Ho) as (Hs & Hc & Hr & _).
  split; [exact Hs|]. split; [exact Hc|exact Hr].
Defined.

Lemma setupEditorIntegration_lspReady (w : world) :
  lspReady (page (fst (setupEditorIntegration w))) = lspReady (page w).
Proof.
  rewrite setupEditorIntegration_eq. cbn [fst].
  destruct (editor (page w)) as [model|]; [|reflexivity].
  destruct (editorLoaded (page w)); [|reflexivity].
  destruct (isConnected (this w)); [destruct (ws_open w)|];
    unfold logged, emitted, sent, refused; cbn [msg_id didOpen]; reflexivity.
Qed.

(** X27. [lspReady] is switched on by the handshake's continuation in
    one case only: the request was answered with a result whose
    capabilities could be read, and the socket was still open for the
    [initialized] notification.  If the socket is no longer open at that
    point, the capabilities have been stored all the same, but the page is
    not told and the editor is not integrated. *)
Theorem initialize_resume_ready (outcome : jserror + jsval) (w : world) :
  lspReady (page w) = false →
  let r := initialize_resume outcome w in
  (lspReady (page (fst r)) = true
   ↔ ws_open w = true ∧
     ∃ result capabilities,
       outcome = inr result ∧ prop result "capabilities" = inr capabilities) ∧
  (ws_open w = false →
   ∀ result capabilities,
     outcome = inr result → prop result "capabilities" = inr capabilities →
     serverCapabilities (this (fst r)) = capabilities ∧
     trace (fst r) = trace w ++ [TrSendMessage initialized]).
Proof.
  intros Hready. cbv zeta. split.
  - destruct outcome as [e|result].
    { rewrite initialize_resume_failed by exact I. unfold logged. wsimpl.
      rewrite Hready. split; [discriminate|]. intros (_ & ? & ? & [=] & _). }
    destruct (prop result "capabilities") as [e|capabilities] eqn:Hcaps.
    { assert (Hnull : result = JNull ∨ result = JUndefined)
        by (destruct result; try discriminate; auto).
      rewrite initialize_resume_failed by exact Hnull. unfold logged. wsimpl.
      rewrite Hready. split; [discriminate|].
      intros (_ & ? & ? & [= <-] & H). congruence. }
    rewrite (initialize_resume_eq _ _ _ Hcaps). cbv zeta.
    destruct (ws_open w) eqn:Ho.
    + rewrite setupEditorIntegration_lspReady. unfold emitted. wsimpl.
      split; [|reflexivity]. intros _. split; [reflexivity|].
      exists result, capabilities. split; [reflexivity|exact Hcaps].
    + unfold logged, refused. wsimpl. rewrite Hready.
      split; [discriminate|]. intros [[=] _].
  - intros Ho result capabilities -> Hcaps.
    rewrite (initialize_resume_eq _ _ _ Hcaps), Ho. cbv zeta.
    unfold logged, refused. wsimpl. split; reflexivity.
Qed.

Lemma initialize_resume_ready_witness :
  let w := run [EvConnect None] world_example in
  let result := JObj [("capabilities", JObj [("hoverProvider", JBool true)])] in
  lspReady (page w) = false ∧
  ws_open w = false ∧
  lspReady (page (fst (initialize_resume (inr result) w))) ≠ true ∧
  serverCapabilities (this (fst (initialize_resume (inr result) w)))
    = JObj [("hoverProvider", JBool true)].
Proof.
  intros w result.
  assert (Hr : lspReady (page w) = false) by (vm_compute; reflexivity).
  assert (Ho : ws_open w = false) by (vm_compute; reflexivity).
  split; [exact Hr|]. split; [exact Ho|].
  destruct (initialize_resume_ready (inr result) w Hr) as [Hiff Hclosed].
  split.
  - intros H. apply Hiff in H as [H _]. rewrite Ho in H. discriminate.
  - exact (proj1 (Hclosed Ho result _ eq_refl eq_refl)).
Defined.

(** ** Identifiers leave no gaps *)

Lemma consecutive_closed : frame_closed consecutive.
Proof.
  split; try (intros; assumption).
  intros e w Hp [H0 Hs]. unfold consecutive. wsimpl.
  rewrite passive_sent_ids by exact Hp. split; assumption.
Qed.

Lemma consecutive_request (m : message) (w : world) :
  msg_id m = Some (messageId (this w) + 1) → consecutive w →
  consecutive (sent m (with_this (set_messageId (messageId (this w) + 1)) w)) ∧
  consecutive (refused m (with_this (set_messageId (messageId (this w) + 1)) w)).
Proof.
  intros Hid [H0 Hs].
  assert (Hnext : sent_ids (trace w ++ [TrSendMessage m])
                  = seqZ 1 (messageId (this w) + 1)).
  { rewrite sent_ids_snoc, Hs. cbn [request_id]. rewrite Hid. cbn [option_list].
    rewrite seqZ_app by lia. f_equal.
    change (seqZ (1 + messageId (this w)) 1) with [1 + messageId (this w)].
    simpl. f_equal. lia. }
  unfold consecutive, sent, refused. rewrite Hid. wsimpl. split; (split; [lia|]).
  - rewrite 2!(sent_ids_snoc (_ ++ _)). cbn [request_id option_list].
    rewrite !app_nil_r. exact Hnext.
  - exact Hnext.
Qed.

Lemma consecutive_settled (p : promise) (outcome : jserror + jsval)
    (pend : gmap Z pending_request) (w : world) :
  consecutive w →
  consecutive (settled p outcome (with_this (set_pendingRequests pend) w)).
Proof.
  intros [H0 Hs]. unfold consecutive, settled. wsimpl.
  assert (Hsame : sent_ids (trace w ++ [settle_effect p outcome]) = sent_ids (trace w)).
  { rewrite sent_ids_snoc. destruct outcome; apply app_nil_r. }
  destruct (awaiting (host w) !! p); wsimpl; rewrite Hsame; split; assumption.
Qed.

Lemma consecutive_drain (w : world) : consecutive w → consecutive (drain w).
Proof.
  apply drain_preserves.
  - exact consecutive_closed.
  - intros l w' H. exact H.
  - intros c w' H. exact H.
Qed.

(** X28. In every run of the client from its construction the
    identifiers handed to [sendMessage] are exactly 1, 2, ..., [messageId]
    in this order: the counter never skips a number and never goes back,
    whichever typed methods are called and whatever the socket does. *)
Theorem request_ids_consecutive (pf : platform) (g : globals)
    (logs : option (list log_entry)) (t0 : Z) (evs : list event) :
  let w := run evs (boot pf g logs t0) in
  sent_ids (trace w) = seqZ 1 (messageId (this w)) ∧
  0 ≤ messageId (this w) ∧
  length (sent_ids (trace w)) = Z.to_nat (messageId (this w)) ∧
  ∀ id, id ∈ sent_ids (trace w) ↔ 1 ≤ id ≤ messageId (this w).
Proof.
  cbv zeta.
  assert (H : consecutive (run evs (boot pf g logs t0))).
  { apply run_preserves.
    - exact consecutive_closed.
    - exact consecutive_request.
    - intros n request outcome w _. apply consecutive_settled.
    - intros n request w _ H. exact H.
    - intros i t w _ H.
      assert (Hd : consecutive (with_host (set_timers (delete i (timers (host w)))) w))
        by exact H.
      destruct (timer_cb t) as [id p|url]; [|exact Hd].
      destruct (pendingRequests (this w) !! id); [|exact Hd].
      apply (consecutive_settled p _ _ _ Hd).
    - exact consecutive_drain.
    - split; [reflexivity|]. reflexivity. }
  destruct H as [H0 Hs]. rewrite Hs. split; [reflexivity|]. split; [exact H0|].
  split; [apply length_seqZ|]. intros id. rewrite elem_of_seqZ. lia.
Qed.

(** ** A request and what ends it *)

Lemma drain_one (k : kont) (outcome : jserror + jsval) (w : world) :
  microtasks (host w) = [(k, outcome)] →
  drain w = fst (resume k outcome (with_host (set_microtasks []) w)).
Proof. intros H. unfold drain. rewrite H. reflexivity. Qed.

(** What [getHover] returns depends on the outcome only; it changes the
    world only by logging, and only when it returns [null]. *)
Lemma getHover_resume_value (outcome : jserror + jsval) :
  ∃ v, ∀ w,
    getHover_resume outcome w = (w, inr v)
    ∨ ∃ text, getHover_resume outcome w
              = (logged ("Hover error: " +:+ text) "error" w, inr v).
Proof.
  unfold getHover_resume, error_message.
  destruct outcome as [e|result];
    [exists RNull; intros w; right; msimp; eexists; reflexivity|].
  destruct (truthy result) eqn:Hres;
    [|exists RNull; intros w; left; msimp; rewrite Hres; reflexivity].
  destruct (prop_truthy result "contents" Hres) as [contents Hc].
  destruct (truthy contents) eqn:Hcont;
    [|exists RNull; intros w; left; msimp; rewrite Hres; mred; rewrite Hc; mred;
      rewrite Hcont; reflexivity].
  destruct (js_map hover_fragment (if isArray contents then contents else JArr [contents]))
    as [e|fragments] eqn:Hm.
  - exists RNull. intros w. right. msimp. rewrite Hres. mred. rewrite Hc. mred.
    rewrite Hcont. mred. rewrite Hm. msimp. eexists. reflexivity.
  - destruct (js_join nl2 fragments) as [e|markdown] eqn:Hj.
    + exists RNull. intros w. right. msimp. rewrite Hres. mred. rewrite Hc. mred.
      rewrite Hcont. mred. rewrite Hm. mred. rewrite Hj. msimp. eexists. reflexivity.
    + destruct (prop_truthy result "range" Hres) as [range1 Hr].
      exists (RHover range1 markdown). intros w. left.
      msimp. rewrite Hres. mred. rewrite Hc. mred. rewrite Hcont. mred. rewrite Hm. mred.
      rewrite Hj. mred. rewrite Hr. reflexivity.
Qed.

(** X29. A hover request and its answer, end to end.  On a connected
    client with an open socket, a server that announced hover and no
    method waiting to resume, [getHover] sends the request under the next
    identifier and suspends; when the frame with that identifier arrives
    (a result, or an error whose message converts to a string), the entry
    leaves the table, the promise is settled with what the frame says, and
    the suspended call returns what [getHover] makes of it.
    Table and promise reactions are then as they were before the call
    (but for the key and the promise used), and no microtask is left. *)
Theorem hover_round_trip (uri : string) (position : Position)
    (fields : list (string * jsval)) (outcome : jserror + jsval) (w : world) :
  isConnected (this w) = true →
  truthy (opt_prop (serverCapabilities (this w)) "hoverProvider") = true →
  ws_open w = true →
  microtasks (host w) = [] →
  0 ≤ messageId (this w) →
  assoc "id" fields = JNum (messageId (this w) + 1) →
  response_outcome fields = inr outcome →
  let id := messageId (this w) + 1 in
  let p := nextPromise (host w) in
  let m := hover_request id uri position in
  let w1 := fst (getHover uri position w) in
  let w2 := run_task (handleMessage (JObj fields)) w1 in
  ∃ v,
    (∀ w', snd (getHover_resume outcome w') = inr v) ∧
    snd (getHover uri position w) = inr (Suspended p) ∧
    pendingRequests (this w1) !! id
      = Some {| entry_promise := p; timestamp := now (host w) |} ∧
    trace w2
      = trace w ++ [TrSendMessage m; TrWsSend (default 0%nat (ws (this w))) m;
                    TrSetTimeout (CbRequestTimeout id p) 30000;
                    settle_effect p outcome;
                    TrReturn KHover v] ∧
    pendingRequests (this w2) = delete id (pendingRequests (this w)) ∧
    awaiting (host w2) = delete p (awaiting (host w)) ∧
    microtasks (host w2) = [].
Proof.
  intros Hc Hcap Ho Hmt Hmid Hid Hout. cbv zeta.
  destruct (getHover_resume_value outcome) as [v Hv]. exists v.
  split. { intros w'. destruct (Hv w') as [-> | [text ->]]; reflexivity. }
  rewrite (getHover_eq _ _ _ Hc Hcap), Ho. cbv zeta. cbn [fst snd].
  split; [reflexivity|].
  set (id := messageId (this w) + 1) in *.
  set (m := hover_request id uri position).
  assert (Hp : pendingRequests (this (requested m KHover w)) !! id
               = Some {| entry_promise := nextPromise (host w);
                         timestamp := now (host w) |}).
  { unfold requested, sent, m, hover_request. cbn [msg_id]. wsimpl.
    apply lookup_insert_eq. }
  split; [exact Hp|].
  unfold run_task.
  rewrite (handleMessage_response fields id _ _ Hid ltac:(unfold id; lia) Hp), Hout.
  cbn [fst entry_promise].
  assert (Ha : awaiting (host (requested m KHover w)) !! nextPromise (host w)
               = Some KHover).
  { unfold requested. wsimpl. apply lookup_insert_eq. }
  unfold settled. wsimpl. rewrite Ha.
  rewrite (drain_one KHover outcome).
  2:{ unfold requested, sent, m, hover_request. cbn [msg_id]. wsimpl.
      rewrite Hmt. reflexivity. }
  unfold resume. mred.
  match goal with |- context [getHover_resume _ ?x] => destruct (Hv x) as [-> | [text ->]] end.
  - unfold requested, sent, m, hover_request. cbn [msg_id]. mred.
    rewrite <- !app_assoc. rewrite !delete_insert_eq. repeat split.
  - unfold logged, requested, sent, m, hover_request. cbn [msg_id]. mred.
    rewrite <- !app_assoc. rewrite !delete_insert_eq. repeat split.
Qed.

Lemma hover_round_trip_witness :
  let w := run [EvConnect None; EvOpen 0%nat;
                EvMessage 0%nat
                  (Some (JObj [("jsonrpc", JStr "2.0"); ("id", JNum 1);
                               ("result",
                                JObj [("capabilities",
                                       JObj [("hoverProvider", JBool true)])])]))]
               world_example in
  let uri := "inmemory://model/1" in
  let position := {| line := 0; character := 3 |} in
  let fields := [("jsonrpc", JStr "2.0"); ("id", JNum 2);
                 ("result", JObj [("contents", JStr "function print(...)")])] in
  let outcome := inr (JObj [("contents", JStr "function print(...)")]) in
  let id := messageId (this w) + 1 in
  let p := nextPromise (host w) in
  let m := hover_request id uri position in
  let w1 := fst (getHover uri position w) in
  let w2 := run_task (handleMessage (JObj fields)) w1 in
  ∃ v,
    (∀ w', snd (getHover_resume outcome w') = inr v) ∧
    snd (getHover uri position w) = inr (Suspended p) ∧
    pendingRequests (this w1) !! id
      = Some {| entry_promise := p; timestamp := now (host w) |} ∧
    trace w2
      = trace w ++ [TrSendMessage m; TrWsSend (default 0%nat (ws (this w))) m;
                    TrSetTimeout (CbRequestTimeout id p) 30000;
                    settle_effect p outcome;
                    TrReturn KHover v] ∧
    pendingRequests (this w2) = delete id (pendingRequests (this w)) ∧
    awaiting (host w2) = delete p (awaiting (host w)) ∧
    microtasks (host w2) = [].
Proof.
  intros w uri position fields outcome.
  assert (Hc : isConnected (this w) = true) by (vm_compute; reflexivity).
  assert (Hcap : truthy (opt_prop (serverCapabilities (this w)) "hoverProvider") = true)
    by (vm_compute; reflexivity).
  assert (Ho : ws_open w = true) by (vm_compute; reflexivity).
  assert (Hmt : microtasks (host w) = []) by (vm_compute; reflexivity).
  assert (Hmid : 0 ≤ messageId (this w)) by (vm_compute; intros H; discriminate H).
  assert (Hid : assoc "id" fields = JNum (messageId (this w) + 1))
    by (vm_compute; reflexivity).
  exact (hover_round_trip uri position fields outcome w Hc Hcap Ho Hmt Hmid Hid eq_refl).
Defined.

Lemma logs_after_ext (message type : string) (w w' : world) :
  lspLogs (host w) = lspLogs (host w') → env w = env w' → now (host w) = now (host w') →
  logs_after message type w = logs_after message type w'.
Proof. unfold logs_after. intros -> -> ->. reflexivity. Qed.

Lemma getCompletions_resume_rejected (position : Position) (msg : string) (w : world) :
  getCompletions_resume position (inl (Error msg)) w
    = (logged ("Completion error: " +:+ msg) "error" w, inr (RSuggestions [])).
Proof. unfold getCompletions_resume, error_message. msimp. reflexivity. Qed.

(** X30. A completion request that is never answered, end to end.  Once
    30000 ms have passed and the timer the request scheduled fires, the
    entry leaves the table, the promise is rejected with "Request
    timeout", and the suspended call logs "Completion error: Request
    timeout" and returns no suggestions; the timer is gone from the queue.
    An answer that arrives after that finds no entry and changes
    nothing. *)
Theorem completion_timeout (uri : string) (position : Position) (w : world) :
  isConnected (this w) = true →
  truthy (opt_prop (serverCapabilities (this w)) "completionProvider") = true →
  ws_open w = true →
  microtasks (host w) = [] →
  let id := messageId (this w) + 1 in
  let p := nextPromise (host w) in
  let m := completion_request id uri position in
  let w1 := fst (getCompletions uri position w) in
  let w2 := run [EvTick 30000; EvTimer (length (timers (host w)))] w1 in
  timers (host w1)
    = timers (host w) ++ [{| due := now (host w) + 30000;
                             timer_cb := CbRequestTimeout id p |}] ∧
  trace w2
    = trace w ++ [TrSendMessage m; TrWsSend (default 0%nat (ws (this w))) m;
                  TrSetTimeout (CbRequestTimeout id p) 30000;
                  TrReject p (Error "Request timeout");
                  TrReturn (KCompletions position) (RSuggestions [])] ∧
  pendingRequests (this w2) = delete id (pendingRequests (this w)) ∧
  awaiting (host w2) = delete p (awaiting (host w)) ∧
  timers (host w2) = timers (host w) ∧
  microtasks (host w2) = [] ∧
  lspLogs (host w2)
    = logs_after "Completion error: Request timeout" "error"
        (with_host (set_now (now (host w) + 30000)) w) ∧
  ∀ fields,
    is_response fields → assoc "id" fields = JNum id →
    handleMessage (JObj fields) w2 = (w2, inr tt).
Proof.
  intros Hc Hcap Ho Hmt. cbv zeta.
  rewrite (getCompletions_eq _ _ _ Hc Hcap), Ho. cbv zeta. cbn [fst snd].
  set (id := messageId (this w) + 1) in *.
  set (p := nextPromise (host w)).
  set (m := completion_request id uri position).
  set (t := {| due := now (host w) + 30000; timer_cb := CbRequestTimeout id p |}).
  assert (Htm : timers (host (requested m (KCompletions position) w))
                = timers (host w) ++ [t]).
  { unfold requested, sent, m, completion_request. cbn [msg_id]. reflexivity. }
  split; [exact Htm|].
  eassert (Hfinal :
    run [EvTick 30000; EvTimer (length (timers (host w)))]
        (requested m (KCompletions position) w) = _).
  { unfold run. cbn [fold_left]. unfold step at 2. cbn [Z.leb Z.compare].
    unfold step.
    assert (Hi : timers (host (with_host (set_now (now (host (requested m (KCompletions position) w)) + 30000))
                                 (requested m (KCompletions position) w)))
                   !! length (timers (host w)) = Some t).
    { wsimpl. rewrite Htm. apply list_lookup_middle. reflexivity. }
    rewrite Hi.
    assert (Hdue : (due t <=? now (host (with_host (set_now (now (host (requested m (KCompletions position) w)) + 30000))
                                 (requested m (KCompletions position) w)))) = true).
    { apply Z.leb_le. unfold requested, sent, m, completion_request, t. cbn [msg_id due].
      wsimpl. lia. }
    rewrite Hdue. unfold run_task, fire. cbn [timer_cb t].
    erewrite request_timeout_pending.
    2:{ unfold requested, sent, m, completion_request. cbn [msg_id]. wsimpl.
        apply lookup_insert_eq. }
    cbn [fst]. unfold settled. wsimpl.
    assert (Ha : awaiting (host (requested m (KCompletions position) w)) !! p
                 = Some (KCompletions position)).
    { unfold requested. wsimpl. apply lookup_insert_eq. }
    rewrite Ha.
    rewrite (drain_one (KCompletions position) (inl (Error "Request timeout"))).
    2:{ unfold requested, sent, m, completion_request. cbn [msg_id]. wsimpl.
        rewrite Hmt. reflexivity. }
    unfold resume. mred. rewrite getCompletions_resume_rejected. mred.
    reflexivity. }
  rewrite Hfinal. clear Hfinal.
  split.
  { unfold emitted, logged, requested, sent, m, completion_request. cbn [msg_id]. wsimpl.
    rewrite <- !app_assoc. reflexivity. }
  split.
  { unfold emitted, logged, requested, sent, m, completion_request. cbn [msg_id]. wsimpl.
    apply delete_insert_eq. }
  split.
  { unfold emitted, logged, requested. wsimpl. apply delete_insert_eq. }
  split.
  { unfold emitted, logged, requested, sent, m, completion_request. cbn [msg_id]. wsimpl.
    rewrite delete_middle. apply app_nil_r. }
  split; [reflexivity|].
  split.
  { unfold emitted, logged. wsimpl. apply logs_after_ext; reflexivity. }
  intros fields Hresp Hidf.
  rewrite handleMessage_falls_through.
  - apply handleNotification_response, Hresp.
  - unfold known_id. rewrite Hidf. cbn [pending_get].
    unfold emitted, logged. wsimpl.
    rewrite lookup_delete_eq. apply andb_false_r.
Qed.

Lemma completion_timeout_witness :
  let w := run [EvConnect None; EvOpen 0%nat;
                EvMessage 0%nat
                  (Some (JObj [("jsonrpc", JStr "2.0"); ("id", JNum 1);
                               ("result",
                                JObj [("capabilities",
                                       JObj [("completionProvider", JObj [])])])]))]
               world_example in
  let uri := "inmemory://model/1" in
  let position := {| line := 0; character := 3 |} in
  let id := messageId (this w) + 1 in
  let p := nextPromise (host w) in
  let m := completion_request id uri position in
  let w1 := fst (getCompletions uri position w) in
  let w2 := run [EvTick 30000; EvTimer (length (timers (host w)))] w1 in
  timers (host w1)
    = timers (host w) ++ [{| due := now (host w) + 30000;
                             timer_cb := CbRequestTimeout id p |}] ∧
  trace w2
    = trace w ++ [TrSendMessage m; TrWsSend (default 0%nat (ws (this w))) m;
                  TrSetTimeout (CbRequestTimeout id p) 30000;
                  TrReject p (Error "Request timeout");
                  TrReturn (KCompletions position) (RSuggestions [])] ∧
  pendingRequests (this w2) = delete id (pendingRequests (this w)) ∧
  awaiting (host w2) = delete p (awaiting (host w)) ∧
  timers (host w2) = timers (host w) ∧
  microtasks (host w2) = [] ∧
  lspLogs (host w2)
    = logs_after "Completion error: Request timeout" "error"
        (with_host (set_now (now (host w) + 30000)) w) ∧
  ∀ fields,
    is_response fields → assoc "id" fields = JNum id →
    handleMessage (JObj fields) w2 = (w2, inr tt).
Proof.
  intros w uri position.
  assert (Hc : isConnected (this w) = true) by (vm_compute; reflexivity).
  assert (Hcap : truthy (opt_prop (serverCapabilities (this w)) "completionProvider")
                 = true) by (vm_compute; reflexivity).
  assert (Ho : ws_open w = true) by (vm_compute; reflexivity).
  assert (Hmt : microtasks (host w) = []) by (vm_compute; reflexivity).
  exact (completion_timeout uri position w Hc Hcap Ho Hmt).
Defined.
